(** * The chess rules engine [BoardState], embedded in Rocq

    The engine is the JavaScript constructor [BoardState]: a closure over
    eleven mutable variables (the position, the active colour, four castling
    flags, the last two-square pawn move, two counters and two cached king
    squares) with query, move-generation, move-execution and FEN functions.

    The embedding keeps the data of the source.  Squares and pieces are
    strings (["e4"], ["wp"], ["ee"]); the position is an array of files,
    each an array of ranks; files and ranks are integers (the JavaScript
    numbers involved are integers far below 2^53), and so are the two
    counters, which go from 0 up to 2^53, where [++] on a JavaScript number
    stops changing it ([increment]).  A read outside
    an array gives [undefined] and a property of [undefined] raises
    [TypeError]: both are modelled, because the move generators index next
    to the edges of the board.  Mutation is explicit state passing: a
    function that assigns returns the new state, and a call that raises
    returns [Throw]; [playPseudoLegalMove_total] shows that on an 8 by 8
    board a move execution raises, if at all, in its guard, before the first
    assignment. *)

From Stdlib Require Import ZArith List String Ascii Bool Lia DecimalString.
Import ListNotations.

Open Scope string_scope.
Open Scope Z_scope.

(** ** Outcomes of a call *)

(** [TypeError] is the JavaScript exception raised by [undefined[i]].
    [OffBoardWrite] is not a JavaScript exception: it marks an assignment
    [position[file][rank] = piece] whose rank is outside the array, where
    JavaScript would grow the array; the embedding has no such positions and
    stops there.  [playPseudoLegalMove_total] shows that neither happens
    after the guard of a move execution on a well-formed board. *)
Inductive exn : Type := TypeError | OffBoardWrite.

Inductive res (A : Type) : Type :=
| Ok (a : A)
| Throw (e : exn).

Arguments Ok {A} a.
Arguments Throw {A} e.

Definition bind {A B : Type} (m : res A) (k : A -> res B) : res B :=
  match m with
  | Ok a => k a
  | Throw e => Throw e
  end.

Notation "x <- e ;; k" := (bind e (fun x => k))
  (at level 61, e at next level, right associativity).

(** [a && b] of the source, when both sides can raise: [b] is evaluated only
    if [a] is true. *)
Definition andM (a b : res bool) : res bool :=
  x <- a ;; if x then b else Ok false.

Notation "a &&& b" := (andM a b) (at level 40, left associativity).

(** A loop that returns [true] at the first element that satisfies [f]. *)
Fixpoint anyM {A : Type} (f : A -> res bool) (l : list A) : res bool :=
  match l with
  | [] => Ok false
  | x :: t => b <- f x ;; if b then Ok true else anyM f t
  end.

(** A loop that pushes the elements that satisfy [f]. *)
Fixpoint filterM {A : Type} (f : A -> res bool) (l : list A) : res (list A) :=
  match l with
  | [] => Ok []
  | x :: t =>
      b <- f x ;;
      r <- filterM f t ;;
      Ok (if b then x :: r else r)
  end.

(** ** JavaScript values and primitives used by the engine *)

Module Js.

(** A value that is a string or [undefined]. *)
Definition value : Type := option string.

Definition undefined : value := None.

(** [s[i]] on a string: the one-character string at [i], or [undefined]. *)
Definition idx (s : string) (i : nat) : value :=
  match String.get i s with
  | Some c => Some (String c EmptyString)
  | None => None
  end.

(** [v[i]] on a value: raises [TypeError] on [undefined]. *)
Definition prop (v : value) (i : nat) : res value :=
  match v with
  | Some s => Ok (idx s i)
  | None => Throw TypeError
  end.

(** Strict equality [===] of two values. *)
Definition eqv (a b : value) : bool :=
  match a, b with
  | Some x, Some y => String.eqb x y
  | None, None => true
  | _, _ => false
  end.

(** String concatenation [a + b] of two values: [undefined] prints as the
    word. *)
Definition text (v : value) : string :=
  match v with
  | Some s => s
  | None => "undefined"
  end.

(** A number that indexes nothing.  [charCodeAt] past the end of a string and
    [parseInt] of a non-digit give [NaN]; the engine uses a file or a rank
    obtained from a square only as an array index before anything else, and
    there [NaN] selects nothing, as [-1] does. *)
Definition NaN : Z := -1.

(** [s.charCodeAt(0)]. *)
Definition charCodeAt0 (s : string) : option Z :=
  match String.get 0 s with
  | Some c => Some (Z.of_N (N_of_ascii c))
  | None => None
  end.

(** [parseInt(v)] for [v] a one-character string or [undefined], the only
    arguments the engine passes: a decimal digit, or [NaN]. *)
Definition parseInt (v : value) : option Z :=
  match v with
  | Some (String c EmptyString) =>
      let n := Z.of_N (N_of_ascii c) in
      if (48 <=? n) && (n <=? 57) then Some (n - 48) else None
  | _ => None
  end.

(** [String.fromCharCode(n)], for the Latin-1 codes a byte string holds. *)
Definition fromCharCode (n : Z) : string :=
  String (ascii_of_N (Z.to_N n)) EmptyString.

(** The decimal text of an integer, as [+] or a template prints a number. *)
Definition numberText (n : Z) : string :=
  NilZero.string_of_int (Z.to_int n).

(** [a.includes(x)] on an array of strings. *)
Definition includes (a : list string) (x : string) : bool :=
  existsb (String.eqb x) a.

(** [a[i]] on an array: [undefined] outside it. *)
Definition nthZ {A : Type} (a : list A) (i : Z) : option A :=
  if i <? 0 then None else nth_error a (Z.to_nat i).

Fixpoint update {A : Type} (a : list A) (n : nat) (x : A) : list A :=
  match a, n with
  | [], _ => []
  | _ :: t, O => x :: t
  | y :: t, S k => y :: update t k x
  end.

(** [a[i] = x] for [i] inside the array. *)
Definition setZ {A : Type} (a : list A) (i : Z) (x : A) : list A :=
  if i <? 0 then a else update a (Z.to_nat i) x.

(** The values of [x] in [for (x = a; x < 8; x++)]. *)
Definition upFrom (a : Z) : list Z :=
  map (fun i => a + Z.of_nat i) (seq 0 (Z.to_nat (8 - a))).

(** The values of [x] in [for (x = a; x >= 0; x--)]. *)
Definition downFrom (a : Z) : list Z :=
  map (fun i => a - Z.of_nat i) (seq 0 (Z.to_nat (a + 1))).

End Js.

Import Js.

Notation "a === b" := (eqv a b) (at level 70, no associativity).
Notation "a !== b" := (negb (eqv a b)) (at level 70, no associativity).

(** ** The state of a [BoardState] object *)

Definition Square : Type := string.

(** [position[file][rank]]: first index the file, second the rank. *)
Definition Position : Type := list (list string).

Record GameState : Type := mkGameState {
  position : Position;
  activeColor : string;
  blackCastleKingsideAvailable : bool;
  blackCastleQueensideAvailable : bool;
  whiteCastleKingsideAvailable : bool;
  whiteCastleQueensideAvailable : bool;
  twoSquarePawnMove : string;
  numberOfHalfMoves : Z;
  numberOfFullMoves : Z;
  blackKingSquare : Square;
  whiteKingSquare : Square
}.

(** The variables of a fresh [new BoardState()]. *)
Definition initialPosition : Position :=
  [ ["wr"; "wp"; "ee"; "ee"; "ee"; "ee"; "bp"; "br"];
    ["wn"; "wp"; "ee"; "ee"; "ee"; "ee"; "bp"; "bn"];
    ["wb"; "wp"; "ee"; "ee"; "ee"; "ee"; "bp"; "bb"];
    ["wq"; "wp"; "ee"; "ee"; "ee"; "ee"; "bp"; "bq"];
    ["wk"; "wp"; "ee"; "ee"; "ee"; "ee"; "bp"; "bk"];
    ["wb"; "wp"; "ee"; "ee"; "ee"; "ee"; "bp"; "bb"];
    ["wn"; "wp"; "ee"; "ee"; "ee"; "ee"; "bp"; "bn"];
    ["wr"; "wp"; "ee"; "ee"; "ee"; "ee"; "bp"; "br"] ].

Definition initialState : GameState := {|
  position := initialPosition;
  activeColor := "w";
  blackCastleKingsideAvailable := true;
  blackCastleQueensideAvailable := true;
  whiteCastleKingsideAvailable := true;
  whiteCastleQueensideAvailable := true;
  twoSquarePawnMove := "-";
  numberOfHalfMoves := 0;
  numberOfFullMoves := 0;
  blackKingSquare := "e8";
  whiteKingSquare := "e1"
|}.

(** A board of eight files of eight ranks, the only shape the engine
    builds. *)
Definition wfPosition (p : Position) : Prop :=
  List.length p = 8%nat /\
  Forall (fun column => List.length column = 8%nat) p.

Definition wf (s : GameState) : Prop := wfPosition (position s).

(** [copy()]: a new 8 by 8 array filled from [position[file][rank]] for
    files and ranks 0 to 7, and the ten other variables passed by value. *)
Definition copy (s : GameState) : GameState :=
  {| position := firstn 8 (map (firstn 8) (position s));
     activeColor := activeColor s;
     blackCastleKingsideAvailable := blackCastleKingsideAvailable s;
     blackCastleQueensideAvailable := blackCastleQueensideAvailable s;
     whiteCastleKingsideAvailable := whiteCastleKingsideAvailable s;
     whiteCastleQueensideAvailable := whiteCastleQueensideAvailable s;
     twoSquarePawnMove := twoSquarePawnMove s;
     numberOfHalfMoves := numberOfHalfMoves s;
     numberOfFullMoves := numberOfFullMoves s;
     blackKingSquare := blackKingSquare s;
     whiteKingSquare := whiteKingSquare s |}.

(** ** Coordinates *)

Definition fileFromSquare (square : Square) : Z :=
  match charCodeAt0 square with
  | Some c => c - 97
  | None => NaN
  end.

Definition rankFromSquare (square : Square) : Z :=
  match parseInt (idx square 1) with
  | Some n => n - 1
  | None => NaN
  end.

Definition squareFromFileRank (file rank : Z) : Square :=
  fromCharCode (97 + file) ++ numberText (rank + 1).

(** [position[file][rank]] as an expression: [TypeError] when
    [position[file]] is [undefined], otherwise the entry or [undefined]. *)
Definition at_ (p : Position) (file rank : Z) : res value :=
  match nthZ p file with
  | Some column => Ok (nthZ column rank)
  | None => Throw TypeError
  end.

(** The read of [_getPieceOnSquare], on a position. *)
Definition pieceAt (p : Position) (square : Square) : res value :=
  at_ p (fileFromSquare square) (rankFromSquare square).

Definition _getPieceOnSquare (s : GameState) (square : Square) : res value :=
  pieceAt (position s) square.

(** [getPieceOnSquare]: [null], here [None], for an empty square. *)
Definition getPieceOnSquare (s : GameState) (square : Square)
  : res (option value) :=
  piece <- _getPieceOnSquare s square ;;
  if piece === Some "ee" then Ok None else Ok (Some piece).

Definition getActivePlayer (s : GameState) : string := activeColor s.

Definition squareHasPieceOfActivePlayer (s : GameState) (square : Square)
  : res bool :=
  piece <- _getPieceOnSquare s square ;;
  c <- prop piece 0 ;;
  Ok (c === Some (activeColor s)).

(** [position[file][rank] = piece]. *)
Definition setEntry (p : Position) (file rank : Z) (piece : string)
  : res Position :=
  match nthZ p file with
  | None => Throw TypeError
  | Some column =>
      match nthZ column rank with
      | None => Throw OffBoardWrite
      | Some _ => Ok (setZ p file (setZ column rank piece))
      end
  end.

Definition setPieceOnSquare (p : Position) (square : Square) (piece : string)
  : res Position :=
  setEntry p (fileFromSquare square) (rankFromSquare square) piece.

(** ** Pseudo-legal move generation *)

(** [if (c) moves.push(square)]. *)
Definition pushIf (c : res bool) (square : Square) (moves : list Square)
  : res (list Square) :=
  b <- c ;; Ok (if b then (moves ++ [square])%list else moves).

(** A loop whose body may push on [moves]. *)
Fixpoint foldM {A : Type} (body : A -> list Square -> res (list Square))
  (l : list A) (moves : list Square) : res (list Square) :=
  match l with
  | [] => Ok moves
  | x :: t => moves' <- body x moves ;; foldM body t moves'
  end.

(** [position[f][r] === "ee"]. *)
Definition isEmptyAt (p : Position) (f r : Z) : res bool :=
  v <- at_ p f r ;; Ok (v === Some "ee").

(** [position[f][r][0] !== piece[0]]. *)
Definition notOwnAt (p : Position) (f r : Z) (piece : value) : res bool :=
  v <- at_ p f r ;;
  c <- prop v 0 ;;
  own <- prop piece 0 ;;
  Ok (c !== own).

(** [position[f][r] !== "ee" && position[f][r][0] !== piece[0]]. *)
Definition hasEnemyAt (p : Position) (f r : Z) (piece : value) : res bool :=
  (v <- at_ p f r ;; Ok (v !== Some "ee")) &&& notOwnAt p f r piece.

Definition getPawnPseudoLegalMoves (s : GameState) (square : Square)
  : res (list Square) :=
  let file := fileFromSquare square in
  let rank := rankFromSquare square in
  let p := position s in
  piece <- at_ p file rank ;;
  if piece === Some "ee" then Ok []
  else
    color <- prop piece 0 ;;
    if color === Some "w" then
      (* two-square move *)
      moves <- pushIf (Ok (rank =? 1) &&& isEmptyAt p file (rank + 1)
                         &&& isEmptyAt p file (rank + 2))
                 (squareFromFileRank file (rank + 2)) [] ;;
      (* normal move *)
      moves <- pushIf (Ok (rank <? 7) &&& isEmptyAt p file (rank + 1))
                 (squareFromFileRank file (rank + 1)) moves ;;
      (* en passant *)
      moves <- (if rank =? 4 then
                  moves <- pushIf
                             (Ok ((file >? 0) &&
                                  (twoSquarePawnMove s
                                     =? squareFromFileRank (file - 1) rank)%string))
                             (squareFromFileRank (file - 1) (rank + 1)) moves ;;
                  pushIf
                    (Ok ((file <? 7) &&
                         (twoSquarePawnMove s
                            =? squareFromFileRank (file + 1) rank)%string))
                    (squareFromFileRank (file + 1) (rank + 1)) moves
                else Ok moves) ;;
      (* attacking moves *)
      moves <- pushIf (Ok (file >? 0) &&& hasEnemyAt p (file - 1) (rank + 1) piece)
                 (squareFromFileRank (file - 1) (rank + 1)) moves ;;
      pushIf (Ok (file <? 7) &&& hasEnemyAt p (file + 1) (rank + 1) piece)
        (squareFromFileRank (file + 1) (rank + 1)) moves
    else
      (* two-square move *)
      moves <- pushIf (Ok (rank =? 6) &&& isEmptyAt p file (rank - 1)
                         &&& isEmptyAt p file (rank - 2))
                 (squareFromFileRank file (rank - 2)) [] ;;
      (* normal move *)
      moves <- pushIf (Ok (rank >? 0) &&& isEmptyAt p file (rank - 1))
                 (squareFromFileRank file (rank - 1)) moves ;;
      (* en passant *)
      moves <- (if rank =? 3 then
                  moves <- pushIf
                             (Ok ((file >? 0) &&
                                  (twoSquarePawnMove s
                                     =? squareFromFileRank (file - 1) rank)%string))
                             (squareFromFileRank (file - 1) (rank - 1)) moves ;;
                  pushIf
                    (Ok ((file <? 7) &&
                         (twoSquarePawnMove s
                            =? squareFromFileRank (file + 1) rank)%string))
                    (squareFromFileRank (file + 1) (rank - 1)) moves
                else Ok moves) ;;
      (* attacking moves *)
      moves <- pushIf (Ok (file >? 0) &&& hasEnemyAt p (file - 1) (rank - 1) piece)
                 (squareFromFileRank (file - 1) (rank - 1)) moves ;;
      pushIf (Ok (file <? 7) &&& hasEnemyAt p (file + 1) (rank - 1) piece)
        (squareFromFileRank (file + 1) (rank - 1)) moves.

(** One ray of a rook or a bishop, over the squares [cells] the loop visits
    in order: stop before a piece of the own colour, push the square, stop
    after a square that is not empty. *)
Fixpoint walk (p : Position) (piece : value) (cells : list (Z * Z))
  : res (list Square) :=
  match cells with
  | [] => Ok []
  | (f, r) :: rest =>
      v <- at_ p f r ;;
      c <- prop v 0 ;;
      own <- prop piece 0 ;;
      if c === own then Ok []
      else if v !== Some "ee" then Ok [squareFromFileRank f r]
      else moves <- walk p piece rest ;; Ok (squareFromFileRank f r :: moves)
  end.

Definition getRookPseudoLegalMoves (s : GameState) (square : Square)
  : res (list Square) :=
  let file := fileFromSquare square in
  let rank := rankFromSquare square in
  let p := position s in
  piece <- at_ p file rank ;;
  if piece === Some "ee" then Ok []
  else
    right <- walk p piece (map (fun f => (f, rank)) (upFrom (file + 1))) ;;
    left <- walk p piece (map (fun f => (f, rank)) (downFrom (file - 1))) ;;
    up <- walk p piece (map (fun r => (file, r)) (upFrom (rank + 1))) ;;
    down <- walk p piece (map (fun r => (file, r)) (downFrom (rank - 1))) ;;
    Ok (right ++ left ++ up ++ down)%list.

Definition getKnightPseudoLegalMoves (s : GameState) (square : Square)
  : res (list Square) :=
  let file := fileFromSquare square in
  let rank := rankFromSquare square in
  let p := position s in
  piece <- at_ p file rank ;;
  if piece === Some "ee" then Ok []
  else
    let jump (c : bool) (f r : Z) (moves : list Square) :=
      pushIf (Ok c &&& notOwnAt p f r piece) (squareFromFileRank f r) moves in
    moves <- jump ((file >? 0) && (rank <? 6)) (file - 1) (rank + 2) [] ;;
    moves <- jump ((file <? 7) && (rank <? 6)) (file + 1) (rank + 2) moves ;;
    moves <- jump ((file >? 0) && (rank >? 1)) (file - 1) (rank - 2) moves ;;
    moves <- jump ((file <? 7) && (rank >? 1)) (file + 1) (rank - 2) moves ;;
    moves <- jump ((file >? 1) && (rank <? 7)) (file - 2) (rank + 1) moves ;;
    moves <- jump ((file <? 6) && (rank <? 7)) (file + 2) (rank + 1) moves ;;
    moves <- jump ((file >? 1) && (rank >? 0)) (file - 2) (rank - 1) moves ;;
    jump ((file <? 6) && (rank >? 0)) (file + 2) (rank - 1) moves.

Definition getBishopPseudoLegalMoves (s : GameState) (square : Square)
  : res (list Square) :=
  let file := fileFromSquare square in
  let rank := rankFromSquare square in
  let p := position s in
  piece <- at_ p file rank ;;
  if piece === Some "ee" then Ok []
  else
    upRight <- walk p piece (combine (upFrom (file + 1)) (upFrom (rank + 1))) ;;
    downRight <- walk p piece (combine (upFrom (file + 1)) (downFrom (rank - 1))) ;;
    downLeft <- walk p piece (combine (downFrom (file - 1)) (downFrom (rank - 1))) ;;
    upLeft <- walk p piece (combine (downFrom (file - 1)) (upFrom (rank + 1))) ;;
    Ok (upRight ++ downRight ++ downLeft ++ upLeft)%list.

Definition getQueenPseudoLegalMoves (s : GameState) (square : Square)
  : res (list Square) :=
  rook <- getRookPseudoLegalMoves s square ;;
  bishop <- getBishopPseudoLegalMoves s square ;;
  Ok (rook ++ bishop)%list.

(** The pairs [(i, j)] of the two nested loops [for (i = -1; i < 2; i++)],
    [for (j = -1; j < 2; j++)]. *)
Definition kingOffsets : list (Z * Z) :=
  [(-1, -1); (-1, 0); (-1, 1); (0, -1); (0, 0); (0, 1); (1, -1); (1, 0); (1, 1)].

Definition getKingPseudoLegalMoves (s : GameState) (square : Square)
  : res (list Square) :=
  let file := fileFromSquare square in
  let rank := rankFromSquare square in
  let p := position s in
  piece <- at_ p file rank ;;
  if piece === Some "ee" then Ok []
  else
    (* normal moves *)
    moves <- foldM
               (fun '(i, j) moves =>
                  if (i =? 0) && (j =? 0) then Ok moves
                  else
                    let f := file - i in
                    let r := rank - j in
                    pushIf (Ok ((0 <=? f) && (f <? 8) && (0 <=? r) && (r <? 8))
                              &&& notOwnAt p f r piece)
                      (squareFromFileRank f r) moves)
               kingOffsets [] ;;
    (* castles *)
    let isColor (c : string) := color <- prop piece 0 ;; Ok (color === Some c) in
    moves <- pushIf (isColor "w" &&& Ok (whiteCastleQueensideAvailable s)
                       &&& isEmptyAt p 1 0 &&& isEmptyAt p 2 0
                       &&& isEmptyAt p 3 0)
               (squareFromFileRank 2 0) moves ;;
    moves <- pushIf (isColor "w" &&& Ok (whiteCastleKingsideAvailable s)
                       &&& isEmptyAt p 5 0 &&& isEmptyAt p 6 0)
               (squareFromFileRank 6 0) moves ;;
    moves <- pushIf (isColor "b" &&& Ok (blackCastleQueensideAvailable s)
                       &&& isEmptyAt p 1 7 &&& isEmptyAt p 2 7
                       &&& isEmptyAt p 3 7)
               (squareFromFileRank 2 7) moves ;;
    pushIf (isColor "b" &&& Ok (blackCastleKingsideAvailable s)
              &&& isEmptyAt p 5 7 &&& isEmptyAt p 6 7)
      (squareFromFileRank 6 7) moves.

Definition getPseudoLegalMoves (s : GameState) (square : Square)
  : res (list Square) :=
  piece <- _getPieceOnSquare s square ;;
  if piece === Some "ee" then Ok []
  else
    kind <- prop piece 1 ;;
    if kind === Some "p" then getPawnPseudoLegalMoves s square
    else if kind === Some "r" then getRookPseudoLegalMoves s square
    else if kind === Some "n" then getKnightPseudoLegalMoves s square
    else if kind === Some "b" then getBishopPseudoLegalMoves s square
    else if kind === Some "q" then getQueenPseudoLegalMoves s square
    else if kind === Some "k" then getKingPseudoLegalMoves s square
    else Ok [].

Definition moveIsPseudoLegal (s : GameState) (fromSquare toSquare : Square)
  : res bool :=
  moves <- getPseudoLegalMoves s fromSquare ;;
  Ok (includes moves toSquare).

(** ** Move execution *)

(** The string a value holds where the source takes a property of it. *)
Definition defined (v : value) : res string :=
  match v with
  | Some x => Ok x
  | None => Throw TypeError
  end.

(** The rook relocation of a castle: [setPieceOnSquare(to + r,
    _getPieceOnSquare(from + r)); setPieceOnSquare(from + r, "ee")], with
    [from] and [to] file letters and [r] the rank character of the king's
    destination. *)
Definition relocateRook (p : Position) (from to : string) (r : value)
  : res Position :=
  rook <- pieceAt p (from ++ text r) ;;
  match rook with
  | None => Throw OffBoardWrite
  | Some piece =>
      p' <- setPieceOnSquare p (to ++ text r) piece ;;
      setPieceOnSquare p' (from ++ text r) "ee"
  end.

(** [n++] on a counter.  A JavaScript number is a double: up to 2^53 the
    integers are exact and [n + 1] is the next one; 2^53 + 1 is not a double
    and rounds back to 2^53, so from there on the counter keeps its value. *)
Definition increment (n : Z) : Z :=
  if n <? 2 ^ 53 then n + 1 else n.

Definition playPseudoLegalMove (s : GameState) (fromSquare toSquare : Square)
  : res GameState :=
  ok <- moveIsPseudoLegal s fromSquare toSquare ;;
  if negb ok then Ok s
  else
    fromPiece <- _getPieceOnSquare s fromSquare ;;
    toPiece <- _getPieceOnSquare s toSquare ;;
    (* swap active player color *)
    let activeColor' := if (activeColor s =? "w")%string then "b" else "w" in
    (* update castling availability *)
    let touches (a : Square) :=
      (fromSquare =? a)%string || (toSquare =? a)%string in
    let whiteQueenside :=
      if touches "a1" || touches "e1" then false
      else whiteCastleQueensideAvailable s in
    let whiteKingside :=
      if touches "h1" || touches "e1" then false
      else whiteCastleKingsideAvailable s in
    let blackQueenside :=
      if touches "a8" || touches "e8" then false
      else blackCastleQueensideAvailable s in
    let blackKingside :=
      if touches "h8" || touches "e8" then false
      else blackCastleKingsideAvailable s in
    (* save two square pawn move *)
    piece <- defined fromPiece ;;
    let kind := idx piece 1 in
    let twoSquarePawnMove' :=
      if (kind === Some "p") &&
         (Z.abs (rankFromSquare fromSquare - rankFromSquare toSquare) >? 1)
      then toSquare else "-" in
    (* update full moves counter *)
    let numberOfFullMoves' := increment (numberOfFullMoves s) in
    (* update half moves counter *)
    capture <- (Ok (toPiece !== Some "ee")
                  &&& (c <- prop toPiece 0 ;; Ok (idx piece 0 !== c))) ;;
    let numberOfHalfMoves' :=
      if capture || (kind === Some "p") then 0
      else increment (numberOfHalfMoves s) in
    (* update king square *)
    let whiteKingSquare' :=
      if (piece =? "wk")%string then toSquare else whiteKingSquare s in
    let blackKingSquare' :=
      if (piece =? "bk")%string then toSquare else blackKingSquare s in
    (* move pieces *)
    p <- setPieceOnSquare (position s) toSquare piece ;;
    p <- setPieceOnSquare p fromSquare "ee" ;;
    (* delete pawn captured by en passant *)
    p <- (if (kind === Some "p") && (idx fromSquare 0 !== idx toSquare 0)
          then setPieceOnSquare p
                 (text (idx toSquare 0) ++ text (idx fromSquare 1)) "ee"
          else Ok p) ;;
    (* move rook when castling *)
    p <- (if (kind === Some "k") && (idx toSquare 0 === Some "c")
          then relocateRook p "a" "d" (idx toSquare 1)
          else Ok p) ;;
    p <- (if (kind === Some "k") && (idx toSquare 0 === Some "g")
          then relocateRook p "h" "f" (idx toSquare 1)
          else Ok p) ;;
    Ok {| position := p;
          activeColor := activeColor';
          blackCastleKingsideAvailable := blackKingside;
          blackCastleQueensideAvailable := blackQueenside;
          whiteCastleKingsideAvailable := whiteKingside;
          whiteCastleQueensideAvailable := whiteQueenside;
          twoSquarePawnMove := twoSquarePawnMove';
          numberOfHalfMoves := numberOfHalfMoves';
          numberOfFullMoves := numberOfFullMoves';
          blackKingSquare := blackKingSquare';
          whiteKingSquare := whiteKingSquare' |}.

(** ** Check detection and legal moves *)

(** The squares of the two nested loops over files and ranks 0 to 7. *)
Definition boardCells : list (Z * Z) := list_prod (upFrom 0) (upFrom 0).

Definition kingIsInCheck (s : GameState) (color : string) : res bool :=
  let kingSquare :=
    if (color =? "w")%string then whiteKingSquare s else blackKingSquare s in
  anyM (fun '(file, rank) =>
          piece <- at_ (position s) file rank ;;
          c <- prop piece 0 ;;
          if (c === Some color) || (piece === Some "ee") then Ok false
          else
            attacked <- getPseudoLegalMoves s (squareFromFileRank file rank) ;;
            Ok (includes attacked kingSquare))
       boardCells.

Definition kingWouldBeInCheck (s : GameState) (color : string)
  (fromSquare toSquare : Square) : res bool :=
  boardStateCopy <- playPseudoLegalMove (copy s) fromSquare toSquare ;;
  kingIsInCheck boardStateCopy color.

Definition getLegalMoves (s : GameState) (square : Square)
  : res (list Square) :=
  moves <- getPseudoLegalMoves s square ;;
  filterM (fun toSquare =>
             check <- kingWouldBeInCheck s (activeColor s) square toSquare ;;
             Ok (negb check))
          moves.

Definition moveIsLegal (s : GameState) (fromSquare toSquare : Square)
  : res bool :=
  moves <- getLegalMoves s fromSquare ;;
  Ok (includes moves toSquare).

Definition playerHasLegalMoves (s : GameState) (color : string) : res bool :=
  anyM (fun '(file, rank) =>
          piece <- at_ (position s) file rank ;;
          c <- prop piece 0 ;;
          if c !== Some color then Ok false
          else
            moves <- getLegalMoves s (squareFromFileRank file rank) ;;
            Ok (0 <? Z.of_nat (List.length moves)))
       boardCells.

Definition isCheckmate (s : GameState) : res bool :=
  has <- playerHasLegalMoves s (activeColor s) ;;
  if negb has then kingIsInCheck s (activeColor s) else Ok false.

Definition isStalemate (s : GameState) : res bool :=
  has <- playerHasLegalMoves s (activeColor s) ;;
  if negb has
  then check <- kingIsInCheck s (activeColor s) ;; Ok (negb check)
  else Ok false.

Definition playLegalMove (s : GameState) (fromSquare toSquare : Square)
  : res GameState :=
  ok <- moveIsLegal s fromSquare toSquare ;;
  if negb ok then Ok s
  else playPseudoLegalMove s fromSquare toSquare.

(** ** Serialization *)

(** The letter the [switch] of [getFENPieces] appends for a piece. *)
Definition fenLetter (piece : string) : string :=
  if (piece =? "wp")%string then "P"
  else if (piece =? "wr")%string then "R"
  else if (piece =? "wn")%string then "N"
  else if (piece =? "wb")%string then "B"
  else if (piece =? "wq")%string then "Q"
  else if (piece =? "wk")%string then "K"
  else if (piece =? "bp")%string then "p"
  else if (piece =? "br")%string then "r"
  else if (piece =? "bn")%string then "n"
  else if (piece =? "bb")%string then "b"
  else if (piece =? "bq")%string then "q"
  else if (piece =? "bk")%string then "k"
  else "".

(** The body of the loop over files: [acc] is [(result,
    emptySquareCounter)]. *)
Definition fenSquare (p : Position) (rank file : Z) (acc : string * Z)
  : res (string * Z) :=
  let '(result, emptySquareCounter) := acc in
  piece <- at_ p file rank ;;
  let '(result, emptySquareCounter) :=
    if (piece !== Some "ee") && (emptySquareCounter >? 0)
    then ((result ++ numberText emptySquareCounter)%string, 0)
    else (result, emptySquareCounter) in
  match piece with
  | Some x =>
      if (x =? "ee")%string then Ok (result, emptySquareCounter + 1)
      else Ok ((result ++ fenLetter x)%string, emptySquareCounter)
  | None => Ok (result, emptySquareCounter)
  end.

Fixpoint fenFiles (p : Position) (rank : Z) (files : list Z) (acc : string * Z)
  : res (string * Z) :=
  match files with
  | [] => Ok acc
  | file :: rest => acc' <- fenSquare p rank file acc ;; fenFiles p rank rest acc'
  end.

(** The body of the loop over ranks. *)
Definition fenRank (p : Position) (rank : Z) (result : string) : res string :=
  acc <- fenFiles p rank (upFrom 0) (result, 0) ;;
  let '(result, emptySquareCounter) := acc in
  let result :=
    if emptySquareCounter >? 0
    then (result ++ numberText emptySquareCounter)%string else result in
  Ok (if rank >? 0 then (result ++ "/")%string else result).

Fixpoint fenRanks (p : Position) (ranks : list Z) (result : string)
  : res string :=
  match ranks with
  | [] => Ok result
  | rank :: rest => result' <- fenRank p rank result ;; fenRanks p rest result'
  end.

Definition getFENPieces (s : GameState) : res string :=
  fenRanks (position s) (downFrom 7) "".

Definition getFENCastling (s : GameState) : string :=
  let result := "" in
  let result := if whiteCastleKingsideAvailable s then (result ++ "K")%string else result in
  let result := if whiteCastleQueensideAvailable s then (result ++ "Q")%string else result in
  let result := if blackCastleKingsideAvailable s then (result ++ "k")%string else result in
  let result := if blackCastleQueensideAvailable s then (result ++ "q")%string else result in
  if (result =? "")%string then "-" else result.

Definition getFEN (s : GameState) : res string :=
  pieces <- getFENPieces s ;;
  Ok (pieces ++ " " ++ activeColor s ++ " " ++ getFENCastling s ++ " "
        ++ twoSquarePawnMove s ++ " " ++ numberText (numberOfHalfMoves s)
        ++ " " ++ numberText (numberOfFullMoves s))%string.

(** ** Sequences of calls *)

(** The two public move-execution operations. *)
Inductive call : Type :=
| Legal (fromSquare toSquare : Square)
| Pseudo (fromSquare toSquare : Square).

Definition exec (s : GameState) (c : call) : res GameState :=
  match c with
  | Legal fromSquare toSquare => playLegalMove s fromSquare toSquare
  | Pseudo fromSquare toSquare => playPseudoLegalMove s fromSquare toSquare
  end.

(** The state after a sequence of calls that all return. *)
Fixpoint run (cs : list call) (s : GameState) : res GameState :=
  match cs with
  | [] => Ok s
  | c :: rest => s' <- exec s c ;; run rest s'
  end.

(** The sixty-four squares of the board. *)
Definition onBoard (square : Square) : Prop :=
  exists file rank,
    0 <= file < 8 /\ 0 <= rank < 8 /\ square = squareFromFileRank file rank.

Definition allSquares : list Square :=
  map (fun '(file, rank) => squareFromFileRank file rank) boardCells.

Definition source (c : call) : Square :=
  match c with
  | Legal fromSquare _ | Pseudo fromSquare _ => fromSquare
  end.

Definition destination (c : call) : Square :=
  match c with
  | Legal _ toSquare | Pseudo _ toSquare => toSquare
  end.

(** Calls whose two arguments are squares of the board, as the source asks
    of its callers. *)
Definition validCalls (cs : list call) : bool :=
  forallb (fun c => includes allSquares (source c)
                    && includes allSquares (destination c)) cs.

(** The states that sequences of valid calls reach from a fresh
    [BoardState]. *)
Definition reachable (s : GameState) : Prop :=
  exists cs, validCalls cs = true /\ run cs initialState = Ok s.

(** Membership in the two move sets of a square. *)
Definition pseudoLegalMove (s : GameState) (fromSquare toSquare : Square)
  : Prop :=
  exists moves, getPseudoLegalMoves s fromSquare = Ok moves /\ In toSquare moves.

Definition legalMove (s : GameState) (fromSquare toSquare : Square) : Prop :=
  exists moves, getLegalMoves s fromSquare = Ok moves /\ In toSquare moves.

(** A call that the engine turns down: the destination is not in the set
    the operation consults. *)
Definition rejected (s : GameState) (c : call) : Prop :=
  match c with
  | Legal fromSquare toSquare =>
      exists moves,
        getLegalMoves s fromSquare = Ok moves /\ ~ In toSquare moves
  | Pseudo fromSquare toSquare =>
      exists moves,
        getPseudoLegalMoves s fromSquare = Ok moves /\ ~ In toSquare moves
  end.

(** The state [run] reaches, for the concrete games below. *)
Definition stateAfter (cs : list call) : GameState :=
  match run cs initialState with
  | Ok s => s
  | Throw _ => initialState
  end.

(** Fool's mate: 1. f3 e5 2. g4 Qh4. *)
Definition foolsMateMoves : list call :=
  [Legal "f2" "f3"; Legal "e7" "e5"; Legal "g2" "g4"; Legal "d8" "h4"].

Definition foolsMate : GameState :=
  Eval vm_compute in stateAfter foolsMateMoves.

(** Black moves first: e7-e6 in the initial position, where White is the
    active colour. *)
Definition blackMovesFirst : GameState :=
  Eval vm_compute in stateAfter [Legal "e7" "e6"].

(** 1. e4 d5 2. d4 a6: White's pawn on e4 can take on d5, next to White's
    pawn on d4. *)
Definition beforeCaptureMoves : list call :=
  [Legal "e2" "e4"; Legal "d7" "d5"; Legal "d2" "d4"; Legal "a7" "a6"].

Definition beforeCapture : GameState :=
  Eval vm_compute in stateAfter beforeCaptureMoves.

Definition afterCapture : GameState :=
  Eval vm_compute in stateAfter (beforeCaptureMoves ++ [Legal "e4" "d5"]).

(** 1. a4 b5 2. axb5 h6 3. b6 h5 4. bxa7 h4 5. axb8: a white pawn stands on
    b8, since there is no promotion. *)
Definition pawnOnLastRankMoves : list call :=
  [Legal "a2" "a4"; Legal "b7" "b5"; Legal "a4" "b5"; Legal "h7" "h6";
   Legal "b5" "b6"; Legal "h6" "h5"; Legal "b6" "a7"; Legal "h5" "h4";
   Legal "a7" "b8"].

Definition pawnOnLastRank : GameState :=
  Eval vm_compute in stateAfter pawnOnLastRankMoves.

(** The array cell a square names. *)
Definition cell (square : Square) : Z * Z :=
  (fileFromSquare square, rankFromSquare square).

Definition sameCell (a b : Square) : bool :=
  (fileFromSquare a =? fileFromSquare b) && (rankFromSquare a =? rankFromSquare b).

(** 1. d4 a6 2. Be3 a5 3. Qd2 a4 4. Kd1 a3: the white king stands on d1 and
    can step to c1; White has no castling right left. *)
Definition beforeKingStepMoves : list call :=
  [Legal "d2" "d4"; Legal "a7" "a6"; Legal "c1" "e3"; Legal "a6" "a5";
   Legal "d1" "d2"; Legal "a5" "a4"; Legal "e1" "d1"; Legal "a4" "a3"].

Definition beforeKingStep : GameState :=
  Eval vm_compute in stateAfter beforeKingStepMoves.

Definition afterKingStep : GameState :=
  Eval vm_compute in stateAfter (beforeKingStepMoves ++ [Legal "d1" "c1"]).

(** ** The cached king squares *)

(** The cached square of each colour holds the king of that colour. *)
Definition kingsCached (s : GameState) : Prop :=
  pieceAt (position s) (whiteKingSquare s) = Ok (Some "wk")
  /\ pieceAt (position s) (blackKingSquare s) = Ok (Some "bk").

(** The squares that the execution of a move assigns, apart from the
    clearing of its source: the destination, the square cleared with a pawn
    that changes file, and the two squares of each rook relocation.  One of
    these can be the source itself: the king that steps from d1 to c1, or
    from f1 to g1, starts on the square the rook relocation writes. *)
Definition overwritten (s : GameState) (fromSquare toSquare : Square)
  : list Square :=
  let kind :=
    match _getPieceOnSquare s fromSquare with
    | Ok (Some piece) => idx piece 1
    | _ => None
    end in
  ([toSquare]
   ++ (if (kind === Some "p") && (idx fromSquare 0 !== idx toSquare 0)
       then [text (idx toSquare 0) ++ text (idx fromSquare 1)]%string
       else [])
   ++ (if (kind === Some "k") && (idx toSquare 0 === Some "c")
       then ["d" ++ text (idx toSquare 1); "a" ++ text (idx toSquare 1)]%string
       else [])
   ++ (if (kind === Some "k") && (idx toSquare 0 === Some "g")
       then ["f" ++ text (idx toSquare 1); "h" ++ text (idx toSquare 1)]%string
       else []))%list.

Definition holdsKing (p : Position) (square : Square) : bool :=
  match pieceAt p square with
  | Ok (Some x) => (x =? "wk")%string || (x =? "bk")%string
  | _ => false
  end.

(** No square the move assigns, besides its source, holds a king: the move
    takes no king and does not clear or cover one on the side.  A square
    that names the cell of the source is left out, whatever stands there. *)
Definition sparesKings (s : GameState) (fromSquare toSquare : Square) : bool :=
  forallb (fun square =>
             sameCell square fromSquare || negb (holdsKing (position s) square))
          (overwritten s fromSquare toSquare).

(** The states reached from the initial one by calls that spare the kings:
    each call is turned down, and changes nothing, or executes a move that
    spares the kings. *)
Inductive reachableSparingKings : GameState -> Prop :=
| sparing_initial : reachableSparingKings initialState
| sparing_call (s : GameState) (c : call) (s' : GameState) :
    reachableSparingKings s ->
    exec s c = Ok s' ->
    s' = s \/ sparesKings s (source c) (destination c) = true ->
    reachableSparingKings s'.

(** Every call of the run spares the kings, and none raises. *)
Fixpoint sparingRun (cs : list call) (s : GameState) : bool :=
  match cs with
  | [] => true
  | c :: rest =>
      sparesKings s (source c) (destination c)
      && match exec s c with
         | Ok s' => sparingRun rest s'
         | Throw _ => false
         end
  end.

(** 1. e4 d6 2. e5 Kd7 3. a3 Ke6 4. a4 Kd5 5. exd6: legal executions only,
    each by the active colour.  The pawn takes on d6, and the execution
    clears d5 beside it, where the black king stands. *)
Definition blackKingErasedMoves : list call :=
  [Legal "e2" "e4"; Legal "d7" "d6"; Legal "e4" "e5"; Legal "e8" "d7";
   Legal "a2" "a3"; Legal "d7" "e6"; Legal "a3" "a4"; Legal "e6" "d5";
   Legal "e5" "d6"].

Definition blackKingErased : GameState :=
  Eval vm_compute in stateAfter blackKingErasedMoves.

(** Every call of the run names a legal move of a piece of the active
    colour. *)
Fixpoint inTurn (cs : list call) (s : GameState) : bool :=
  match cs with
  | [] => true
  | c :: rest =>
      match squareHasPieceOfActivePlayer s (source c),
            moveIsLegal s (source c) (destination c),
            exec s c with
      | Ok true, Ok true, Ok s' => inTurn rest s'
      | _, _, _ => false
      end
  end.

(** Fool's mate, and then the black queen takes the white king on e1: legal
    executions only, the last one out of turn. *)
Definition whiteKingTakenMoves : list call :=
  (foolsMateMoves ++ [Legal "h4" "e1"])%list.

Definition whiteKingTaken : GameState :=
  Eval vm_compute in stateAfter whiteKingTakenMoves.

(** 1. e4 f5 2. Qh5+ a6 3. Qxe8: every move by the active colour, Black's
    second one executed as a pseudo-legal move since it leaves the check. *)
Definition blackKingTakenMoves : list call :=
  [Legal "e2" "e4"; Legal "f7" "f5"; Legal "d1" "h5"; Pseudo "a7" "a6";
   Legal "h5" "e8"].

Definition blackKingTaken : GameState :=
  Eval vm_compute in stateAfter blackKingTakenMoves.

(** 1. e4 e5 2. Ke2, and the states on the way. *)
Definition kingStepMoves : list call :=
  [Legal "e2" "e4"; Legal "e7" "e5"; Legal "e1" "e2"].

Definition afterE4 : GameState :=
  Eval vm_compute in stateAfter [Legal "e2" "e4"].

Definition afterE4E5 : GameState :=
  Eval vm_compute in stateAfter [Legal "e2" "e4"; Legal "e7" "e5"].

Definition afterKe2 : GameState :=
  Eval vm_compute in stateAfter kingStepMoves.

(** 2... Ke7 3. Ke1. *)
Definition kingBackMoves : list call :=
  [Legal "e8" "e7"; Legal "e2" "e1"].

Definition afterKe1 : GameState :=
  Eval vm_compute in stateAfter (kingStepMoves ++ kingBackMoves).

(** ** The en-passant scenario *)

(** The legal moves of a game carried out in order: [None] when the engine
    turns one down (or raises). *)
Fixpoint playAll (moves : list (Square * Square)) (s : GameState)
  : option GameState :=
  match moves with
  | [] => Some s
  | (fromSquare, toSquare) :: rest =>
      match moveIsLegal s fromSquare toSquare with
      | Ok true =>
          match playLegalMove s fromSquare toSquare with
          | Ok s' => playAll rest s'
          | Throw _ => None
          end
      | _ => None
      end
  end.

(** The square holds a black piece. *)
Definition blackAt (s : GameState) (square : Square) : bool :=
  match pieceAt (position s) square with
  | Ok (Some piece) => idx piece 0 === Some "b"
  | _ => false
  end.

(** [k] holds of every legal move of the state that starts on a square of
    the board. *)
Definition forMoves (s : GameState) (k : Square -> Square -> bool) : bool :=
  forallb (fun fromSquare =>
             match getLegalMoves s fromSquare with
             | Ok moves => forallb (k fromSquare) moves
             | Throw _ => true
             end)
          allSquares.

(** After every pseudo-legal move of a piece of the active colour, other
    than e5xd6, the en-passant target is not d5 and d6 is not in the legal
    set of e5.  The legal moves are among these, so the moves that either
    operation executes for the active colour are covered. *)
Definition windowClosed (s : GameState) : bool :=
  forallb (fun fromSquare =>
             match squareHasPieceOfActivePlayer s fromSquare with
             | Ok true =>
                 match getPseudoLegalMoves s fromSquare with
                 | Ok moves =>
                     forallb (fun toSquare =>
                       if (fromSquare =? "e5")%string && (toSquare =? "d6")%string
                       then true
                       else
                         match playPseudoLegalMove s fromSquare toSquare with
                         | Ok s' =>
                             negb (twoSquarePawnMove s' =? "d5")%string
                             && match getLegalMoves s' "e5" with
                                | Ok moves' => negb (includes moves' "d6")
                                | Throw _ => false
                                end
                         | Throw _ => false
                         end)
                       moves
                 | Throw _ => false
                 end
             | _ => true
             end)
          allSquares.

(** After 1. e4, a reply and then 2. e5 d5, if all are accepted: e5xd6 is
    legal, the en-passant target is d5, where a black pawn stands, d6 is
    empty, White is the active colour, and the window closes as above. *)
Definition windowAfterReply (fromSquare toSquare : Square) : bool :=
  match
    match playPseudoLegalMove afterE4 fromSquare toSquare with
    | Ok s => playAll [("e4", "e5"); ("d7", "d5")] s
    | Throw _ => None
    end
  with
  | Some s =>
      match moveIsLegal s "e5" "d6" with
      | Ok true =>
          (twoSquarePawnMove s =? "d5")%string
          && (activeColor s =? "w")%string
          && match pieceAt (position s) "d5", pieceAt (position s) "d6" with
             | Ok (Some pawn), Ok (Some target) =>
                 (pawn =? "bp")%string && (target =? "ee")%string
             | _, _ => false
             end
          && windowClosed s
      | _ => false
      end
  | None => true
  end.

(** The legal moves of the black pieces after 1. e4. *)
Definition blackReplies : list (Square * Square) :=
  flat_map (fun fromSquare =>
              if blackAt afterE4 fromSquare
              then match getLegalMoves afterE4 fromSquare with
                   | Ok moves => map (fun toSquare => (fromSquare, toSquare)) moves
                   | Throw _ => []
                   end
              else [])
           allSquares.

(** The reply lets the engine accept 2. e5 and then 2... d5. *)
Definition letsPawnsAdvance (reply : Square * Square) : bool :=
  match playAll [reply; ("e4", "e5"); ("d7", "d5")] afterE4 with
  | Some _ => true
  | None => false
  end.

(** 1. e4 a6 2. e5 d5, and then the white knight goes to f3, or the black
    queen to d6. *)
Definition enPassantReady : GameState :=
  Eval vm_compute in
    stateAfter [Legal "e2" "e4"; Legal "a7" "a6"; Legal "e4" "e5";
                Legal "d7" "d5"].

Definition queenOnD6 : GameState :=
  Eval vm_compute in
    stateAfter [Legal "e2" "e4"; Legal "a7" "a6"; Legal "e4" "e5";
                Legal "d7" "d5"; Legal "d8" "d6"].

Definition knightOnF3 : GameState :=
  Eval vm_compute in
    stateAfter [Legal "e2" "e4"; Legal "a7" "a6"; Legal "e4" "e5";
                Legal "d7" "d5"; Legal "g1" "f3"].

(** What a call of [playPseudoLegalMove] that returns has done: nothing, or
    the nine updates of an executed move. *)
Inductive executed (s : GameState) (fromSquare toSquare : Square)
  (s' : GameState) : Prop :=
| Executed (piece : string) (toPiece : value) (capture : bool)
    (p1 p2 p3 p4 : Position)
    (Hguard : moveIsPseudoLegal s fromSquare toSquare = Ok true)
    (Hfrom : _getPieceOnSquare s fromSquare = Ok (Some piece))
    (Hto : _getPieceOnSquare s toSquare = Ok toPiece)
    (Hcapture : Ok (toPiece !== Some "ee")
                  &&& (c <- prop toPiece 0 ;; Ok (idx piece 0 !== c))
                = Ok capture)
    (Hp1 : p <- setPieceOnSquare (position s) toSquare piece ;;
           setPieceOnSquare p fromSquare "ee" = Ok p1)
    (Hp2 : (if (idx piece 1 === Some "p")
               && (idx fromSquare 0 !== idx toSquare 0)
            then setPieceOnSquare p1
                   (text (idx toSquare 0) ++ text (idx fromSquare 1))%string "ee"
            else Ok p1) = Ok p2)
    (Hp3 : (if (idx piece 1 === Some "k") && (idx toSquare 0 === Some "c")
            then relocateRook p2 "a" "d" (idx toSquare 1)
            else Ok p2) = Ok p3)
    (Hp4 : (if (idx piece 1 === Some "k") && (idx toSquare 0 === Some "g")
            then relocateRook p3 "h" "f" (idx toSquare 1)
            else Ok p3) = Ok p4)
    (Hposition : position s' = p4)
    (Hcolor : activeColor s' = if (activeColor s =? "w")%string then "b" else "w")
    (Hwq : whiteCastleQueensideAvailable s' =
           if (fromSquare =? "a1")%string || (toSquare =? "a1")%string
              || ((fromSquare =? "e1")%string || (toSquare =? "e1")%string)
           then false else whiteCastleQueensideAvailable s)
    (Hwk : whiteCastleKingsideAvailable s' =
           if (fromSquare =? "h1")%string || (toSquare =? "h1")%string
              || ((fromSquare =? "e1")%string || (toSquare =? "e1")%string)
           then false else whiteCastleKingsideAvailable s)
    (Hbq : blackCastleQueensideAvailable s' =
           if (fromSquare =? "a8")%string || (toSquare =? "a8")%string
              || ((fromSquare =? "e8")%string || (toSquare =? "e8")%string)
           then false else blackCastleQueensideAvailable s)
    (Hbk : blackCastleKingsideAvailable s' =
           if (fromSquare =? "h8")%string || (toSquare =? "h8")%string
              || ((fromSquare =? "e8")%string || (toSquare =? "e8")%string)
           then false else blackCastleKingsideAvailable s)
    (Htwo : twoSquarePawnMove s' =
            if (idx piece 1 === Some "p")
               && (Z.abs (rankFromSquare fromSquare - rankFromSquare toSquare) >? 1)
            then toSquare else "-")
    (Hfull : numberOfFullMoves s' = increment (numberOfFullMoves s))
    (Hhalf : numberOfHalfMoves s' =
             if capture || (idx piece 1 === Some "p") then 0
             else increment (numberOfHalfMoves s))
    (Hwks : whiteKingSquare s' =
            if (piece =? "wk")%string then toSquare else whiteKingSquare s)
    (Hbks : blackKingSquare s' =
            if (piece =? "bk")%string then toSquare else blackKingSquare s).


(** * Further definitions

    The vocabulary of the properties that follow the claims: the cells a
    generator reaches, what the fields of a state record, the two click
    handlers, the square names of the widget and the trainer, and a reader
    for the piece field of the serialization.

    The click handlers of [src/app/app.js] and
    [src/app/standard/standard.js] are embedded with the two variables they
    assign, the engine and the selected square.  Their calls into
    [BoardWidget] draw hints and highlights and read nothing back that the
    handlers branch on; they are left out.  An exception that leaves a
    handler is kept as an outcome, next to the state with the assignments
    made before it. *)

(** ** The shape of the generated moves *)

(** The square of a cell of the array. *)
Definition squareOf (c : Z * Z) : Square :=
  squareFromFileRank (fst c) (snd c).

(** The cell [k + 1] steps away from [(file, rank)] in the direction
    [(df, dr)]. *)
Definition rayCell (file rank df dr : Z) (k : nat) : Z * Z :=
  (file + df * (Z.of_nat k + 1), rank + dr * (Z.of_nat k + 1)).

(** The cell holds the empty marker. *)
Definition emptyCell (p : Position) (c : Z * Z) : Prop :=
  at_ p (fst c) (snd c) = Ok (Some "ee").

(** The cell is inside the array and what it holds, a piece or the empty
    marker, does not start with the colour character of [piece]. *)
Definition notOwnCell (p : Position) (piece : string) (c : Z * Z) : Prop :=
  exists v, at_ p (fst c) (snd c) = Ok (Some v) /\ idx v 0 <> idx piece 0.

(** The cell holds a piece, and it does not start with the colour character
    of [piece]. *)
Definition enemyCell (p : Position) (piece : string) (c : Z * Z) : Prop :=
  exists v,
    at_ p (fst c) (snd c) = Ok (Some v) /\ v <> "ee" /\ idx v 0 <> idx piece 0.

Definition rookDirections : list (Z * Z) :=
  [(1, 0); (-1, 0); (0, 1); (0, -1)].

Definition bishopDirections : list (Z * Z) :=
  [(1, 1); (1, -1); (-1, -1); (-1, 1)].

(** The eight jumps of a knight, as changes of file and rank. *)
Definition knightJumps : list (Z * Z) :=
  [(-1, 2); (1, 2); (-1, -2); (1, -2); (-2, 1); (2, 1); (-2, -1); (2, -1)].

(** The four castles: the colour character of the king, the right, the
    cells that must be empty and the cell the king goes to. *)
Definition castles : list (string * (GameState -> bool) * list (Z * Z) * (Z * Z)) :=
  [ ("w", whiteCastleQueensideAvailable, [(1, 0); (2, 0); (3, 0)], (2, 0));
    ("w", whiteCastleKingsideAvailable, [(5, 0); (6, 0)], (6, 0));
    ("b", blackCastleQueensideAvailable, [(1, 7); (2, 7); (3, 7)], (2, 7));
    ("b", blackCastleKingsideAvailable, [(5, 7); (6, 7)], (6, 7)) ].

(** A castle of the colour of [piece] is offered with destination
    [toSquare]. *)
Definition castleOffered (s : GameState) (piece : string) (toSquare : Square)
  : Prop :=
  exists colour right between target,
    In (colour, right, between, target) castles
    /\ idx piece 0 = Some colour
    /\ right s = true
    /\ Forall (emptyCell (position s)) between
    /\ toSquare = squareOf target.

(** [toSquare] is next to [square] and does not hold a piece of the colour
    of [piece]. *)
Definition kingStep (s : GameState) (square : Square) (piece : string)
  (toSquare : Square) : Prop :=
  exists df dr,
    -1 <= df <= 1 /\ -1 <= dr <= 1 /\ (df, dr) <> (0, 0)
    /\ toSquare = squareFromFileRank (fileFromSquare square + df)
                    (rankFromSquare square + dr)
    /\ notOwnCell (position s) piece
         (fileFromSquare square + df, rankFromSquare square + dr).

(** The pawn branch taken for [piece]: the white one for a first character
    w, the black one for every other. *)
Definition isWhite (piece : string) : bool := idx piece 0 === Some "w".

Definition pawnDirection (piece : string) : Z := if isWhite piece then 1 else -1.

Definition pawnHomeRank (piece : string) : Z := if isWhite piece then 1 else 6.

Definition enPassantRank (piece : string) : Z := if isWhite piece then 4 else 3.

(** [toSquare] is a pawn destination from [square]: one step forward onto an
    empty cell, two steps from the home rank over two empty cells, or a
    diagonal step onto an enemy piece or beside the pawn recorded as the
    last two-square move. *)
Definition pawnMove (s : GameState) (square : Square) (piece : string)
  (toSquare : Square) : Prop :=
  let file := fileFromSquare square in
  let rank := rankFromSquare square in
  let d := pawnDirection piece in
  (toSquare = squareFromFileRank file (rank + d)
   /\ emptyCell (position s) (file, rank + d))
  \/ (toSquare = squareFromFileRank file (rank + 2 * d)
      /\ rank = pawnHomeRank piece
      /\ emptyCell (position s) (file, rank + d)
      /\ emptyCell (position s) (file, rank + 2 * d))
  \/ (exists df,
        (df = -1 \/ df = 1)
        /\ toSquare = squareFromFileRank (file + df) (rank + d)
        /\ (enemyCell (position s) piece (file + df, rank + d)
            \/ (rank = enPassantRank piece
                /\ 0 <= file + df < 8
                /\ twoSquarePawnMove s = squareFromFileRank (file + df) rank))).

(** 1. e4 e5 2. Nf3 Nc6 3. Bc4 Bc5: f1 and g1 are empty and nothing has
    touched e1 or h1. *)
Definition kingsideCleared : GameState :=
  Eval vm_compute in
    stateAfter [Legal "e2" "e4"; Legal "e7" "e5"; Legal "g1" "f3";
                Legal "b8" "c6"; Legal "f1" "c4"; Legal "f8" "c5"].

(** The generator that [getPseudoLegalMoves] calls for the second character
    of a piece. *)
Definition generatorFor (kind : value)
  : GameState -> Square -> res (list Square) :=
  if kind === Some "p" then getPawnPseudoLegalMoves
  else if kind === Some "r" then getRookPseudoLegalMoves
  else if kind === Some "n" then getKnightPseudoLegalMoves
  else if kind === Some "b" then getBishopPseudoLegalMoves
  else if kind === Some "q" then getQueenPseudoLegalMoves
  else if kind === Some "k" then getKingPseudoLegalMoves
  else fun _ _ => Ok [].

(** What [twoSquarePawnMove] records: nothing, or the square of a pawn two
    ranks in front of its home rank with an empty cell behind it. *)
Definition recordsPassedPawn (s : GameState) : Prop :=
  twoSquarePawnMove s = "-"
  \/ exists piece file,
       0 <= file < 8
       /\ twoSquarePawnMove s
          = squareFromFileRank file (pawnHomeRank piece + 2 * pawnDirection piece)
       /\ at_ (position s) file (pawnHomeRank piece + 2 * pawnDirection piece)
          = Ok (Some piece)
       /\ idx piece 1 = Some "p"
       /\ emptyCell (position s) (file, pawnHomeRank piece + pawnDirection piece).

(** The square [kingIsInCheck] looks for among the destinations. *)
Definition kingSquareOf (s : GameState) (color : string) : Square :=
  if (color =? "w")%string then whiteKingSquare s else blackKingSquare s.

(** A piece on the board whose first character is not [color] has the
    cached king square of [color] among its pseudo-legal destinations. *)
Definition attacksKing (s : GameState) (color : string) : Prop :=
  exists file rank piece attacked,
    0 <= file < 8 /\ 0 <= rank < 8
    /\ at_ (position s) file rank = Ok (Some piece)
    /\ piece <> "ee"
    /\ idx piece 0 <> Some color
    /\ getPseudoLegalMoves s (squareFromFileRank file rank) = Ok attacked
    /\ In (kingSquareOf s color) attacked.

(** No square that holds a piece of the active colour has a legal move. *)
Definition noLegalMove (s : GameState) : Prop :=
  forall file rank piece,
    0 <= file < 8 -> 0 <= rank < 8 ->
    at_ (position s) file rank = Ok (Some piece) ->
    idx piece 0 = Some (activeColor s) ->
    getLegalMoves s (squareFromFileRank file rank) = Ok [].

(** ** The game controllers of the two pages *)

(** The variables of a [ChessGame] that its click handler assigns: the
    engine and the selected square ([null] is [None]).  The widget calls of
    the handler only draw; they are left out. *)
Record ChessGame : Type := mkChessGame {
  boardState : GameState;
  selectedSquare : option Square
}.

(** How a handler ends: it returns, or an exception leaves it.  The state
    paired with [Raised] holds the assignments made before the exception. *)
Inductive outcome : Type :=
| Returned
| Raised (e : exn).

(** The values of [c] in [for (let c of s)]. *)
Definition chars (s : string) : list string :=
  map (fun c => String c EmptyString) (list_ascii_of_string s).

Fixpoint mapM {A B : Type} (f : A -> res B) (l : list A) : res (list B) :=
  match l with
  | [] => Ok []
  | x :: t => y <- f x ;; r <- mapM f t ;; Ok (y :: r)
  end.

(** The squares the two loops of [updatePieces] visit. *)
Definition updatePiecesSquares : list Square :=
  flat_map (fun file => map (fun rank => file ++ rank) (chars "12345678"))
           (chars "abcdefgh").

(** [updatePieces]: the pairs passed to [boardWidget.setPiece]. *)
Definition updatePieces (s : GameState) : res (list (Square * option value)) :=
  mapM (fun square =>
          piece <- getPieceOnSquare s square ;; Ok (square, piece))
       updatePiecesSquares.

Module App.

(** [handleSquareClick] of [src/app/app.js]. *)
Definition handleSquareClick (g : ChessGame) (square : Square)
  : ChessGame * outcome :=
  let s := boardState g in
  match squareHasPieceOfActivePlayer s square with
  | Throw e => (g, Raised e)
  | Ok true =>
      let g' := {| boardState := s; selectedSquare := Some square |} in
      match getLegalMoves s square with
      | Throw e => (g', Raised e)
      | Ok _ => (g', Returned)
      end
  | Ok false =>
      match selectedSquare g with
      | None => ({| boardState := s; selectedSquare := None |}, Returned)
      | Some selected =>
          match getLegalMoves s selected with
          | Throw e => (g, Raised e)
          | Ok moves =>
              if includes moves square then
                match playPseudoLegalMove s selected square with
                | Throw e => (g, Raised e)
                | Ok s' =>
                    match updatePieces s' with
                    | Throw e =>
                        ({| boardState := s';
                            selectedSquare := Some selected |}, Raised e)
                    | Ok _ =>
                        ({| boardState := s'; selectedSquare := None |},
                         Returned)
                    end
                end
              else ({| boardState := s; selectedSquare := None |}, Returned)
          end
      end
  end.

End App.

Module Standard.

(** [handleSquareClick] of [src/app/standard/standard.js]: it first asks
    the engine for checkmate and stalemate, then goes on as the other one,
    with [playLegalMove]. *)
Definition handleSquareClick (g : ChessGame) (square : Square)
  : ChessGame * outcome :=
  let s := boardState g in
  match isCheckmate s with
  | Throw e => (g, Raised e)
  | Ok _ =>
  match isStalemate s with
  | Throw e => (g, Raised e)
  | Ok _ =>
  match squareHasPieceOfActivePlayer s square with
  | Throw e => (g, Raised e)
  | Ok true =>
      let g' := {| boardState := s; selectedSquare := Some square |} in
      match getLegalMoves s square with
      | Throw e => (g', Raised e)
      | Ok _ => (g', Returned)
      end
  | Ok false =>
      match selectedSquare g with
      | None => ({| boardState := s; selectedSquare := None |}, Returned)
      | Some selected =>
          match getLegalMoves s selected with
          | Throw e => (g, Raised e)
          | Ok moves =>
              if includes moves square then
                match playLegalMove s selected square with
                | Throw e => (g, Raised e)
                | Ok s' =>
                    match updatePieces s' with
                    | Throw e =>
                        ({| boardState := s';
                            selectedSquare := Some selected |}, Raised e)
                    | Ok _ =>
                        ({| boardState := s'; selectedSquare := None |},
                         Returned)
                    end
                end
              else ({| boardState := s; selectedSquare := None |}, Returned)
          end
      end
  end
  end
  end.

End Standard.

(** The selected square, if any, holds a piece of the active colour. *)
Definition selectionOk (g : ChessGame) : Prop :=
  match selectedSquare g with
  | None => True
  | Some selected =>
      squareHasPieceOfActivePlayer (boardState g) selected = Ok true
  end.

(** What a click may do to the engine: nothing, or the execution of a legal
    move of a piece of the active colour from the selected square to the
    clicked one. *)
Definition clickEffect (g : ChessGame) (square : Square) (g' : ChessGame)
  : Prop :=
  boardState g' = boardState g
  \/ exists selected piece,
       selectedSquare g = Some selected
       /\ _getPieceOnSquare (boardState g) selected = Ok (Some piece)
       /\ idx piece 0 = Some (activeColor (boardState g))
       /\ legalMove (boardState g) selected square
       /\ executed (boardState g) selected square (boardState g').

(** ** Square names in the widget and the trainer *)

(** [s.charAt(i)]: the empty string outside [s]. *)
Definition charAt (s : string) (i : Z) : string :=
  if i <? 0 then ""
  else match String.get (Z.to_nat i) s with
       | Some c => String c EmptyString
       | None => ""
       end.

(** [s[i]] for a number [i]. *)
Definition idxZ (s : string) (i : Z) : value :=
  if i <? 0 then None else idx s (Z.to_nat i).

Module BoardWidget.

(** The square [handleClick] passes to the callback; [column] and [row] are
    [Math.floor(x * 8)] and [Math.floor(y * 8)] for the position of the
    click in the board, after the flip. *)
Definition handleClick (column row : Z) : Square :=
  let file := charAt "abcdefghh" column in
  let rank := charAt "876543211" row in
  file ++ rank.

(** The class names [initializeBackgroundElements] gives the background
    element of each square, in the order of creation. *)
Definition initializeBackgroundElements : list (string * string) :=
  snd (fold_left
         (fun (acc : Z * list (string * string)) (file : string) =>
            let '(squareColorIndex, elems) :=
              fold_left
                (fun (acc : Z * list (string * string)) (rank : string) =>
                   let '(squareColorIndex, elems) := acc in
                   let colorClass :=
                     if squareColorIndex mod 2 =? 0 then "square-dark"
                     else "square-light" in
                   (squareColorIndex + 1,
                    (elems ++ [(("square-" ++ file ++ rank)%string,
                                colorClass)])%list))
                (chars "12345678") acc in
            (squareColorIndex + 1, elems))
         (chars "abcdefgh") (0, [])).

End BoardWidget.

Module SquaresTrainer.

(** [getRandomSquare], for the two indices [Math.floor(Math.random() * 8)]
    it draws. *)
Definition getRandomSquare (fileIndex rankIndex : Z) : string :=
  text (idxZ "abcdefgh" fileIndex) ++ text (idxZ "12345678" rankIndex).

End SquaresTrainer.

(** ** Where the generators raise *)

(** The rank from which the pawn branch of [piece] reads outside the
    board. *)
Definition pawnLastRank (piece : string) : Z := if isWhite piece then 7 else 0.

(** The square holds a pawn on the last rank of its branch. *)
Definition pawnOnLastRankAt (s : GameState) (square : Square) : Prop :=
  exists piece,
    _getPieceOnSquare s square = Ok (Some piece)
    /\ idx piece 1 = Some "p"
    /\ rankFromSquare square = pawnLastRank piece.

(** ** Reading the serialization back *)

(** A character occurs in a text. *)
Definition mentions (c field : string) : bool :=
  match String.index 0 c field with
  | Some _ => true
  | None => false
  end.

(** The twelve piece strings of the [switch] in [getFENPieces]. *)
Definition pieceNames : list string :=
  ["wp"; "wr"; "wn"; "wb"; "wq"; "wk"; "bp"; "br"; "bn"; "bb"; "bq"; "bk"].

(** Every entry of the board is the empty marker or one of the twelve piece
    strings. *)
Definition knownPosition (p : Position) : Prop :=
  forall file rank x,
    at_ p file rank = Ok (Some x) -> x = "ee" \/ In x pieceNames.

(** The squares a character of the piece field of a FEN text stands for. *)
Definition fenSquares (c : ascii) : list string :=
  if (c =? "P")%char then ["wp"]
  else if (c =? "R")%char then ["wr"]
  else if (c =? "N")%char then ["wn"]
  else if (c =? "B")%char then ["wb"]
  else if (c =? "Q")%char then ["wq"]
  else if (c =? "K")%char then ["wk"]
  else if (c =? "p")%char then ["bp"]
  else if (c =? "r")%char then ["br"]
  else if (c =? "n")%char then ["bn"]
  else if (c =? "b")%char then ["bb"]
  else if (c =? "q")%char then ["bq"]
  else if (c =? "k")%char then ["bk"]
  else
    let n := N_of_ascii c in
    if ((49 <=? n) && (n <=? 56))%N then repeat "ee" (N.to_nat (n - 48))
    else [].

(** Reading a FEN piece field from left to right: the ranks that are
    complete and the rank being read; a slash closes a rank. *)
Definition fenStep (st : list (list string) * list string) (c : ascii)
  : list (list string) * list string :=
  let '(done, current) := st in
  if (c =? "/")%char then ((done ++ [current])%list, [])
  else (done, (current ++ fenSquares c)%list).

Definition parseState (text : string) : list (list string) * list string :=
  fold_left fenStep (list_ascii_of_string text) ([], []).

(** The ranks a FEN piece field describes, in the order of the text. *)
Definition parseFENPieces (text : string) : list (list string) :=
  let '(done, current) := parseState text in (done ++ [current])%list.

(** The entries of a rank from file a to file h. *)
Definition rankEntries (p : Position) (rank : Z) : list string :=
  map (fun file => match at_ p file rank with
                   | Ok (Some x) => x
                   | _ => ""
                   end)
      (upFrom 0).

(** The board rank by rank, from rank 8 down to rank 1. *)
Definition ranksFromTop (p : Position) : list (list string) :=
  map (rankEntries p) (downFrom 7).

(** ** Pieces on the board *)

(** 1 for an entry that is not the empty marker. *)
Definition occupied (x : string) : nat := if (x =? "ee")%string then 0 else 1.

(** The sum of a weight over the entries of the board. *)
Definition weightOf (w : string -> nat) (p : Position) : nat :=
  list_sum (map (fun column => list_sum (map w column)) p).

(** The number of entries of the board that are not the empty marker. *)
Definition pieceCount (p : Position) : nat := weightOf occupied p.

(** 1 for the entry [name]. *)
Definition isPiece (name x : string) : nat :=
  if (x =? name)%string then 1 else 0.

(** 1. e4 a6 2. e5 d5 3. exd6, taken en passant. *)
Definition afterEnPassant : GameState :=
  Eval vm_compute in
    stateAfter [Legal "e2" "e4"; Legal "a7" "a6"; Legal "e4" "e5";
                Legal "d7" "d5"; Legal "e5" "d6"].

(** ** Games played by clicks *)

(** The games a page reaches from a fresh [ChessGame] by clicks in the
    board: [column] and [row] are the two numbers [Math.floor] gives
    [handleClick], and the click is handled by either handler, whether it
    returns or an exception leaves it. *)
Inductive played : ChessGame -> Prop :=
| played_start :
    played {| boardState := initialState; selectedSquare := None |}
| played_click (g : ChessGame) (column row : Z) (g' : ChessGame)
    (o : outcome) :
    played g ->
    0 <= column <= 8 -> 0 <= row <= 8 ->
    App.handleSquareClick g (BoardWidget.handleClick column row) = (g', o)
    \/ Standard.handleSquareClick g (BoardWidget.handleClick column row)
       = (g', o) ->
    played g'.

(** ** Kings and castling rights *)

(** No white pawn stands on rank 1 and no black pawn on rank 8. *)
Definition pawnsOffFirstRank (p : Position) : Prop :=
  forall file,
    at_ p file 0 <> Ok (Some "wp") /\ at_ p file 7 <> Ok (Some "bp").

(** A colour that still has a castling right has its king on e1 or e8. *)
Definition kingsAtHome (s : GameState) : Prop :=
  (whiteCastleKingsideAvailable s = true
   \/ whiteCastleQueensideAvailable s = true ->
   at_ (position s) 4 0 = Ok (Some "wk"))
  /\ (blackCastleKingsideAvailable s = true
      \/ blackCastleQueensideAvailable s = true ->
      at_ (position s) 4 7 = Ok (Some "bk")).

(** ** The move counters *)

(** The operation finds the destination in the move set it consults, and
    executes the move. *)
Definition accepted (s : GameState) (c : call) : bool :=
  match c with
  | Legal fromSquare toSquare =>
      match moveIsLegal s fromSquare toSquare with
      | Ok true => true
      | _ => false
      end
  | Pseudo fromSquare toSquare =>
      match moveIsPseudoLegal s fromSquare toSquare with
      | Ok true => true
      | _ => false
      end
  end.

(** The number of moves executed along a run of calls: the calls that are
    accepted in the state they are made in. *)
Fixpoint executedMoves (cs : list call) (s : GameState) : nat :=
  match cs with
  | [] => 0
  | c :: rest =>
      match exec s c with
      | Ok s' => ((if accepted s c then 1 else 0) + executedMoves rest s')%nat
      | Throw _ => 0%nat
      end
  end.

(** * Properties *)

(** ** The error monad *)

Lemma bind_Ok {A B : Type} (m : res A) (k : A -> res B) (b : B) :
  bind m k = Ok b -> exists a, m = Ok a /\ k a = Ok b.
Proof.
  destruct m as [a|e]; simpl; intros H; [eauto | discriminate].
Qed.

Lemma andM_true (a b : res bool) :
  a &&& b = Ok true -> a = Ok true /\ b = Ok true.
Proof.
  unfold andM. intros H. apply bind_Ok in H. destruct H as ([|] & Ha & Hb).
  - auto.
  - discriminate.
Qed.

(** Splits a hypothesis [x <- m ;; k = Ok b] into [m = Ok a] and
    [k a = Ok b]. *)
Ltac bind_inv H :=
  let a := fresh "a" in
  let E := fresh "E" in
  apply bind_Ok in H; destruct H as (a & E & H).

Lemma includes_In (a : list string) (x : string) :
  includes a x = true <-> In x a.
Proof.
  unfold includes. rewrite existsb_exists. split.
  - intros (y & Hy & E). apply String.eqb_eq in E. now subst.
  - intros H. exists x. split; [assumption | apply String.eqb_refl].
Qed.

Lemma includes_not_In (a : list string) (x : string) :
  includes a x = false <-> ~ In x a.
Proof.
  rewrite <- includes_In. destruct (includes a x); split; congruence.
Qed.

Lemma eqv_true (a b : value) : (a === b) = true -> a = b.
Proof.
  destruct a, b; simpl; intros H; try discriminate; [|reflexivity].
  apply String.eqb_eq in H. now subst.
Qed.

(** ** Move execution, step by step *)

(** A call whose destination is not in the pseudo-legal set returns the
    state it was given. *)
Lemma playPseudoLegalMove_rejected (s : GameState) (fromSquare toSquare : Square) :
  moveIsPseudoLegal s fromSquare toSquare = Ok false ->
  playPseudoLegalMove s fromSquare toSquare = Ok s.
Proof.
  intros H. unfold playPseudoLegalMove. now rewrite H.
Qed.

Lemma playLegalMove_rejected (s : GameState) (fromSquare toSquare : Square) :
  moveIsLegal s fromSquare toSquare = Ok false ->
  playLegalMove s fromSquare toSquare = Ok s.
Proof.
  intros H. unfold playLegalMove. now rewrite H.
Qed.

Lemma playPseudoLegalMove_inv (s : GameState) (fromSquare toSquare : Square)
  (s' : GameState) :
  playPseudoLegalMove s fromSquare toSquare = Ok s' ->
  (moveIsPseudoLegal s fromSquare toSquare = Ok false /\ s' = s)
  \/ executed s fromSquare toSquare s'.
Proof.
  unfold playPseudoLegalMove. intros H.
  bind_inv H. destruct a; simpl in H.
  - right.
    bind_inv H. bind_inv H. bind_inv H.
    destruct a as [piece|]; simpl in E2; [|discriminate].
    injection E2 as <-.
    bind_inv H. bind_inv H. bind_inv H. bind_inv H. bind_inv H. bind_inv H.
    injection H as <-.
    econstructor; simpl; try reflexivity; try eassumption.
    rewrite E3. exact E4.
  - left. injection H as <-. auto.
Qed.

Lemma playLegalMove_inv (s : GameState) (fromSquare toSquare : Square)
  (s' : GameState) :
  playLegalMove s fromSquare toSquare = Ok s' ->
  (moveIsLegal s fromSquare toSquare = Ok false /\ s' = s)
  \/ (moveIsLegal s fromSquare toSquare = Ok true
      /\ playPseudoLegalMove s fromSquare toSquare = Ok s').
Proof.
  unfold playLegalMove. intros H. bind_inv H.
  destruct a; simpl in H.
  - right. auto.
  - left. injection H as <-. auto.
Qed.

Lemma exec_inv (s : GameState) (c : call) (s' : GameState) :
  exec s c = Ok s' ->
  s' = s \/ executed s (source c) (destination c) s'.
Proof.
  destruct c as [f t|f t]; simpl; intros H.
  - apply playLegalMove_inv in H. destruct H as [[_ ->]|[_ H]]; [now left|].
    apply playPseudoLegalMove_inv in H. destruct H as [[_ ->]|H]; eauto.
  - apply playPseudoLegalMove_inv in H. destruct H as [[_ ->]|H]; eauto.
Qed.

(** ** Serialization of the initial position *)

(** C10: a fresh state serializes to the placement field
    rnbqkbnr/pppppppp/8/8/8/8/PPPPPPPP/RNBQKBNR, the active colour w, the
    castling field KQkq and the en-passant field -, and [getFEN] joins the
    six fields with single spaces in the order placement, active colour,
    castling, en passant, half-move clock, full-move counter. *)
Theorem initial_position_serialization :
  getFENPieces initialState = Ok "rnbqkbnr/pppppppp/8/8/8/8/PPPPPPPP/RNBQKBNR"
  /\ activeColor initialState = "w"
  /\ getFENCastling initialState = "KQkq"
  /\ twoSquarePawnMove initialState = "-"
  /\ numberText (numberOfHalfMoves initialState) = "0"
  /\ numberText (numberOfFullMoves initialState) = "0"
  /\ getFEN initialState
     = Ok ("rnbqkbnr/pppppppp/8/8/8/8/PPPPPPPP/RNBQKBNR" ++ " " ++ "w" ++ " "
             ++ "KQkq" ++ " " ++ "-" ++ " " ++ "0" ++ " " ++ "0")%string.
Proof.
  repeat split; vm_compute; reflexivity.
Qed.

(** ** Fool's mate *)

(** C7: from a fresh state, the legal moves f2-f3, e7-e5, g2-g4, d8-h4 are
    all executed (four moves are counted) and leave [isCheckmate] true,
    [isStalemate] false and White to move. *)
Theorem fools_mate_is_checkmate :
  run foolsMateMoves initialState = Ok foolsMate
  /\ numberOfFullMoves foolsMate = 4
  /\ isCheckmate foolsMate = Ok true
  /\ isStalemate foolsMate = Ok false
  /\ activeColor foolsMate = "w".
Proof.
  repeat split; vm_compute; reflexivity.
Qed.

(** ** Rejected calls *)

(** C6: a call whose destination is not in the set its operation consults
    (the legal set for [playLegalMove], the pseudo-legal set for
    [playPseudoLegalMove]) returns the very state it was given: position,
    active colour, the four castling flags, the en-passant target, both
    counters and both cached king squares are those of before. *)
Theorem rejected_call_changes_nothing (s : GameState) (c : call) :
  rejected s c -> exec s c = Ok s.
Proof.
  destruct c as [f t|f t]; simpl; intros (moves & Hm & Hn).
  - apply playLegalMove_rejected. unfold moveIsLegal. rewrite Hm. simpl.
    f_equal. now apply includes_not_In.
  - apply playPseudoLegalMove_rejected. unfold moveIsPseudoLegal. rewrite Hm.
    simpl. f_equal. now apply includes_not_In.
Qed.

(** The pawn on e2 cannot go to e5: both operations leave the initial state
    as it is. *)
Lemma rejected_call_changes_nothing_witness :
  exec initialState (Legal "e2" "e5") = Ok initialState
  /\ exec initialState (Pseudo "e2" "e5") = Ok initialState.
Proof.
  split; apply rejected_call_changes_nothing; simpl;
    exists ["e4"; "e3"]; (split; [vm_compute; reflexivity|]);
    simpl; intros [H|[H|[]]]; discriminate H.
Defined.

(** ** Castling rights *)

Lemma flag_le_refl (b : bool) : Bool.le b b.
Proof. destruct b; simpl; auto. Qed.

Lemma flag_le_trans (a b c : bool) : Bool.le a b -> Bool.le b c -> Bool.le a c.
Proof. destruct a, b, c; simpl; auto. Qed.

Lemma executed_rights (s : GameState) (f t : Square) (s' : GameState) :
  executed s f t s' ->
  Bool.le (whiteCastleKingsideAvailable s') (whiteCastleKingsideAvailable s)
  /\ Bool.le (whiteCastleQueensideAvailable s') (whiteCastleQueensideAvailable s)
  /\ Bool.le (blackCastleKingsideAvailable s') (blackCastleKingsideAvailable s)
  /\ Bool.le (blackCastleQueensideAvailable s') (blackCastleQueensideAvailable s).
Proof.
  intros []. rewrite Hwk, Hwq, Hbk, Hbq.
  repeat split;
    match goal with
    | |- Bool.le (if ?c then _ else _) _ => destruct c
    end; simpl; auto; apply flag_le_refl.
Qed.

(** C9: along any sequence of calls of the two move-execution operations,
    from the initial state or from any other, each of the four castling
    flags is at most what it was: a flag that is false is false in every
    later state. *)
Theorem castling_rights_never_restored (cs : list call) (s s' : GameState) :
  run cs s = Ok s' ->
  Bool.le (whiteCastleKingsideAvailable s') (whiteCastleKingsideAvailable s)
  /\ Bool.le (whiteCastleQueensideAvailable s') (whiteCastleQueensideAvailable s)
  /\ Bool.le (blackCastleKingsideAvailable s') (blackCastleKingsideAvailable s)
  /\ Bool.le (blackCastleQueensideAvailable s') (blackCastleQueensideAvailable s).
Proof.
  revert s. induction cs as [|c cs IH]; simpl; intros s H.
  - injection H as <-. repeat split; apply flag_le_refl.
  - bind_inv H. apply IH in H. destruct H as (H1 & H2 & H3 & H4).
    apply exec_inv in E. destruct E as [->|E]; [auto|].
    apply executed_rights in E. destruct E as (E1 & E2 & E3 & E4).
    repeat split; eapply flag_le_trans; eassumption.
Qed.

(** After 1. e4 e5 2. Ke2 White has no castling right; the king walks back
    to e1 (2... Ke7 3. Ke1) and the rights stay cleared. *)
Lemma castling_rights_never_restored_witness :
  whiteCastleKingsideAvailable afterKe2 = false
  /\ pieceAt (position afterKe1) "e1" = Ok (Some "wk")
  /\ Bool.le (whiteCastleKingsideAvailable afterKe1)
             (whiteCastleKingsideAvailable afterKe2).
Proof.
  split; [reflexivity|]. split; [reflexivity|].
  apply (castling_rights_never_restored kingBackMoves afterKe2 afterKe1).
  vm_compute. reflexivity.
Defined.

(** ** Arrays *)

Lemma update_length {A : Type} (a : list A) (n : nat) (x : A) :
  List.length (update a n x) = List.length a.
Proof.
  revert n. induction a as [|y a IH]; intros [|n]; simpl; auto.
Qed.

Lemma nth_error_update_same {A : Type} (a : list A) (n : nat) (x : A) :
  (n < List.length a)%nat -> nth_error (update a n x) n = Some x.
Proof.
  revert n. induction a as [|y a IH]; intros [|n]; simpl; intros H;
    try lia; auto.
  apply IH. lia.
Qed.

Lemma nth_error_update_other {A : Type} (a : list A) (n m : nat) (x : A) :
  n <> m -> nth_error (update a n x) m = nth_error a m.
Proof.
  revert n m. induction a as [|y a IH]; intros [|n] [|m]; simpl; intros H;
    try congruence; auto.
Qed.

Lemma nthZ_Some_range {A : Type} (a : list A) (i : Z) (x : A) :
  nthZ a i = Some x -> 0 <= i < Z.of_nat (List.length a).
Proof.
  unfold nthZ. destruct (Z.ltb_spec i 0) as [Hi|Hi]; [discriminate|].
  intros H. assert (Hn : nth_error a (Z.to_nat i) <> None) by congruence.
  apply nth_error_Some in Hn. lia.
Qed.

Lemma nthZ_in_range {A : Type} (a : list A) (i : Z) :
  0 <= i < Z.of_nat (List.length a) -> exists x, nthZ a i = Some x.
Proof.
  intros H. unfold nthZ. destruct (Z.ltb_spec i 0); [lia|].
  destruct (nth_error a (Z.to_nat i)) eqn:E; [eauto|].
  apply nth_error_None in E. lia.
Qed.

Lemma setZ_length {A : Type} (a : list A) (i : Z) (x : A) :
  List.length (setZ a i x) = List.length a.
Proof.
  unfold setZ. destruct (i <? 0); [reflexivity | apply update_length].
Qed.

Lemma nthZ_setZ_same {A : Type} (a : list A) (i : Z) (x y : A) :
  nthZ a i = Some y -> nthZ (setZ a i x) i = Some x.
Proof.
  intros H. apply nthZ_Some_range in H. unfold nthZ, setZ.
  destruct (Z.ltb_spec i 0); [lia|]. apply nth_error_update_same. lia.
Qed.

Lemma nthZ_setZ_other {A : Type} (a : list A) (i j : Z) (x : A) :
  i <> j -> nthZ (setZ a i x) j = nthZ a j.
Proof.
  intros H. unfold nthZ, setZ.
  destruct (Z.ltb_spec j 0); [reflexivity|].
  destruct (Z.ltb_spec i 0); [reflexivity|].
  apply nth_error_update_other. lia.
Qed.

(** ** Reads and writes of the position *)

Lemma at_setEntry_same (p p' : Position) (f r : Z) (x : string) :
  setEntry p f r x = Ok p' -> at_ p' f r = Ok (Some x).
Proof.
  unfold setEntry, at_. destruct (nthZ p f) as [column|] eqn:Ec; [|discriminate].
  destruct (nthZ column r) as [y|] eqn:Er; [|discriminate].
  intros H. injection H as <-.
  rewrite (nthZ_setZ_same _ _ _ _ Ec). f_equal.
  eapply nthZ_setZ_same. eassumption.
Qed.

Lemma at_setEntry_other (p p' : Position) (f r f' r' : Z) (x : string) :
  setEntry p f r x = Ok p' -> (f', r') <> (f, r) -> at_ p' f' r' = at_ p f' r'.
Proof.
  unfold setEntry, at_. destruct (nthZ p f) as [column|] eqn:Ec; [|discriminate].
  destruct (nthZ column r) as [y|] eqn:Er; [|discriminate].
  intros H Hne. injection H as <-.
  destruct (Z.eq_dec f f') as [<-|Hf].
  - rewrite (nthZ_setZ_same _ _ _ _ Ec), Ec. f_equal.
    apply nthZ_setZ_other. congruence.
  - now rewrite nthZ_setZ_other.
Qed.

Lemma wfPosition_column (p : Position) (f : Z) (column : list string) :
  wfPosition p -> nthZ p f = Some column -> List.length column = 8%nat.
Proof.
  intros [_ H] E. unfold nthZ in E. destruct (f <? 0); [discriminate|].
  apply nth_error_In in E. rewrite Forall_forall in H. auto.
Qed.

Lemma at_Some_range (p : Position) (f r : Z) (x : string) :
  wfPosition p -> at_ p f r = Ok (Some x) -> 0 <= f < 8 /\ 0 <= r < 8.
Proof.
  intros Hwf. unfold at_. destruct (nthZ p f) as [column|] eqn:Ec; [|discriminate].
  intros H. injection H as H.
  pose proof (wfPosition_column _ _ _ Hwf Ec) as Hl.
  apply nthZ_Some_range in Ec, H. destruct Hwf as [Hp _]. lia.
Qed.

Lemma at_in_range (p : Position) (f r : Z) :
  wfPosition p -> 0 <= f < 8 -> 0 <= r < 8 -> exists x, at_ p f r = Ok (Some x).
Proof.
  intros Hwf Hf Hr. unfold at_.
  destruct (nthZ_in_range p f) as [column Ec]; [destruct Hwf; lia|].
  rewrite Ec. pose proof (wfPosition_column _ _ _ Hwf Ec) as Hl.
  destruct (nthZ_in_range column r) as [x Ex]; [lia|].
  rewrite Ex. eauto.
Qed.

Lemma setEntry_wf (p p' : Position) (f r : Z) (x : string) :
  wfPosition p -> setEntry p f r x = Ok p' -> wfPosition p'.
Proof.
  intros Hwf. unfold setEntry.
  destruct (nthZ p f) as [column|] eqn:Ec; [|discriminate].
  destruct (nthZ column r) as [y|] eqn:Er; [|discriminate].
  intros H. injection H as <-.
  pose proof (wfPosition_column _ _ _ Hwf Ec) as Hl.
  destruct Hwf as [Hp Hc]. split.
  - now rewrite setZ_length.
  - rewrite Forall_forall in *. intros c Hin.
    apply In_nth_error in Hin. destruct Hin as [n Hn].
    unfold setZ in Hn. destruct (Z.ltb_spec f 0).
    + apply Hc. eapply nth_error_In. eassumption.
    + destruct (Nat.eq_dec (Z.to_nat f) n) as [<-|Hne].
      * rewrite nth_error_update_same in Hn.
        -- injection Hn as Hn. subst c.
           change (List.length (setZ column r x) = 8%nat).
           now rewrite setZ_length.
        -- apply nthZ_Some_range in Ec. lia.
      * rewrite nth_error_update_other in Hn by assumption.
        apply Hc. eapply nth_error_In. eassumption.
Qed.

Lemma setEntry_in_range (p : Position) (f r : Z) (x : string) :
  wfPosition p -> 0 <= f < 8 -> 0 <= r < 8 -> exists p', setEntry p f r x = Ok p'.
Proof.
  intros Hwf Hf Hr. unfold setEntry.
  destruct (nthZ_in_range p f) as [column Ec]; [destruct Hwf; lia|].
  rewrite Ec. pose proof (wfPosition_column _ _ _ Hwf Ec) as Hl.
  destruct (nthZ_in_range column r) as [y Ey]; [lia|].
  rewrite Ey. eauto.
Qed.

(** ** Squares *)

Ltac cases8 x :=
  let H := fresh "H" in
  assert (H : x = 0 \/ x = 1 \/ x = 2 \/ x = 3 \/ x = 4 \/ x = 5 \/ x = 6 \/ x = 7)
    by lia;
  destruct H as [->|[->|[->|[->|[->|[->|[->| ->]]]]]]].

Lemma onBoard_intro (file rank : Z) :
  0 <= file < 8 -> 0 <= rank < 8 -> onBoard (squareFromFileRank file rank).
Proof. intros Hf Hr. exists file, rank. auto. Qed.

Lemma file_rank_of_square (file rank : Z) :
  0 <= file < 8 -> 0 <= rank < 8 ->
  fileFromSquare (squareFromFileRank file rank) = file
  /\ rankFromSquare (squareFromFileRank file rank) = rank.
Proof.
  intros Hf Hr. cases8 file; cases8 rank; split; reflexivity.
Qed.

Lemma onBoard_cell (square : Square) :
  onBoard square ->
  0 <= fileFromSquare square < 8 /\ 0 <= rankFromSquare square < 8.
Proof.
  intros (f & r & Hf & Hr & ->).
  destruct (file_rank_of_square f r Hf Hr) as [-> ->]. auto.
Qed.

Lemma onBoard_allSquares (square : Square) :
  onBoard square <-> In square allSquares.
Proof.
  split.
  - intros (f & r & Hf & Hr & ->).
    cases8 f; cases8 r; apply includes_In; vm_compute; reflexivity.
  - intros H. vm_compute in H.
    repeat (destruct H as [<-|H];
            [match goal with
             | |- onBoard (String ?c (String ?d _)) =>
                 exists (Z.of_N (N_of_ascii c) - 97),
                        (Z.of_N (N_of_ascii d) - 49)
             end; vm_compute; intuition congruence|]).
    destruct H.
Qed.

(** The file of a square is read from its first character, the rank from its
    second. *)
Lemma file_of_first_char (square rest : string) (c : string) :
  idx square 0 = Some c ->
  fileFromSquare (c ++ rest)%string = fileFromSquare square.
Proof.
  destruct square as [|a square]; simpl; [discriminate|].
  intros H. injection H as <-. reflexivity.
Qed.

Lemma rank_of_second_char (square : Square) (a : ascii) :
  0 <= rankFromSquare square ->
  rankFromSquare (String a (text (idx square 1))) = rankFromSquare square.
Proof.
  unfold rankFromSquare. destruct (idx square 1) as [x|] eqn:E; simpl.
  - destruct x as [|d [|? ?]]; simpl; intros H;
      solve [reflexivity | unfold NaN in H; lia].
  - unfold NaN. lia.
Qed.

Lemma first_char_defined (square : Square) :
  0 <= fileFromSquare square -> exists c, idx square 0 = Some c.
Proof.
  unfold fileFromSquare, charCodeAt0, idx.
  destruct (String.get 0 square); [eauto | unfold NaN; lia].
Qed.

(** ** The frame of a write *)

Lemma cell_neq (a b : Square) :
  sameCell a b = false <-> cell a <> cell b.
Proof.
  unfold sameCell, cell. split.
  - intros H E. injection E as E1 E2.
    rewrite E1, E2, !Z.eqb_refl in H. discriminate.
  - intros H. destruct (Z.eqb_spec (fileFromSquare a) (fileFromSquare b));
      destruct (Z.eqb_spec (rankFromSquare a) (rankFromSquare b));
      simpl; congruence.
Qed.

Lemma cell_eq (a b : Square) : sameCell a b = true <-> cell a = cell b.
Proof.
  unfold sameCell, cell. rewrite andb_true_iff, !Z.eqb_eq. split.
  - intros [E1 E2]. now rewrite E1, E2.
  - intros E. injection E as E1 E2. auto.
Qed.

Lemma pieceAt_cell (p : Position) (a b : Square) :
  cell a = cell b -> pieceAt p a = pieceAt p b.
Proof.
  unfold cell, pieceAt. intros E. injection E as E1 E2. now rewrite E1, E2.
Qed.

Lemma pieceAt_set_same (p p' : Position) (square square' : Square) (x : string) :
  setPieceOnSquare p square x = Ok p' -> cell square' = cell square ->
  pieceAt p' square' = Ok (Some x).
Proof.
  unfold setPieceOnSquare. intros H E. rewrite (pieceAt_cell _ _ _ E).
  eapply at_setEntry_same. eassumption.
Qed.

Lemma pieceAt_set_other (p p' : Position) (square square' : Square) (x : string) :
  setPieceOnSquare p square x = Ok p' -> cell square' <> cell square ->
  pieceAt p' square' = pieceAt p square'.
Proof.
  unfold setPieceOnSquare, pieceAt, cell. intros H E.
  eapply at_setEntry_other; eassumption.
Qed.

(** What the rook relocation of a castle does to the board. *)
Lemma relocateRook_spec (p p' : Position) (a d : string) (r : value) :
  relocateRook p a d r = Ok p' ->
  fileFromSquare (d ++ text r) <> fileFromSquare (a ++ text r) ->
  pieceAt p' (a ++ text r) = Ok (Some "ee")
  /\ pieceAt p' (d ++ text r) = pieceAt p (a ++ text r)
  /\ forall square,
       cell square <> cell (d ++ text r)%string ->
       cell square <> cell (a ++ text r)%string ->
       pieceAt p' square = pieceAt p square.
Proof.
  unfold relocateRook. intros H Hne. bind_inv H.
  destruct a0 as [rook|]; [|discriminate]. bind_inv H.
  split; [|split].
  - eapply pieceAt_set_same; [eassumption | reflexivity].
  - rewrite (pieceAt_set_other _ _ _ _ _ H).
    + rewrite E. eapply pieceAt_set_same; [eassumption | reflexivity].
    + unfold cell. congruence.
  - intros square Hd Ha.
    rewrite (pieceAt_set_other _ _ _ _ _ H Ha).
    apply (pieceAt_set_other _ _ _ _ _ E0 Hd).
Qed.

Lemma file_of_idx (square : Square) (a : ascii) :
  idx square 0 = Some (String a "") ->
  fileFromSquare square = Z.of_N (N_of_ascii a) - 97.
Proof.
  destruct square as [|b square]; simpl; [discriminate|].
  intros H. injection H as ->. reflexivity.
Qed.

(** ** Generated destinations are squares of the board *)

Section Destinations.

Variable p : Position.
Hypothesis Hwf : wfPosition p.

Lemma prop_defined (v : value) (i : nat) (c : value) :
  prop v i = Ok c -> exists x, v = Some x.
Proof. destruct v; simpl; [eauto | discriminate]. Qed.

Lemma isEmptyAt_true (f r : Z) :
  isEmptyAt p f r = Ok true -> at_ p f r = Ok (Some "ee").
Proof.
  unfold isEmptyAt. intros H. bind_inv H. injection H as H.
  destruct a as [x|]; simpl in H; [|discriminate].
  apply String.eqb_eq in H. now subst.
Qed.

Lemma isEmptyAt_range (f r : Z) :
  isEmptyAt p f r = Ok true -> 0 <= f < 8 /\ 0 <= r < 8.
Proof.
  intros H. apply isEmptyAt_true in H. eapply at_Some_range; eassumption.
Qed.

Lemma notOwnAt_range (f r : Z) (piece : value) (b : bool) :
  notOwnAt p f r piece = Ok b -> 0 <= f < 8 /\ 0 <= r < 8.
Proof.
  unfold notOwnAt. intros H. bind_inv H. bind_inv H.
  apply prop_defined in E0. destruct E0 as [x ->].
  eapply at_Some_range; eassumption.
Qed.

Lemma hasEnemyAt_range (f r : Z) (piece : value) :
  hasEnemyAt p f r piece = Ok true -> 0 <= f < 8 /\ 0 <= r < 8.
Proof.
  unfold hasEnemyAt. intros H. apply andM_true in H. destruct H as [_ H].
  eapply notOwnAt_range; eassumption.
Qed.

Lemma pushIf_Forall (P : Square -> Prop) (c : res bool) (square : Square)
  (moves moves' : list Square) :
  pushIf c square moves = Ok moves' ->
  (c = Ok true -> P square) ->
  Forall P moves -> Forall P moves'.
Proof.
  unfold pushIf. intros H Hc Hm. bind_inv H. injection H as <-.
  destruct a; [|assumption].
  apply Forall_app. split; [assumption|]. constructor; auto.
Qed.

Lemma foldM_Forall {A : Type} (P : Square -> Prop)
  (body : A -> list Square -> res (list Square)) (l : list A) :
  (forall x moves moves',
      body x moves = Ok moves' -> Forall P moves -> Forall P moves') ->
  forall moves moves',
    foldM body l moves = Ok moves' -> Forall P moves -> Forall P moves'.
Proof.
  intros Hbody. induction l as [|x l IH]; simpl; intros moves moves' H Hm.
  - injection H as <-. assumption.
  - bind_inv H. eapply IH; [eassumption|]. eapply Hbody; eassumption.
Qed.

Lemma walk_onBoard (piece : value) (cells : list (Z * Z)) (moves : list Square) :
  walk p piece cells = Ok moves -> Forall onBoard moves.
Proof.
  revert moves. induction cells as [|[f r] cells IH]; simpl; intros moves H.
  - injection H as <-. constructor.
  - bind_inv H. bind_inv H. bind_inv H.
    apply prop_defined in E0. destruct E0 as [x ->].
    pose proof (at_Some_range _ _ _ _ Hwf E) as [Hf Hr].
    destruct (a0 === a1).
    + injection H as <-. constructor.
    + destruct (Some x !== Some "ee").
      * injection H as <-. constructor; [|constructor].
        now apply onBoard_intro.
      * bind_inv H. injection H as <-. constructor; [|now apply IH].
        now apply onBoard_intro.
Qed.

End Destinations.

(** Turns a condition [c = Ok true] of a push into facts about the indices
    it read, and closes a goal [onBoard (squareFromFileRank f r)]. *)
Ltac push_ok Hwf :=
  let Hc := fresh "Hc" in
  intros Hc;
  repeat match goal with
    | H : _ &&& _ = Ok true |- _ => apply andM_true in H; destruct H
    end;
  repeat match goal with
    | H : isEmptyAt _ _ _ = Ok true |- _ => apply (isEmptyAt_range _ Hwf) in H
    | H : hasEnemyAt _ _ _ _ = Ok true |- _ => apply (hasEnemyAt_range _ Hwf) in H
    | H : notOwnAt _ _ _ _ = Ok _ |- _ => apply (notOwnAt_range _ Hwf) in H
    | H : Ok _ = Ok true |- _ => injection H as H
    | H : _ && _ = true |- _ => apply andb_prop in H; destruct H
    end;
  rewrite ?Z.gtb_ltb, ?Z.ltb_lt, ?Z.leb_le, ?Z.eqb_eq in *;
  apply onBoard_intro; lia.

Lemma pawn_moves_onBoard (s : GameState) (square : Square) (moves : list Square) :
  wf s -> getPawnPseudoLegalMoves s square = Ok moves -> Forall onBoard moves.
Proof.
  intros Hwf. unfold getPawnPseudoLegalMoves. intros H.
  bind_inv H. destruct (a === Some "ee"); [injection H as <-; constructor|].
  bind_inv H. pose proof E0 as Hd. apply prop_defined in Hd.
  destruct Hd as [x ->].
  pose proof (at_Some_range _ _ _ _ Hwf E) as [Hf Hr].
  destruct (a0 === Some "w").
  - bind_inv H. bind_inv H. bind_inv H. bind_inv H.
    eapply pushIf_Forall; [exact H|push_ok Hwf|].
    eapply pushIf_Forall; [exact E4|push_ok Hwf|].
    assert (Ha1 : Forall onBoard a1).
    { eapply pushIf_Forall; [exact E2|push_ok Hwf|].
      eapply pushIf_Forall; [exact E1|push_ok Hwf|]. constructor. }
    destruct (Z.eqb_spec (rankFromSquare square) 4) as [Hr4|Hr4].
    + bind_inv E3.
      eapply pushIf_Forall; [exact E3|push_ok Hwf|].
      eapply pushIf_Forall; [exact E5|push_ok Hwf|]. assumption.
    + injection E3 as <-. assumption.
  - bind_inv H. bind_inv H. bind_inv H. bind_inv H.
    eapply pushIf_Forall; [exact H|push_ok Hwf|].
    eapply pushIf_Forall; [exact E4|push_ok Hwf|].
    assert (Ha1 : Forall onBoard a1).
    { eapply pushIf_Forall; [exact E2|push_ok Hwf|].
      eapply pushIf_Forall; [exact E1|push_ok Hwf|]. constructor. }
    destruct (Z.eqb_spec (rankFromSquare square) 3) as [Hr3|Hr3].
    + bind_inv E3.
      eapply pushIf_Forall; [exact E3|push_ok Hwf|].
      eapply pushIf_Forall; [exact E5|push_ok Hwf|]. assumption.
    + injection E3 as <-. assumption.
Qed.

Lemma rook_moves_onBoard (s : GameState) (square : Square) (moves : list Square) :
  wf s -> getRookPseudoLegalMoves s square = Ok moves -> Forall onBoard moves.
Proof.
  intros Hwf. unfold getRookPseudoLegalMoves. intros H.
  bind_inv H. destruct (a === Some "ee"); [injection H as <-; constructor|].
  bind_inv H. bind_inv H. bind_inv H. bind_inv H. injection H as <-.
  repeat (apply Forall_app; split); eapply walk_onBoard; eassumption.
Qed.

Lemma bishop_moves_onBoard (s : GameState) (square : Square) (moves : list Square) :
  wf s -> getBishopPseudoLegalMoves s square = Ok moves -> Forall onBoard moves.
Proof.
  intros Hwf. unfold getBishopPseudoLegalMoves. intros H.
  bind_inv H. destruct (a === Some "ee"); [injection H as <-; constructor|].
  bind_inv H. bind_inv H. bind_inv H. bind_inv H. injection H as <-.
  repeat (apply Forall_app; split); eapply walk_onBoard; eassumption.
Qed.

Lemma queen_moves_onBoard (s : GameState) (square : Square) (moves : list Square) :
  wf s -> getQueenPseudoLegalMoves s square = Ok moves -> Forall onBoard moves.
Proof.
  intros Hwf. unfold getQueenPseudoLegalMoves. intros H.
  bind_inv H. bind_inv H. injection H as <-.
  apply Forall_app. split;
    [eapply rook_moves_onBoard | eapply bishop_moves_onBoard]; eassumption.
Qed.

Lemma knight_moves_onBoard (s : GameState) (square : Square) (moves : list Square) :
  wf s -> getKnightPseudoLegalMoves s square = Ok moves -> Forall onBoard moves.
Proof.
  intros Hwf. unfold getKnightPseudoLegalMoves. intros H.
  bind_inv H. destruct (a === Some "ee"); [injection H as <-; constructor|].
  do 7 bind_inv H.
  repeat match goal with
    | E : pushIf _ _ ?m = Ok ?m' |- Forall onBoard ?m' =>
        eapply pushIf_Forall; [exact E|push_ok Hwf|]
    end.
  constructor.
Qed.

Lemma king_moves_onBoard (s : GameState) (square : Square) (moves : list Square) :
  wf s -> getKingPseudoLegalMoves s square = Ok moves -> Forall onBoard moves.
Proof.
  intros Hwf. unfold getKingPseudoLegalMoves. intros H.
  bind_inv H. destruct (a === Some "ee"); [injection H as <-; constructor|].
  bind_inv H. bind_inv H. bind_inv H. bind_inv H.
  assert (Ha0 : Forall onBoard a0).
  { eapply foldM_Forall; [|exact E0|constructor].
    intros [i j] m m' Hb Hm.
    destruct ((i =? 0) && (j =? 0)); [injection Hb as <-; assumption|].
    eapply pushIf_Forall; [exact Hb|push_ok Hwf|assumption]. }
  repeat match goal with
    | E : pushIf _ _ ?m = Ok ?m' |- Forall onBoard ?m' =>
        eapply pushIf_Forall;
        [exact E|intros _; apply onBoard_intro; lia|]
    end.
  assumption.
Qed.

Lemma pseudo_moves_onBoard (s : GameState) (square : Square) (moves : list Square) :
  wf s -> getPseudoLegalMoves s square = Ok moves -> Forall onBoard moves.
Proof.
  intros Hwf. unfold getPseudoLegalMoves. intros H.
  bind_inv H. destruct (a === Some "ee"); [injection H as <-; constructor|].
  bind_inv H.
  repeat match type of H with
    | (if ?c then _ else _) = _ => destruct c
    end;
    eauto using pawn_moves_onBoard, rook_moves_onBoard, knight_moves_onBoard,
      bishop_moves_onBoard, queen_moves_onBoard, king_moves_onBoard.
  injection H as <-. constructor.
Qed.

(** A square with moves holds a piece. *)
Lemma pseudo_moves_from (s : GameState) (square : Square) (moves : list Square)
  (toSquare : Square) :
  getPseudoLegalMoves s square = Ok moves -> In toSquare moves ->
  exists piece, _getPieceOnSquare s square = Ok (Some piece).
Proof.
  unfold getPseudoLegalMoves. intros H Hin. bind_inv H.
  destruct (a === Some "ee"); [injection H as <-; destruct Hin|].
  bind_inv H. apply prop_defined in E0. destruct E0 as [x ->]. eauto.
Qed.

(** ** An accepted move is carried out *)

Lemma setPieceOnSquare_total (p : Position) (square : Square) (x : string) :
  wfPosition p ->
  0 <= fileFromSquare square < 8 -> 0 <= rankFromSquare square < 8 ->
  exists p', setPieceOnSquare p square x = Ok p' /\ wfPosition p'.
Proof.
  intros Hwf Hf Hr. unfold setPieceOnSquare.
  destruct (setEntry_in_range p _ _ x Hwf Hf Hr) as [p' Hp'].
  exists p'. split; [assumption|]. eapply setEntry_wf; eassumption.
Qed.

Lemma relocateRook_total (p : Position) (a d : ascii) (toSquare : Square) :
  wfPosition p ->
  0 <= Z.of_N (N_of_ascii a) - 97 < 8 ->
  0 <= Z.of_N (N_of_ascii d) - 97 < 8 ->
  0 <= rankFromSquare toSquare < 8 ->
  exists p',
    relocateRook p (String a "") (String d "") (idx toSquare 1) = Ok p'
    /\ wfPosition p'.
Proof.
  intros Hwf Ha Hd Hr. unfold relocateRook. simpl.
  assert (Hrank : forall c,
             rankFromSquare (String c (text (idx toSquare 1)))
             = rankFromSquare toSquare).
  { intros c. apply rank_of_second_char. lia. }
  destruct (at_in_range p (Z.of_N (N_of_ascii a) - 97) (rankFromSquare toSquare))
    as [rook Hrook]; try assumption.
  unfold pieceAt. rewrite Hrank. unfold fileFromSquare at 1. simpl.
  rewrite Hrook. simpl.
  destruct (setPieceOnSquare_total p (String d (text (idx toSquare 1))) rook)
    as (p1 & Hp1 & Hwf1); try assumption; [now rewrite Hrank|].
  rewrite Hp1. simpl.
  apply setPieceOnSquare_total; try assumption. now rewrite Hrank.
Qed.

Lemma moveIsPseudoLegal_true (s : GameState) (fromSquare toSquare : Square) :
  moveIsPseudoLegal s fromSquare toSquare = Ok true
  <-> pseudoLegalMove s fromSquare toSquare.
Proof.
  unfold moveIsPseudoLegal, pseudoLegalMove. split.
  - intros H. bind_inv H. injection H as H. apply includes_In in H. eauto.
  - intros (moves & -> & H). simpl. f_equal. now apply includes_In.
Qed.

Lemma moveIsLegal_true (s : GameState) (fromSquare toSquare : Square) :
  moveIsLegal s fromSquare toSquare = Ok true
  <-> legalMove s fromSquare toSquare.
Proof.
  unfold moveIsLegal, legalMove. split.
  - intros H. bind_inv H. injection H as H. apply includes_In in H. eauto.
  - intros (moves & -> & H). simpl. f_equal. now apply includes_In.
Qed.

Lemma executed_not_rejected (s : GameState) (fromSquare toSquare : Square)
  (s' : GameState) :
  moveIsPseudoLegal s fromSquare toSquare = Ok true ->
  playPseudoLegalMove s fromSquare toSquare = Ok s' ->
  executed s fromSquare toSquare s'.
Proof.
  intros Hg H. apply playPseudoLegalMove_inv in H.
  destruct H as [[H _]|H]; [congruence | assumption].
Qed.

Lemma playPseudoLegalMove_total (s : GameState) (fromSquare toSquare : Square) :
  wf s -> pseudoLegalMove s fromSquare toSquare ->
  exists s', playPseudoLegalMove s fromSquare toSquare = Ok s'
             /\ executed s fromSquare toSquare s'.
Proof.
  intros Hwf Hmove. pose proof Hmove as (moves & Hm & Hin).
  apply moveIsPseudoLegal_true in Hmove.
  destruct (pseudo_moves_from _ _ _ _ Hm Hin) as [piece Hfrom].
  pose proof (pseudo_moves_onBoard _ _ _ Hwf Hm) as Hall.
  rewrite Forall_forall in Hall. apply Hall, onBoard_cell in Hin.
  destruct Hin as [Htf Htr].
  pose proof (at_Some_range _ _ _ _ Hwf Hfrom) as [Hff Hfr].
  destruct (at_in_range _ _ _ Hwf Htf Htr) as [toPiece Hto].
  destruct (setPieceOnSquare_total (position s) toSquare piece Hwf Htf Htr)
    as (p0 & Hp0 & Hwf0).
  destruct (setPieceOnSquare_total p0 fromSquare "ee" Hwf0 Hff Hfr)
    as (p1 & Hp1 & Hwf1).
  assert (Hp2 : exists p2,
             (if (idx piece 1 === Some "p")
                 && (idx fromSquare 0 !== idx toSquare 0)
              then setPieceOnSquare p1
                     (text (idx toSquare 0) ++ text (idx fromSquare 1))%string
                     "ee"
              else Ok p1) = Ok p2 /\ wfPosition p2).
  { destruct ((idx piece 1 === Some "p")
              && (idx fromSquare 0 !== idx toSquare 0)); [|eauto].
    destruct (first_char_defined toSquare) as [c Hc]; [lia|].
    apply setPieceOnSquare_total; [assumption| |].
    - rewrite Hc. simpl. rewrite (file_of_first_char toSquare _ c Hc). lia.
    - rewrite Hc. simpl. unfold idx in Hc.
      destruct (String.get 0 toSquare); [|discriminate].
      injection Hc as <-. simpl. rewrite rank_of_second_char; lia. }
  destruct Hp2 as (p2 & Hp2 & Hwf2).
  assert (Hp3 : exists p3,
             (if (idx piece 1 === Some "k") && (idx toSquare 0 === Some "c")
              then relocateRook p2 "a" "d" (idx toSquare 1)
              else Ok p2) = Ok p3 /\ wfPosition p3).
  { destruct ((idx piece 1 === Some "k") && (idx toSquare 0 === Some "c"));
      [|eauto].
    apply relocateRook_total; try assumption; simpl; lia. }
  destruct Hp3 as (p3 & Hp3 & Hwf3).
  assert (Hp4 : exists p4,
             (if (idx piece 1 === Some "k") && (idx toSquare 0 === Some "g")
              then relocateRook p3 "h" "f" (idx toSquare 1)
              else Ok p3) = Ok p4 /\ wfPosition p4).
  { destruct ((idx piece 1 === Some "k") && (idx toSquare 0 === Some "g"));
      [|eauto].
    apply relocateRook_total; try assumption; simpl; lia. }
  destruct Hp4 as (p4 & Hp4 & Hwf4).
  assert (Hplay : exists s', playPseudoLegalMove s fromSquare toSquare = Ok s').
  { unfold playPseudoLegalMove. rewrite Hmove. cbn [bind negb].
    unfold _getPieceOnSquare, pieceAt in *. rewrite Hfrom, Hto.
    cbn [bind defined andM prop].
    destruct (Some toPiece !== Some "ee"); cbn [bind];
      rewrite Hp0; cbn [bind]; rewrite Hp1; cbn [bind];
      rewrite Hp2; cbn [bind]; rewrite Hp3; cbn [bind];
      rewrite Hp4; cbn [bind]; eauto. }
  destruct Hplay as [s' Hs']. exists s'. split; [assumption|].
  now apply executed_not_rejected.
Qed.

Lemma executed_changes_state (s : GameState) (fromSquare toSquare : Square)
  (s' : GameState) :
  executed s fromSquare toSquare s' -> s' <> s.
Proof.
  intros [] ->. destruct (String.eqb_spec (activeColor s) "w") as [E|E].
  - rewrite E in Hcolor. discriminate.
  - congruence.
Qed.

Lemma filterM_In {A : Type} (f : A -> res bool) (l r : list A) (x : A) :
  filterM f l = Ok r -> In x r -> In x l /\ f x = Ok true.
Proof.
  revert r. induction l as [|y l IH]; simpl; intros r H Hin.
  - injection H as <-. destruct Hin.
  - bind_inv H. bind_inv H. injection H as <-.
    destruct a.
    + destruct Hin as [<-|Hin]; [auto|].
      destruct (IH _ E0 Hin). auto.
    + destruct (IH _ E0 Hin). auto.
Qed.

(** The legal set is a part of the pseudo-legal set. *)
Lemma legalMove_pseudoLegalMove (s : GameState) (fromSquare toSquare : Square) :
  legalMove s fromSquare toSquare -> pseudoLegalMove s fromSquare toSquare.
Proof.
  intros (moves & H & Hin). unfold getLegalMoves in H. bind_inv H.
  exists a. split; [assumption|]. eapply filterM_In; eassumption.
Qed.

Lemma wf_initialState : wf initialState.
Proof.
  split; [reflexivity|]. repeat constructor.
Qed.

Lemma relocateRook_wf (p p' : Position) (a d : string) (r : value) :
  wfPosition p -> relocateRook p a d r = Ok p' -> wfPosition p'.
Proof.
  unfold relocateRook. intros Hwf H. bind_inv H.
  destruct a0 as [rook|]; [|discriminate]. bind_inv H.
  unfold setPieceOnSquare in *. eauto using setEntry_wf.
Qed.

Lemma executed_wf (s : GameState) (fromSquare toSquare : Square)
  (s' : GameState) :
  wf s -> executed s fromSquare toSquare s' -> wf s'.
Proof.
  unfold wf. intros Hwf []. rewrite Hposition. bind_inv Hp1.
  unfold setPieceOnSquare in *.
  assert (H1 : wfPosition p1) by eauto using setEntry_wf.
  assert (H2 : wfPosition p2).
  { destruct (_ && _) in Hp2; [eauto using setEntry_wf|].
    now injection Hp2 as <-. }
  assert (H3 : wfPosition p3).
  { destruct (_ && _) in Hp3; [eauto using relocateRook_wf|].
    now injection Hp3 as <-. }
  destruct (_ && _) in Hp4; [eauto using relocateRook_wf|].
  now injection Hp4 as <-.
Qed.

Lemma copy_position (p : Position) :
  wfPosition p -> firstn 8 (map (firstn 8) p) = p.
Proof.
  intros [Hp Hc]. rewrite firstn_all2 by (rewrite length_map; lia).
  clear Hp. induction Hc as [|column q Hcol _ IH]; [reflexivity|].
  cbn [map]. rewrite IH. f_equal. apply firstn_all2. lia.
Qed.

(** On an 8 by 8 board [copy] gives the state back. *)
Lemma copy_wf (s : GameState) : wf s -> copy s = s.
Proof.
  intros Hwf. unfold copy. rewrite (copy_position _ Hwf).
  destruct s; reflexivity.
Qed.

(** Every state the engine reaches has an 8 by 8 board. *)
Lemma reachable_wf (s : GameState) : reachable s -> wf s.
Proof.
  intros (cs & _ & H). revert H. generalize wf_initialState.
  generalize initialState. induction cs as [|c cs IH]; simpl; intros s0 Hwf H.
  - now injection H as <-.
  - bind_inv H. apply (IH a); [|assumption].
    apply exec_inv in E. destruct E as [->|E]; [assumption|].
    eapply executed_wf; eassumption.
Qed.

(** ** Execution does not look at the colour of the moved piece *)

(** C4: on every state, [playLegalMove] returns a changed state exactly when
    the destination is in the legal set of the source square, and
    [playPseudoLegalMove] exactly when it is in the pseudo-legal set; no
    condition on the colour of the moved piece appears.  In the initial
    position, with White active, the legal execution of e7-e6 moves Black's
    pawn and makes Black the active colour. *)
Theorem execution_ignores_active_color :
  (forall (s : GameState) (fromSquare toSquare : Square),
      wf s ->
      (legalMove s fromSquare toSquare <->
       exists s', playLegalMove s fromSquare toSquare = Ok s' /\ s' <> s)
      /\ (pseudoLegalMove s fromSquare toSquare <->
          exists s', playPseudoLegalMove s fromSquare toSquare = Ok s' /\ s' <> s))
  /\ activeColor initialState = "w"
  /\ squareHasPieceOfActivePlayer initialState "e7" = Ok false
  /\ playLegalMove initialState "e7" "e6" = Ok blackMovesFirst
  /\ pieceAt (position blackMovesFirst) "e7" = Ok (Some "ee")
  /\ pieceAt (position blackMovesFirst) "e6" = Ok (Some "bp")
  /\ activeColor blackMovesFirst = "b".
Proof.
  split; [|repeat split; vm_compute; reflexivity].
  intros s f t Hwf. split; split.
  - intros H. pose proof (legalMove_pseudoLegalMove _ _ _ H) as Hp.
    destruct (playPseudoLegalMove_total _ _ _ Hwf Hp) as (s' & Hs' & He).
    exists s'. split; [|eapply executed_changes_state; eassumption].
    apply moveIsLegal_true in H. unfold playLegalMove. now rewrite H.
  - intros (s' & H & Hne). apply playLegalMove_inv in H.
    destruct H as [[_ ->]|[H _]]; [congruence|]. now apply moveIsLegal_true.
  - intros H.
    destruct (playPseudoLegalMove_total _ _ _ Hwf H) as (s' & Hs' & He).
    exists s'. split; [assumption|]. eapply executed_changes_state; eassumption.
  - intros (s' & H & Hne). apply playPseudoLegalMove_inv in H.
    destruct H as [[_ ->]|[]]; [congruence|]. now apply moveIsPseudoLegal_true.
Qed.

(** Black's knight leaves g8 although White is the active colour. *)
Lemma execution_ignores_active_color_witness :
  squareHasPieceOfActivePlayer initialState "g8" = Ok false
  /\ exists s', playLegalMove initialState "g8" "f6" = Ok s'
                /\ s' <> initialState.
Proof.
  split; [vm_compute; reflexivity|].
  apply (proj1 (proj1 execution_ignores_active_color initialState "g8" "f6"
                  wf_initialState)).
  exists ["f6"; "h6"]. split; [vm_compute; reflexivity | simpl; auto].
Defined.

(** ** The removal of the pawn taken en passant *)

(** Whenever a pawn changes file, the execution empties the square on the
    destination's file and the source's rank: the test on line 515 does not
    look at what the destination held. *)
Lemma pawn_file_change_clears_side_square (s : GameState)
  (fromSquare toSquare : Square) (s' : GameState) (piece : string) :
  executed s fromSquare toSquare s' ->
  _getPieceOnSquare s fromSquare = Ok (Some piece) ->
  idx piece 1 = Some "p" ->
  idx fromSquare 0 <> idx toSquare 0 ->
  pieceAt (position s')
    (text (idx toSquare 0) ++ text (idx fromSquare 1))%string
  = Ok (Some "ee").
Proof.
  intros [] Hpiece Hk Hne. assert (piece0 = piece) as -> by congruence.
  rewrite Hposition. rewrite Hk in Hp2, Hp3, Hp4.
  simpl in Hp3, Hp4. injection Hp4 as <-. injection Hp3 as <-.
  destruct (idx fromSquare 0 === idx toSquare 0) eqn:E;
    [apply eqv_true in E; contradiction|].
  simpl in Hp2. eapply pieceAt_set_same; [eassumption | reflexivity].
Qed.

(** C1 at a concrete game (1. e4 d5 2. d4 a6 3. exd5): the pawn on e4 takes
    the pawn on d5, an occupied square and no en-passant target, and the
    execution also empties d4, the square on the destination's file and the
    source's rank, which held White's own pawn. *)
Theorem pawn_capture_clears_side_square :
  reachable beforeCapture
  /\ run beforeCaptureMoves initialState = Ok beforeCapture
  /\ twoSquarePawnMove beforeCapture = "-"
  /\ pieceAt (position beforeCapture) "e4" = Ok (Some "wp")
  /\ pieceAt (position beforeCapture) "d5" = Ok (Some "bp")
  /\ pieceAt (position beforeCapture) "d4" = Ok (Some "wp")
  /\ playLegalMove beforeCapture "e4" "d5" = Ok afterCapture
  /\ pieceAt (position afterCapture) "d5" = Ok (Some "wp")
  /\ pieceAt (position afterCapture) "e4" = Ok (Some "ee")
  /\ pieceAt (position afterCapture) "d4" = Ok (Some "ee").
Proof.
  split; [exists beforeCaptureMoves; split; vm_compute; reflexivity|].
  repeat split; vm_compute; reflexivity.
Qed.

(** ** Reads next to the edge of the board *)

Lemma at_off_rank (p : Position) (f r : Z) :
  wfPosition p -> 0 <= f < 8 -> ~ 0 <= r < 8 -> at_ p f r = Ok None.
Proof.
  intros Hwf Hf Hr. unfold at_.
  destruct (nthZ_in_range p f) as [column Ec]; [destruct Hwf; lia|].
  rewrite Ec. f_equal.
  destruct (nthZ column r) as [x|] eqn:Ex; [|reflexivity].
  apply nthZ_Some_range in Ex.
  rewrite (wfPosition_column _ _ _ Hwf Ec) in Ex. lia.
Qed.

(** The defect does not depend on the game: whenever a white piece that is
    not the empty marker stands on the last rank of an 8 by 8 board, the
    pawn generator raises on it, in the first attacking-move test that its
    file lets through. *)
Lemma white_pawn_on_last_rank_raises (s : GameState) (square : Square)
  (piece : string) :
  wf s ->
  _getPieceOnSquare s square = Ok (Some piece) ->
  piece <> "ee" -> idx piece 0 = Some "w" ->
  rankFromSquare square = 7 ->
  getPawnPseudoLegalMoves s square = Throw TypeError.
Proof.
  intros Hwf Hpiece Hne Hw Hr.
  pose proof (at_Some_range _ _ _ _ Hwf Hpiece) as [Hf _].
  unfold _getPieceOnSquare, pieceAt in Hpiece.
  unfold getPawnPseudoLegalMoves. rewrite Hpiece. cbn [bind].
  apply String.eqb_neq in Hne. cbn [eqv]. rewrite Hne.
  cbn [prop bind]. rewrite Hw. cbn [eqv String.eqb Ascii.eqb Bool.eqb].
  rewrite Hr. cbn [Z.eqb Z.ltb Z.compare Pos.compare Pos.compare_cont
                     andM bind pushIf].
  unfold hasEnemyAt, notOwnAt.
  destruct (Z.gtb_spec (fileFromSquare square) 0) as [Hpos|Hzero].
  - rewrite at_off_rank by (try assumption; lia). reflexivity.
  - cbn [andM bind pushIf].
    assert (E : (fileFromSquare square <? 7) = true) by (apply Z.ltb_lt; lia).
    rewrite E. rewrite at_off_rank by (try assumption; lia). reflexivity.
Qed.

(** C3 at a concrete game (1. a4 b5 2. axb5 h6 3. b6 h5 4. bxa7 h4 5. axb8):
    with a white pawn on b8, the attacking-move test of the pawn generator
    reads [position[0][8]], which is outside the array, and raises
    [TypeError]; so do the check test for Black and the legal moves of every
    black piece. *)
Theorem pawn_on_last_rank_reads_off_board :
  reachable pawnOnLastRank
  /\ run pawnOnLastRankMoves initialState = Ok pawnOnLastRank
  /\ pieceAt (position pawnOnLastRank) "b8" = Ok (Some "wp")
  /\ fileFromSquare "b8" = 1 /\ rankFromSquare "b8" = 7
  /\ at_ (position pawnOnLastRank) (1 - 1) (7 + 1) = Ok undefined
  /\ hasEnemyAt (position pawnOnLastRank) (1 - 1) (7 + 1) (Some "wp")
     = Throw TypeError
  /\ getPawnPseudoLegalMoves pawnOnLastRank "b8" = Throw TypeError
  /\ getPseudoLegalMoves pawnOnLastRank "b8" = Throw TypeError
  /\ kingIsInCheck pawnOnLastRank "b" = Throw TypeError
  /\ getLegalMoves pawnOnLastRank "h4" = Throw TypeError.
Proof.
  split; [exists pawnOnLastRankMoves; split; vm_compute; reflexivity|].
  repeat split; vm_compute; reflexivity.
Qed.

Lemma executed_of_play (s : GameState) (fromSquare toSquare : Square)
  (s' : GameState) :
  playLegalMove s fromSquare toSquare = Ok s'
  \/ playPseudoLegalMove s fromSquare toSquare = Ok s' ->
  s' <> s -> executed s fromSquare toSquare s'.
Proof.
  intros [H|H] Hne.
  - apply playLegalMove_inv in H. destruct H as [[_ ->]|[_ H]]; [congruence|].
    apply playPseudoLegalMove_inv in H.
    destruct H as [[_ ->]|H]; [congruence | assumption].
  - apply playPseudoLegalMove_inv in H.
    destruct H as [[_ ->]|H]; [congruence | assumption].
Qed.

(** ** King moves to the c-file and the g-file *)

(** C2: every executed king move whose destination is on the c-file leaves
    the a-file square of the destination's rank empty and puts on the d-file
    square of that rank what the a-file square held (the empty marker, if the
    king itself came from that a-file square); likewise with the h-file and
    the f-file for a destination on the g-file.  Nothing in the statement
    asks for a castle: an ordinary king step is enough. *)
Theorem king_move_to_c_or_g_file_relocates_rook
  (s : GameState) (fromSquare toSquare : Square) (s' : GameState)
  (piece kingFile rookFile besideFile : string) :
  (kingFile, rookFile, besideFile) = ("c", "a", "d")
  \/ (kingFile, rookFile, besideFile) = ("g", "h", "f") ->
  playLegalMove s fromSquare toSquare = Ok s'
  \/ playPseudoLegalMove s fromSquare toSquare = Ok s' ->
  s' <> s ->
  _getPieceOnSquare s fromSquare = Ok (Some piece) ->
  idx piece 1 = Some "k" ->
  idx toSquare 0 = Some kingFile ->
  let rookSquare := (rookFile ++ text (idx toSquare 1))%string in
  let besideSquare := (besideFile ++ text (idx toSquare 1))%string in
  pieceAt (position s') rookSquare = Ok (Some "ee")
  /\ pieceAt (position s') besideSquare
     = if sameCell rookSquare fromSquare then Ok (Some "ee")
       else pieceAt (position s) rookSquare.
Proof.
  intros Hfiles Hplay Hne Hfrom Hk Hto rookSquare besideSquare.
  subst rookSquare besideSquare.
  destruct (executed_of_play _ _ _ _ Hplay Hne).
  assert (piece0 = piece) as -> by congruence.
  rewrite Hposition. bind_inv Hp1.
  rewrite Hk in Hp2, Hp3, Hp4. simpl in Hp2. injection Hp2 as <-.
  assert (Hrook : forall rookSquare p,
             pieceAt p1 rookSquare = p ->
             fileFromSquare rookSquare <> fileFromSquare toSquare ->
             p = if sameCell rookSquare fromSquare then Ok (Some "ee")
                 else pieceAt (position s) rookSquare).
  { intros rookSquare p <- Hfile. destruct (sameCell rookSquare fromSquare) eqn:Ec.
    - apply cell_eq in Ec. eapply pieceAt_set_same; eassumption.
    - apply cell_neq in Ec. rewrite (pieceAt_set_other _ _ _ _ _ Hp1 Ec).
      apply (pieceAt_set_other _ _ _ _ _ E). unfold cell. congruence. }
  destruct Hfiles as [Hf|Hf]; injection Hf as -> -> ->;
    rewrite Hto in Hp3, Hp4; simpl in Hp3, Hp4;
    pose proof (file_of_idx _ _ Hto) as Hfile; simpl in Hfile.
  - injection Hp4 as <-.
    apply relocateRook_spec in Hp3; [|simpl; discriminate].
    destruct Hp3 as (Ha & Hd & _). split; [exact Ha|].
    apply Hrook; [now rewrite Hd | rewrite Hfile; discriminate].
  - injection Hp3 as <-.
    apply relocateRook_spec in Hp4; [|simpl; discriminate].
    destruct Hp4 as (Ha & Hd & _). split; [exact Ha|].
    apply Hrook; [now rewrite Hd | rewrite Hfile; discriminate].
Qed.

(** In the game 1. d4 a6 2. Be3 a5 3. Qd2 a4 4. Kd1 a3 5. Kc1 the king steps
    from d1 to c1, a plain one-square move made without any castling right,
    and the rook of a1 lands on d1. *)
Lemma king_move_to_c_or_g_file_relocates_rook_witness :
  reachable beforeKingStep
  /\ whiteCastleQueensideAvailable beforeKingStep = false
  /\ pieceAt (position beforeKingStep) "d1" = Ok (Some "wk")
  /\ pieceAt (position beforeKingStep) "a1" = Ok (Some "wr")
  /\ pieceAt (position afterKingStep) "a1" = Ok (Some "ee")
  /\ pieceAt (position afterKingStep) "d1" = Ok (Some "wr").
Proof.
  split; [exists beforeKingStepMoves; split; vm_compute; reflexivity|].
  split; [reflexivity|]. split; [reflexivity|]. split; [reflexivity|].
  apply (king_move_to_c_or_g_file_relocates_rook
           beforeKingStep "d1" "c1" afterKingStep "wk" "c" "a" "d").
  - left. reflexivity.
  - left. vm_compute. reflexivity.
  - vm_compute. discriminate.
  - reflexivity.
  - reflexivity.
  - reflexivity.
Defined.

(** ** The frame of an executed move *)

Lemma relocateRook_frame (p p' : Position) (a d : string) (r : value)
  (square : Square) :
  relocateRook p a d r = Ok p' ->
  fileFromSquare (d ++ text r) <> fileFromSquare (a ++ text r) ->
  cell square <> cell (d ++ text r)%string ->
  cell square <> cell (a ++ text r)%string ->
  pieceAt p' square = pieceAt p square.
Proof.
  intros H Hne. apply relocateRook_spec in H; [|assumption].
  destruct H as (_ & _ & H). apply H.
Qed.

(** A square that is neither the source nor among the overwritten ones holds
    after the move what it held before. *)
Lemma executed_frame (s : GameState) (fromSquare toSquare : Square)
  (s' : GameState) (square : Square) :
  executed s fromSquare toSquare s' ->
  cell square <> cell fromSquare ->
  (forall w, In w (overwritten s fromSquare toSquare) -> cell square <> cell w) ->
  pieceAt (position s') square = pieceAt (position s) square.
Proof.
  intros [] Hf Hw. rewrite Hposition. unfold overwritten in Hw.
  rewrite Hfrom in Hw. bind_inv Hp1.
  destruct ((idx piece 1 === Some "p") && (idx fromSquare 0 !== idx toSquare 0));
    destruct ((idx piece 1 === Some "k") && (idx toSquare 0 === Some "c"));
    destruct ((idx piece 1 === Some "k") && (idx toSquare 0 === Some "g"));
    repeat match goal with
      | H : Ok _ = Ok _ |- _ => injection H as <-
      | H : relocateRook _ _ _ _ = Ok ?q |- context [pieceAt ?q _] =>
          rewrite (relocateRook_frame _ _ _ _ _ _ H);
          [| simpl; discriminate | apply Hw; simpl; tauto
           | apply Hw; simpl; tauto]
      | H : setPieceOnSquare _ _ _ = Ok ?q |- context [pieceAt ?q _] =>
          rewrite (pieceAt_set_other _ _ _ _ _ H);
          [| first [exact Hf | apply Hw; simpl; tauto]]
      end;
    reflexivity.
Qed.

(** A king that moves stands on the destination afterwards. *)
Lemma executed_king_lands (s : GameState) (fromSquare toSquare : Square)
  (s' : GameState) (piece : string) :
  executed s fromSquare toSquare s' ->
  _getPieceOnSquare s fromSquare = Ok (Some piece) ->
  idx piece 1 = Some "k" ->
  cell toSquare <> cell fromSquare ->
  pieceAt (position s') toSquare = Ok (Some piece).
Proof.
  intros [] Hpiece Hk Hne. assert (piece0 = piece) as -> by congruence.
  rewrite Hposition. bind_inv Hp1.
  rewrite Hk in Hp2, Hp3, Hp4. simpl in Hp2. injection Hp2 as <-.
  assert (H1 : pieceAt p1 toSquare = Ok (Some piece)).
  { rewrite (pieceAt_set_other _ _ _ _ _ Hp1 Hne).
    eapply pieceAt_set_same; [eassumption | reflexivity]. }
  assert (Hfile : forall kf af df : ascii,
             (idx toSquare 0 === Some (String kf "")) = true ->
             Z.of_N (N_of_ascii kf) <> Z.of_N (N_of_ascii df) ->
             Z.of_N (N_of_ascii kf) <> Z.of_N (N_of_ascii af) ->
             cell toSquare <> cell (String df (text (idx toSquare 1)))
             /\ cell toSquare <> cell (String af (text (idx toSquare 1)))).
  { intros kf af df Hc Hd Ha. apply eqv_true, file_of_idx in Hc.
    unfold cell. rewrite Hc. unfold fileFromSquare. simpl.
    split; intros Heq; injection Heq as Heq _; lia. }
  simpl in Hp3, Hp4.
  destruct (idx toSquare 0 === Some "c") eqn:Ec.
  - destruct (Hfile _ "a"%char "d"%char Ec) as [Hd Ha]; [discriminate..|].
    assert (Eg : (idx toSquare 0 === Some "g") = false).
    { apply eqv_true in Ec. now rewrite Ec. }
    rewrite Eg in Hp4. injection Hp4 as <-.
    rewrite (relocateRook_frame _ _ _ _ _ _ Hp3); auto. simpl. discriminate.
  - injection Hp3 as <-. destruct (idx toSquare 0 === Some "g") eqn:Eg.
    + destruct (Hfile _ "h"%char "f"%char Eg) as [Hd Ha]; [discriminate..|].
      rewrite (relocateRook_frame _ _ _ _ _ _ Hp4); auto. simpl. discriminate.
    + injection Hp4 as <-. assumption.
Qed.

(** * Further properties of the engine *)

(** ** Loops over files and ranks *)

Lemma nth_error_seq_Some (a n k x : nat) :
  nth_error (seq a n) k = Some x -> x = (a + k)%nat /\ (k < n)%nat.
Proof.
  revert a k. induction n as [|n IH]; intros a [|k]; simpl; intros H;
    try discriminate.
  - injection H as <-. lia.
  - apply IH in H. lia.
Qed.

Lemma nth_error_seq_in (a n k : nat) :
  (k < n)%nat -> nth_error (seq a n) k = Some (a + k)%nat.
Proof.
  revert a k. induction n as [|n IH]; intros a [|k] H; simpl; try lia.
  - f_equal. lia.
  - rewrite IH by lia. f_equal. lia.
Qed.

Lemma nth_upFrom (x : Z) (k : nat) (y : Z) :
  nth_error (upFrom (x + 1)) k = Some y <->
  y = x + 1 * (Z.of_nat k + 1) /\ y < 8.
Proof.
  unfold upFrom. rewrite nth_error_map. split.
  - destruct (nth_error (seq 0 (Z.to_nat (8 - (x + 1)))) k) as [i|] eqn:E;
      [|discriminate].
    cbn [option_map]. intros H. injection H as <-.
    apply nth_error_seq_Some in E. destruct E as [-> E]. lia.
  - intros [-> H]. rewrite nth_error_seq_in by lia.
    cbn [option_map]. f_equal. lia.
Qed.

Lemma nth_downFrom (x : Z) (k : nat) (y : Z) :
  nth_error (downFrom (x - 1)) k = Some y <->
  y = x + -1 * (Z.of_nat k + 1) /\ 0 <= y.
Proof.
  unfold downFrom. rewrite nth_error_map. split.
  - destruct (nth_error (seq 0 (Z.to_nat (x - 1 + 1))) k) as [i|] eqn:E;
      [|discriminate].
    cbn [option_map]. intros H. injection H as <-.
    apply nth_error_seq_Some in E. destruct E as [-> E]. lia.
  - intros [-> H]. rewrite nth_error_seq_in by lia.
    cbn [option_map]. f_equal. lia.
Qed.

Lemma nth_error_combine {A B : Type} (l : list A) (l' : list B) (k : nat)
  (a : A) (b : B) :
  nth_error (combine l l') k = Some (a, b) <->
  nth_error l k = Some a /\ nth_error l' k = Some b.
Proof.
  revert l' k. induction l as [|x l IH]; intros [|y l'] [|k]; simpl;
    try (split; [discriminate | intros [? ?]; discriminate]).
  - split; [intros H; injection H as -> ->; auto|].
    intros [H1 H2]. injection H1 as ->. injection H2 as ->. reflexivity.
  - apply IH.
Qed.


(** ** Rays *)

Lemma eqv_false (a b : value) : (a === b) = false -> a <> b.
Proof.
  intros H E. subst. destruct b as [x|]; simpl in H; [|discriminate].
  rewrite String.eqb_refl in H. discriminate.
Qed.

Lemma eqv_refl (a : value) : (a === a) = true.
Proof. destruct a as [x|]; simpl; [apply String.eqb_refl | reflexivity]. Qed.

Lemma In_firstn_nth {A : Type} (l : list A) (n : nat) (x : A) :
  In x (firstn n l) <-> exists k, (k < n)%nat /\ nth_error l k = Some x.
Proof.
  revert n. induction l as [|y l IH]; intros [|n]; simpl.
  - split; [tauto | intros (k & H & _); lia].
  - split; [tauto | intros ([|k] & _ & H); discriminate].
  - split; [tauto | intros (k & H & _); lia].
  - rewrite IH. split.
    + intros [->|(k & Hk & H)].
      * exists 0%nat. split; [lia | reflexivity].
      * exists (S k). split; [lia | assumption].
    + intros ([|k] & Hk & H).
      * injection H as ->. auto.
      * right. exists k. split; [lia | assumption].
Qed.

(** What one loop of a rook or a bishop pushes: the squares of the first
    [n] cells of the loop, all empty but possibly the last, none starting
    with the colour of the piece; and the loop stops early only in front of
    a cell of that colour or behind a cell that is not empty. *)
Lemma walk_spec (p : Position) (piece : value) (cells : list (Z * Z))
  (moves : list Square) :
  walk p piece cells = Ok moves ->
  exists n : nat,
    (n <= List.length cells)%nat
    /\ moves = map squareOf (firstn n cells)
    /\ (forall j c, (S j < n)%nat -> nth_error cells j = Some c ->
                    emptyCell p c)
    /\ (forall j c, (j < n)%nat -> nth_error cells j = Some c ->
                    exists v own,
                      at_ p (fst c) (snd c) = Ok (Some v)
                      /\ prop piece 0 = Ok own
                      /\ (idx v 0 === own) = false)
    /\ ((n < List.length cells)%nat ->
        (exists c v own,
            nth_error cells n = Some c
            /\ at_ p (fst c) (snd c) = Ok (Some v)
            /\ prop piece 0 = Ok own
            /\ (idx v 0 === own) = true)
        \/ (exists m c v,
               n = S m /\ nth_error cells m = Some c
               /\ at_ p (fst c) (snd c) = Ok (Some v) /\ v <> "ee")).
Proof.
  revert moves. induction cells as [|[f r] cells IH]; intros moves H.
  - simpl in H. injection H as <-. exists 0%nat. simpl.
    repeat split; try lia; intros; lia.
  - cbn [walk] in H. bind_inv H. bind_inv H. bind_inv H.
    pose proof E0 as Hv. apply prop_defined in Hv. destruct Hv as [x ->].
    simpl in E0. injection E0 as <-.
    destruct (idx x 0 === a1) eqn:Eown.
    + injection H as <-. exists 0%nat. simpl.
      split; [lia|]. split; [reflexivity|].
      split; [intros; lia|]. split; [intros; lia|].
      intros _. left. exists (f, r), x, a1. auto.
    + change (Some x !== Some "ee") with (negb (x =? "ee")%string) in H.
      destruct (String.eqb_spec x "ee") as [->|Hx]; cbn [negb] in H.
      * bind_inv H. injection H as <-.
        destruct (IH _ E0) as (n & Hn & Hm & He & Ho & Hs).
        exists (S n). simpl. split; [lia|]. split; [now rewrite Hm|].
        split; [|split].
        -- intros [|j] c Hj Hc; simpl in Hc.
           ++ injection Hc as <-. exact E.
           ++ apply (He j); [lia | assumption].
        -- intros [|j] c Hj Hc; simpl in Hc.
           ++ injection Hc as <-. exists "ee", a1. auto.
           ++ apply (Ho j); [lia | assumption].
        -- intros Hlt. destruct Hs as [Hs|(m & c & v & -> & Hs)]; [lia| |].
           ++ left. exact Hs.
           ++ right. exists (S m), c, v. auto.
      * injection H as <-. exists 1%nat. simpl.
        split; [lia|]. split; [reflexivity|].
        split; [intros; lia|]. split.
        -- intros [|j] c Hj Hc; [|lia]. simpl in Hc. injection Hc as <-.
           exists x, a1. auto.
        -- intros _. right. exists 0%nat, (f, r), x. auto.
Qed.

(** The moves of one loop whose cells form the ray of direction
    [(df, dr)]. *)
Lemma walk_ray (p : Position) (piece : string) (file rank df dr : Z)
  (cells : list (Z * Z)) (moves : list Square) (toSquare : Square) :
  (forall k c, nth_error cells k = Some c -> c = rayCell file rank df dr k) ->
  walk p (Some piece) cells = Ok moves ->
  In toSquare moves ->
  exists k,
    toSquare = squareOf (rayCell file rank df dr k)
    /\ (forall j, (j < k)%nat -> emptyCell p (rayCell file rank df dr j))
    /\ notOwnCell p piece (rayCell file rank df dr k).
Proof.
  intros Hcells H Hin. apply walk_spec in H.
  destruct H as (n & Hn & -> & He & Ho & _).
  apply in_map_iff in Hin. destruct Hin as (c & <- & Hin).
  apply In_firstn_nth in Hin. destruct Hin as (k & Hk & Hc).
  exists k. rewrite <- (Hcells _ _ Hc). split; [reflexivity|]. split.
  - intros j Hj.
    destruct (nth_error cells j) as [cj|] eqn:Ej.
    + rewrite <- (Hcells _ _ Ej). apply (He j); [lia | assumption].
    + apply nth_error_None in Ej. lia.
  - destruct (Ho _ _ Hk Hc) as (v & own & Hv & Hown & Hne).
    simpl in Hown. injection Hown as <-.
    exists v. split; [assumption|]. now apply eqv_false.
Qed.

Ltac ray_cells :=
  let k := fresh "k" in
  let c := fresh "c" in
  let H := fresh "H" in
  intros k [? ?] H;
  first
    [ rewrite nth_error_map in H;
      match type of H with
      | option_map _ ?o = _ =>
          let y := fresh "y" in
          let E := fresh "E" in
          destruct o as [y|] eqn:E; [|discriminate];
          cbn [option_map] in H; injection H as <- <-;
          first [apply nth_upFrom in E | apply nth_downFrom in E]
      end
    | apply nth_error_combine in H;
      let H1 := fresh "H" in
      let H2 := fresh "H" in
      destruct H as [H1 H2];
      first [apply nth_upFrom in H1 | apply nth_downFrom in H1];
      first [apply nth_upFrom in H2 | apply nth_downFrom in H2] ];
  unfold rayCell; f_equal; lia.

Lemma rook_ray (s : GameState) (square : Square) (moves : list Square)
  (toSquare : Square) :
  getRookPseudoLegalMoves s square = Ok moves ->
  In toSquare moves ->
  exists piece df dr k,
    _getPieceOnSquare s square = Ok (Some piece)
    /\ In (df, dr) rookDirections
    /\ toSquare = squareOf (rayCell (fileFromSquare square)
                              (rankFromSquare square) df dr k)
    /\ (forall j, (j < k)%nat ->
                  emptyCell (position s)
                    (rayCell (fileFromSquare square) (rankFromSquare square)
                       df dr j))
    /\ notOwnCell (position s) piece
         (rayCell (fileFromSquare square) (rankFromSquare square) df dr k).
Proof.
  unfold getRookPseudoLegalMoves. intros H Hin. bind_inv H.
  destruct (a === Some "ee"); [injection H as <-; destruct Hin|].
  bind_inv H. bind_inv H. bind_inv H. bind_inv H. injection H as <-.
  destruct a as [piece|].
  2:{ assert (Hnil : forall cells l, walk (position s) None cells = Ok l ->
                                     l = []).
      { intros [|[f r] cells] l Hl; simpl in Hl; [now injection Hl|].
        bind_inv Hl. bind_inv Hl. discriminate. }
      rewrite (Hnil _ _ E0), (Hnil _ _ E1), (Hnil _ _ E2), (Hnil _ _ E3) in Hin.
      destruct Hin. }
  exists piece.
  repeat (apply in_app_or in Hin; destruct Hin as [Hin|Hin]);
    [exists 1, 0 | exists (-1), 0 | exists 0, 1 | exists 0, (-1)];
    match goal with
    | Ew : walk _ _ _ = Ok ?l, H : In _ ?l |- exists k : nat, _ /\ In (?df, ?dr) _ /\ _ =>
        let Hray := fresh "Hray" in
        pose proof (fun Hc => walk_ray _ _ (fileFromSquare square)
                                (rankFromSquare square) df dr _ _ _ Hc Ew H)
          as Hray;
        destruct Hray as (k & Hk); [ray_cells|];
        exists k; split; [exact E|]; split; [simpl; tauto | exact Hk]
    end.
Qed.

Lemma bishop_ray (s : GameState) (square : Square) (moves : list Square)
  (toSquare : Square) :
  getBishopPseudoLegalMoves s square = Ok moves ->
  In toSquare moves ->
  exists piece df dr k,
    _getPieceOnSquare s square = Ok (Some piece)
    /\ In (df, dr) bishopDirections
    /\ toSquare = squareOf (rayCell (fileFromSquare square)
                              (rankFromSquare square) df dr k)
    /\ (forall j, (j < k)%nat ->
                  emptyCell (position s)
                    (rayCell (fileFromSquare square) (rankFromSquare square)
                       df dr j))
    /\ notOwnCell (position s) piece
         (rayCell (fileFromSquare square) (rankFromSquare square) df dr k).
Proof.
  unfold getBishopPseudoLegalMoves. intros H Hin. bind_inv H.
  destruct (a === Some "ee"); [injection H as <-; destruct Hin|].
  bind_inv H. bind_inv H. bind_inv H. bind_inv H. injection H as <-.
  destruct a as [piece|].
  2:{ assert (Hnil : forall cells l, walk (position s) None cells = Ok l ->
                                     l = []).
      { intros [|[f r] cells] l Hl; simpl in Hl; [now injection Hl|].
        bind_inv Hl. bind_inv Hl. discriminate. }
      rewrite (Hnil _ _ E0), (Hnil _ _ E1), (Hnil _ _ E2), (Hnil _ _ E3) in Hin.
      destruct Hin. }
  exists piece.
  repeat (apply in_app_or in Hin; destruct Hin as [Hin|Hin]);
    [exists 1, 1 | exists 1, (-1) | exists (-1), (-1) | exists (-1), 1];
    match goal with
    | Ew : walk _ _ _ = Ok ?l, H : In _ ?l |- exists k : nat, _ /\ In (?df, ?dr) _ /\ _ =>
        let Hray := fresh "Hray" in
        pose proof (fun Hc => walk_ray _ _ (fileFromSquare square)
                                (rankFromSquare square) df dr _ _ _ Hc Ew H)
          as Hray;
        destruct Hray as (k & Hk); [ray_cells|];
        exists k; split; [exact E|]; split; [simpl; tauto | exact Hk]
    end.
Qed.

(** A loop pushes every square of its ray up to the first cell that is not
    empty, that cell included unless it starts with the colour of the
    piece. *)
Lemma walk_ray_complete (p : Position) (piece : string) (file rank df dr : Z)
  (cells : list (Z * Z)) (moves : list Square) (k : nat) :
  (forall j c, nth_error cells j = Some c -> c = rayCell file rank df dr j) ->
  nth_error cells k = Some (rayCell file rank df dr k) ->
  walk p (Some piece) cells = Ok moves ->
  idx piece 0 <> Some "e" ->
  (forall j, (j < k)%nat -> emptyCell p (rayCell file rank df dr j)) ->
  notOwnCell p piece (rayCell file rank df dr k) ->
  In (squareOf (rayCell file rank df dr k)) moves.
Proof.
  intros Hcells Hk H Hcolor Hempty (v & Hv & Hne). apply walk_spec in H.
  destruct H as (n & Hn & -> & _ & _ & Hstop).
  apply in_map. apply In_firstn_nth. exists k. split; [|assumption].
  destruct (Nat.lt_ge_cases k n) as [Hlt|Hge]; [assumption|exfalso].
  assert (Hlen : (k < List.length cells)%nat).
  { apply nth_error_Some. congruence. }
  destruct Hstop as [(c & w & own & Hc & Hw & Hown & Heq)
                    |(m & c & w & -> & Hc & Hw & Hfull)]; [lia| |].
  - simpl in Hown. injection Hown as <-. apply eqv_true in Heq.
    pose proof (Hcells _ _ Hc) as ->.
    destruct (Nat.eq_dec n k) as [->|Hnk].
    + rewrite Hv in Hw. injection Hw as <-. contradiction.
    + assert (He : emptyCell p (rayCell file rank df dr n)) by (apply Hempty; lia).
      unfold emptyCell in He. rewrite He in Hw. injection Hw as <-.
      apply Hcolor. symmetry. exact Heq.
  - pose proof (Hcells _ _ Hc) as ->.
    assert (He : emptyCell p (rayCell file rank df dr m)) by (apply Hempty; lia).
    unfold emptyCell in He. rewrite He in Hw. injection Hw as <-.
    contradiction.
Qed.

(** The cell [k] of a ray that stays on the board is the cell [k] of the
    loop. *)
Ltac ray_cell_in :=
  unfold rayCell in *; cbn [fst snd] in *;
  first
    [ rewrite nth_error_map;
      match goal with
      | |- option_map _ (nth_error (upFrom (?x + 1)) ?k) = _ =>
          let Hn := fresh "Hn" in
          assert (Hn : nth_error (upFrom (x + 1)) k
                       = Some (x + 1 * (Z.of_nat k + 1)))
            by (apply nth_upFrom; lia);
          rewrite Hn
      | |- option_map _ (nth_error (downFrom (?x - 1)) ?k) = _ =>
          let Hn := fresh "Hn" in
          assert (Hn : nth_error (downFrom (x - 1)) k
                       = Some (x + -1 * (Z.of_nat k + 1)))
            by (apply nth_downFrom; lia);
          rewrite Hn
      end;
      cbn [option_map]; f_equal; f_equal; lia
    | apply nth_error_combine; split;
      first [apply nth_upFrom | apply nth_downFrom]; lia ].

Lemma notOwnCell_range (p : Position) (piece : string) (c : Z * Z) :
  wfPosition p -> notOwnCell p piece c ->
  0 <= fst c < 8 /\ 0 <= snd c < 8.
Proof.
  intros Hwf (v & Hv & _). eapply at_Some_range; eassumption.
Qed.

Lemma colour_not_empty (piece : string) :
  idx piece 0 <> Some "e" -> (Some piece === Some "ee") = false.
Proof.
  intros H. simpl. apply String.eqb_neq. intros ->. now apply H.
Qed.

Lemma rook_ray_complete (s : GameState) (square : Square)
  (moves : list Square) (piece : string) (df dr : Z) (k : nat) :
  wf s ->
  getRookPseudoLegalMoves s square = Ok moves ->
  _getPieceOnSquare s square = Ok (Some piece) ->
  idx piece 0 <> Some "e" ->
  In (df, dr) rookDirections ->
  (forall j, (j < k)%nat ->
             emptyCell (position s)
               (rayCell (fileFromSquare square) (rankFromSquare square) df dr j)) ->
  notOwnCell (position s) piece
    (rayCell (fileFromSquare square) (rankFromSquare square) df dr k) ->
  In (squareOf (rayCell (fileFromSquare square) (rankFromSquare square) df dr k))
     moves.
Proof.
  intros Hwf H Hpiece Hcolor Hdir Hempty Hto.
  pose proof (notOwnCell_range _ _ _ Hwf Hto) as Hrange.
  unfold getRookPseudoLegalMoves in H.
  unfold _getPieceOnSquare, pieceAt in Hpiece. rewrite Hpiece in H.
  cbn [bind] in H. rewrite (colour_not_empty _ Hcolor) in H.
  bind_inv H. bind_inv H. bind_inv H. bind_inv H. injection H as <-.
  rewrite !in_app_iff.
  destruct Hdir as [Hd|[Hd|[Hd|[Hd|[]]]]]; injection Hd as <- <-;
    [left | right; left | right; right; left | right; right; right];
    match goal with
    | Ew : walk _ _ ?cells = Ok ?l |- In (squareOf (rayCell _ _ ?df ?dr _)) ?l =>
        apply (walk_ray_complete (position s) piece (fileFromSquare square)
                 (rankFromSquare square) df dr cells l k);
        [ray_cells | ray_cell_in | exact Ew | assumption..]
    end.
Qed.

Lemma bishop_ray_complete (s : GameState) (square : Square)
  (moves : list Square) (piece : string) (df dr : Z) (k : nat) :
  wf s ->
  getBishopPseudoLegalMoves s square = Ok moves ->
  _getPieceOnSquare s square = Ok (Some piece) ->
  idx piece 0 <> Some "e" ->
  In (df, dr) bishopDirections ->
  (forall j, (j < k)%nat ->
             emptyCell (position s)
               (rayCell (fileFromSquare square) (rankFromSquare square) df dr j)) ->
  notOwnCell (position s) piece
    (rayCell (fileFromSquare square) (rankFromSquare square) df dr k) ->
  In (squareOf (rayCell (fileFromSquare square) (rankFromSquare square) df dr k))
     moves.
Proof.
  intros Hwf H Hpiece Hcolor Hdir Hempty Hto.
  pose proof (notOwnCell_range _ _ _ Hwf Hto) as Hrange.
  unfold getBishopPseudoLegalMoves in H.
  unfold _getPieceOnSquare, pieceAt in Hpiece. rewrite Hpiece in H.
  cbn [bind] in H. rewrite (colour_not_empty _ Hcolor) in H.
  bind_inv H. bind_inv H. bind_inv H. bind_inv H. injection H as <-.
  rewrite !in_app_iff.
  destruct Hdir as [Hd|[Hd|[Hd|[Hd|[]]]]]; injection Hd as <- <-;
    [left | right; left | right; right; left | right; right; right];
    match goal with
    | Ew : walk _ _ ?cells = Ok ?l |- In (squareOf (rayCell _ _ ?df ?dr _)) ?l =>
        apply (walk_ray_complete (position s) piece (fileFromSquare square)
                 (rankFromSquare square) df dr cells l k);
        [ray_cells | ray_cell_in | exact Ew | assumption..]
    end.
Qed.

(** X1: on an 8 by 8 board the rook generator returns exactly the squares
    reached from the source along one of the four straight directions over
    empty squares only, the last of which may also hold a piece of another
    colour: a rook never jumps over a piece, never lands on a piece of its
    own colour, and no such square is left out. *)
Theorem rook_moves_are_rays (s : GameState) (square : Square)
  (moves : list Square) (piece : string) (toSquare : Square) :
  wf s ->
  getRookPseudoLegalMoves s square = Ok moves ->
  _getPieceOnSquare s square = Ok (Some piece) ->
  idx piece 0 <> Some "e" ->
  (In toSquare moves <->
   exists df dr k,
     In (df, dr) rookDirections
     /\ toSquare = squareOf (rayCell (fileFromSquare square)
                               (rankFromSquare square) df dr k)
     /\ (forall j, (j < k)%nat ->
                   emptyCell (position s)
                     (rayCell (fileFromSquare square) (rankFromSquare square)
                        df dr j))
     /\ notOwnCell (position s) piece
          (rayCell (fileFromSquare square) (rankFromSquare square) df dr k)).
Proof.
  intros Hwf H Hpiece Hcolor. split.
  - intros Hin.
    destruct (rook_ray _ _ _ _ H Hin) as (x & df & dr & k & Hx & Hk).
    assert (x = piece) as -> by congruence. exists df, dr, k. exact Hk.
  - intros (df & dr & k & Hd & -> & He & Hn).
    eapply rook_ray_complete; eassumption.
Qed.

(** After 1. e4 d5 2. d4 a6 the rook on a8 can go to a7 and nowhere else:
    a7 is the first square of the ray that goes down the file. *)
Lemma rook_moves_are_rays_witness :
  getRookPseudoLegalMoves beforeCapture "a8" = Ok ["a7"]
  /\ exists df dr k,
       In (df, dr) rookDirections
       /\ "a7" = squareOf (rayCell 0 7 df dr k)
       /\ (forall j, (j < k)%nat ->
                     emptyCell (position beforeCapture) (rayCell 0 7 df dr j))
       /\ notOwnCell (position beforeCapture) "br" (rayCell 0 7 df dr k).
Proof.
  split; [vm_compute; reflexivity|].
  apply (proj1 (rook_moves_are_rays beforeCapture "a8" ["a7"] "br" "a7"
                  ltac:(split; [reflexivity | repeat constructor])
                  ltac:(vm_compute; reflexivity)
                  ltac:(vm_compute; reflexivity)
                  ltac:(discriminate))).
  simpl. auto.
Defined.

(** X2: the same for the bishop generator and the four diagonal
    directions. *)
Theorem bishop_moves_are_rays (s : GameState) (square : Square)
  (moves : list Square) (piece : string) (toSquare : Square) :
  wf s ->
  getBishopPseudoLegalMoves s square = Ok moves ->
  _getPieceOnSquare s square = Ok (Some piece) ->
  idx piece 0 <> Some "e" ->
  (In toSquare moves <->
   exists df dr k,
     In (df, dr) bishopDirections
     /\ toSquare = squareOf (rayCell (fileFromSquare square)
                               (rankFromSquare square) df dr k)
     /\ (forall j, (j < k)%nat ->
                   emptyCell (position s)
                     (rayCell (fileFromSquare square) (rankFromSquare square)
                        df dr j))
     /\ notOwnCell (position s) piece
          (rayCell (fileFromSquare square) (rankFromSquare square) df dr k)).
Proof.
  intros Hwf H Hpiece Hcolor. split.
  - intros Hin.
    destruct (bishop_ray _ _ _ _ H Hin) as (x & df & dr & k & Hx & Hk).
    assert (x = piece) as -> by congruence. exists df, dr, k. exact Hk.
  - intros (df & dr & k & Hd & -> & He & Hn).
    eapply bishop_ray_complete; eassumption.
Qed.

(** After 1. e4 a6 2. e5 d5 the bishop on f1 reaches a6, where it takes the
    pawn, over the empty squares e2, d3, c4 and b5. *)
Lemma bishop_moves_are_rays_witness :
  getBishopPseudoLegalMoves enPassantReady "f1"
  = Ok ["e2"; "d3"; "c4"; "b5"; "a6"]
  /\ exists df dr k,
       In (df, dr) bishopDirections
       /\ "a6" = squareOf (rayCell 5 0 df dr k)
       /\ (forall j, (j < k)%nat ->
                     emptyCell (position enPassantReady) (rayCell 5 0 df dr j))
       /\ notOwnCell (position enPassantReady) "wb" (rayCell 5 0 df dr k).
Proof.
  split; [vm_compute; reflexivity|].
  apply (proj1 (bishop_moves_are_rays enPassantReady "f1"
                  ["e2"; "d3"; "c4"; "b5"; "a6"] "wb" "a6"
                  ltac:(split; [reflexivity | repeat constructor])
                  ltac:(vm_compute; reflexivity)
                  ltac:(vm_compute; reflexivity)
                  ltac:(discriminate))).
  simpl. auto 6.
Defined.

(** X3: the queen generator returns the rook moves followed by the bishop
    moves of the square, so exactly the squares of the rays in the eight
    directions. *)
Theorem queen_moves_are_rays (s : GameState) (square : Square)
  (moves : list Square) (piece : string) (toSquare : Square) :
  wf s ->
  getQueenPseudoLegalMoves s square = Ok moves ->
  _getPieceOnSquare s square = Ok (Some piece) ->
  idx piece 0 <> Some "e" ->
  (In toSquare moves <->
   exists df dr k,
     In (df, dr) (rookDirections ++ bishopDirections)
     /\ toSquare = squareOf (rayCell (fileFromSquare square)
                               (rankFromSquare square) df dr k)
     /\ (forall j, (j < k)%nat ->
                   emptyCell (position s)
                     (rayCell (fileFromSquare square) (rankFromSquare square)
                        df dr j))
     /\ notOwnCell (position s) piece
          (rayCell (fileFromSquare square) (rankFromSquare square) df dr k)).
Proof.
  intros Hwf H Hpiece Hcolor. unfold getQueenPseudoLegalMoves in H.
  bind_inv H. bind_inv H. injection H as <-. rewrite in_app_iff. split.
  - intros [Hin|Hin].
    + destruct (rook_ray _ _ _ _ E Hin) as (x & df & dr & k & Hx & Hd & Hk).
      assert (x = piece) as -> by congruence. exists df, dr, k.
      split; [apply in_or_app; now left | exact Hk].
    + destruct (bishop_ray _ _ _ _ E0 Hin) as (x & df & dr & k & Hx & Hd & Hk).
      assert (x = piece) as -> by congruence. exists df, dr, k.
      split; [apply in_or_app; now right | exact Hk].
  - intros (df & dr & k & Hd & -> & He & Hn).
    apply in_app_or in Hd. destruct Hd as [Hd|Hd].
    + left. eapply rook_ray_complete; eassumption.
    + right. eapply bishop_ray_complete; eassumption.
Qed.

(** After 1. e4 a6 2. e5 d5 and the queen's step to d6, the queen can take
    the pawn on e5, the first square of the ray down to the right. *)
Lemma queen_moves_are_rays_witness :
  exists df dr k,
    In (df, dr) (rookDirections ++ bishopDirections)
    /\ "e5" = squareOf (rayCell 3 5 df dr k)
    /\ (forall j, (j < k)%nat ->
                  emptyCell (position queenOnD6) (rayCell 3 5 df dr j))
    /\ notOwnCell (position queenOnD6) "bq" (rayCell 3 5 df dr k).
Proof.
  apply (proj1 (queen_moves_are_rays queenOnD6 "d6"
                  ["e6"; "f6"; "g6"; "h6"; "c6"; "b6"; "d7"; "d8";
                   "e5"; "c5"; "b4"; "a3"]
                  "bq" "e5"
                  ltac:(split; [reflexivity | repeat constructor])
                  ltac:(vm_compute; reflexivity)
                  ltac:(vm_compute; reflexivity)
                  ltac:(discriminate))).
  simpl. auto 20.
Defined.

(** ** Pushes *)

Lemma pushIf_In (c : res bool) (square : Square) (moves moves' : list Square)
  (toSquare : Square) :
  pushIf c square moves = Ok moves' ->
  (In toSquare moves' <-> In toSquare moves \/ (c = Ok true /\ toSquare = square)).
Proof.
  unfold pushIf. intros H. bind_inv H. injection H as <-. subst c.
  destruct a.
  - rewrite in_app_iff. simpl. intuition congruence.
  - intuition congruence.
Qed.

Lemma pushIf_keep (c : res bool) (square : Square) (moves moves' : list Square)
  (toSquare : Square) :
  pushIf c square moves = Ok moves' -> In toSquare moves -> In toSquare moves'.
Proof.
  intros H Hin. apply (pushIf_In _ _ _ _ toSquare H). now left.
Qed.

Lemma pushIf_new (c : res bool) (square : Square) (moves moves' : list Square)
  (toSquare : Square) :
  pushIf c square moves = Ok moves' -> c = Ok true -> toSquare = square ->
  In toSquare moves'.
Proof.
  intros H Hc Hsq. apply (pushIf_In _ _ _ _ toSquare H). now right.
Qed.

Lemma andM_true_iff (a b : res bool) :
  a &&& b = Ok true <-> a = Ok true /\ b = Ok true.
Proof.
  split; [apply andM_true|]. intros [-> ->]. reflexivity.
Qed.

Lemma isEmptyAt_true_iff (p : Position) (f r : Z) :
  isEmptyAt p f r = Ok true <-> emptyCell p (f, r).
Proof.
  unfold isEmptyAt, emptyCell. simpl. split.
  - intros H. bind_inv H. injection H as H. apply eqv_true in H. now subst.
  - intros ->. reflexivity.
Qed.

Lemma notOwnAt_true_iff (p : Position) (f r : Z) (piece : string) :
  notOwnAt p f r (Some piece) = Ok true <-> notOwnCell p piece (f, r).
Proof.
  unfold notOwnAt, notOwnCell. simpl. split.
  - intros H. bind_inv H. bind_inv H.
    apply prop_defined in E0 as Hd. destruct Hd as [v ->].
    simpl in E0. injection E0 as <-. injection H as H.
    exists v. split; [assumption|].
    apply eqv_false. now destruct (idx v 0 === idx piece 0).
  - intros (v & -> & Hne). simpl. f_equal.
    destruct (idx v 0 === idx piece 0) eqn:E; [|reflexivity].
    apply eqv_true in E. contradiction.
Qed.

Lemma hasEnemyAt_true_iff (p : Position) (f r : Z) (piece : string) :
  hasEnemyAt p f r (Some piece) = Ok true <-> enemyCell p piece (f, r).
Proof.
  unfold hasEnemyAt. rewrite andM_true_iff, notOwnAt_true_iff.
  unfold notOwnCell, enemyCell. simpl. split.
  - intros [H (v & Hv & Hne)]. rewrite Hv in H. simpl in H.
    injection H as H. exists v. split; [assumption|]. split; [|assumption].
    intros ->. discriminate.
  - intros (v & Hv & Hee & Hne). split; [|eauto].
    rewrite Hv. simpl. f_equal. apply String.eqb_neq in Hee. now rewrite Hee.
Qed.

Lemma notOwnCell_eq (p : Position) (piece : string) (f r f' r' : Z) :
  f = f' -> r = r' -> notOwnCell p piece (f, r) -> notOwnCell p piece (f', r').
Proof. intros -> ->. auto. Qed.

Lemma enemyCell_eq (p : Position) (piece : string) (f r f' r' : Z) :
  f = f' -> r = r' -> enemyCell p piece (f, r) -> enemyCell p piece (f', r').
Proof. intros -> ->. auto. Qed.

Lemma emptyCell_eq (p : Position) (f r f' r' : Z) :
  f = f' -> r = r' -> emptyCell p (f, r) -> emptyCell p (f', r').
Proof. intros -> ->. auto. Qed.

Lemma square_eq (f r f' r' : Z) :
  f = f' -> r = r' -> squareFromFileRank f r = squareFromFileRank f' r'.
Proof. intros -> ->. reflexivity. Qed.

(** Turns the conditions of the pushes into facts about cells. *)
Ltac cond_facts :=
  repeat match goal with
    | H : _ &&& _ = Ok true |- _ => apply andM_true in H; destruct H
    | H : isEmptyAt _ _ _ = Ok true |- _ => apply isEmptyAt_true_iff in H
    | H : notOwnAt _ _ _ (Some _) = Ok true |- _ => apply notOwnAt_true_iff in H
    | H : hasEnemyAt _ _ _ (Some _) = Ok true |- _ => apply hasEnemyAt_true_iff in H
    | H : Ok _ = Ok true |- _ => injection H as H
    | H : _ && _ = true |- _ => apply andb_prop in H; destruct H
    | H : (_ =? _)%string = true |- _ => apply String.eqb_eq in H
    end;
  rewrite ?Z.gtb_ltb, ?Z.ltb_lt, ?Z.leb_le, ?Z.eqb_eq in *.

(** Splits membership in the result of a chain of pushes into the pushes. *)
Ltac split_pushes Hin :=
  repeat match type of Hin with
    | In _ ?m' =>
        match goal with
        | Hp : pushIf _ _ _ = Ok m' |- _ =>
            apply (pushIf_In _ _ _ _ _ Hp) in Hin;
            let Hc := fresh "Hc" in
            destruct Hin as [Hin|[Hc ->]]
        end
    end.

(** Membership in the result of a chain of pushes, from the push that adds
    the square: [cond] proves its condition. *)
Ltac find_push cond :=
  repeat first
    [ solve [ eapply pushIf_new;
              [eassumption | cond | apply square_eq; lia] ]
    | eapply pushIf_keep; [eassumption|] ].

Ltac guard_true :=
  repeat (apply andb_true_intro; split);
  rewrite ?Z.gtb_ltb, ?Z.ltb_lt, ?Z.leb_le, ?Z.eqb_eq; lia.

(** ** Knight moves *)

Lemma knight_sound (s : GameState) (square : Square) (moves : list Square)
  (piece : string) (toSquare : Square) :
  getKnightPseudoLegalMoves s square = Ok moves ->
  _getPieceOnSquare s square = Ok (Some piece) ->
  In toSquare moves ->
  exists df dr,
    In (df, dr) knightJumps
    /\ toSquare = squareFromFileRank (fileFromSquare square + df)
                    (rankFromSquare square + dr)
    /\ notOwnCell (position s) piece
         (fileFromSquare square + df, rankFromSquare square + dr).
Proof.
  intros H Hpiece Hin. unfold getKnightPseudoLegalMoves in H.
  unfold _getPieceOnSquare, pieceAt in Hpiece. rewrite Hpiece in H.
  cbn [bind] in H.
  destruct (Some piece === Some "ee"); [injection H as <-; destruct Hin|].
  do 7 bind_inv H.
  split_pushes Hin; [destruct Hin| ..]; cond_facts;
    let jump df dr :=
      solve [ exists df, dr;
              split; [simpl; tauto|];
              split; [apply square_eq; lia|];
              eapply notOwnCell_eq; [| |eassumption]; lia ] in
    first
      [ jump (-1) 2 | jump 1 2 | jump (-1) (-2) | jump 1 (-2)
      | jump (-2) 1 | jump 2 1 | jump (-2) (-1) | jump 2 (-1) ].
Qed.

(** X4: on an 8 by 8 board the knight generator returns exactly the squares
    one of the eight jumps away from the source that are on the board and
    do not hold a piece of the knight's colour. *)
Theorem knight_moves_are_jumps (s : GameState) (square : Square)
  (moves : list Square) (piece : string) (toSquare : Square) :
  wf s ->
  getKnightPseudoLegalMoves s square = Ok moves ->
  _getPieceOnSquare s square = Ok (Some piece) ->
  piece <> "ee" ->
  (In toSquare moves <->
   exists df dr,
     In (df, dr) knightJumps
     /\ toSquare = squareFromFileRank (fileFromSquare square + df)
                     (rankFromSquare square + dr)
     /\ notOwnCell (position s) piece
          (fileFromSquare square + df, rankFromSquare square + dr)).
Proof.
  intros Hwf H Hpiece Hne. split; [now apply knight_sound|].
  pose proof (at_Some_range _ _ _ _ Hwf Hpiece) as [Hf Hr].
  unfold getKnightPseudoLegalMoves in H.
  unfold _getPieceOnSquare, pieceAt in Hpiece. rewrite Hpiece in H.
  cbn [bind] in H. apply String.eqb_neq in Hne. cbn [eqv] in H.
  rewrite Hne in H. do 7 bind_inv H.
  intros (df & dr & Hj & -> & Hn).
  pose proof (notOwnCell_range _ _ _ Hwf Hn) as [Hf' Hr'].
  cbn [fst snd] in Hf', Hr'.
  destruct Hj as [Hj|[Hj|[Hj|[Hj|[Hj|[Hj|[Hj|[Hj|[]]]]]]]]];
    injection Hj as <- <-;
    find_push ltac:(apply andM_true_iff; split;
                    [f_equal; guard_true
                    |apply notOwnAt_true_iff;
                     eapply notOwnCell_eq; [| |eassumption]; lia]).
Qed.

(** In the initial position the knight on g1 can jump to f3: one file to
    the left and two ranks up, an empty square. *)
Lemma knight_moves_are_jumps_witness :
  getKnightPseudoLegalMoves initialState "g1" = Ok ["f3"; "h3"]
  /\ In "f3" ["f3"; "h3"].
Proof.
  split; [vm_compute; reflexivity|].
  apply (proj2 (knight_moves_are_jumps initialState "g1" ["f3"; "h3"] "wn" "f3"
                  wf_initialState
                  ltac:(vm_compute; reflexivity)
                  ltac:(vm_compute; reflexivity)
                  ltac:(discriminate))).
  exists (-1), 2. split; [simpl; auto|]. split; [reflexivity|].
  exists "ee". split; [reflexivity | discriminate].
Defined.

(** ** King moves *)

Lemma isColor_true_iff (piece c : string) :
  (color <- prop (Some piece) 0 ;; Ok (color === Some c)) = Ok true
  <-> idx piece 0 = Some c.
Proof.
  simpl. split.
  - intros H. injection H as H. now apply eqv_true in H.
  - intros ->. f_equal. apply eqv_refl.
Qed.

Ltac castle_facts :=
  repeat match goal with
    | H : _ &&& _ = Ok true |- _ => apply andM_true in H; destruct H
    | H : isEmptyAt _ _ _ = Ok true |- _ => apply isEmptyAt_true_iff in H
    | H : (_ <- prop (Some _) 0 ;; _) = Ok true |- _ =>
        apply isColor_true_iff in H
    | H : Ok _ = Ok true |- _ => injection H as H
    end.

Lemma king_sound (s : GameState) (square : Square) (moves : list Square)
  (piece : string) (toSquare : Square) :
  getKingPseudoLegalMoves s square = Ok moves ->
  _getPieceOnSquare s square = Ok (Some piece) ->
  In toSquare moves ->
  kingStep s square piece toSquare \/ castleOffered s piece toSquare.
Proof.
  intros H Hpiece Hin. unfold getKingPseudoLegalMoves in H.
  unfold _getPieceOnSquare, pieceAt in Hpiece. rewrite Hpiece in H.
  cbn [bind] in H.
  destruct (Some piece === Some "ee"); [injection H as <-; destruct Hin|].
  unfold kingOffsets in H. cbn [foldM Z.eqb andb] in H.
  bind_inv H. do 9 bind_inv E. injection E as <-. do 3 bind_inv H.
  match goal with E : Ok _ = Ok _ |- _ => injection E as -> end.
  split_pushes Hin; [destruct Hin| .. ].
  all: try (left; cond_facts;
            let step df dr :=
              solve [ exists df, dr;
                      split; [lia|]; split; [lia|];
                      split; [discriminate|];
                      split; [apply square_eq; lia|];
                      eapply notOwnCell_eq; [| |eassumption]; lia ] in
            first [ step 1 1 | step 1 0 | step 1 (-1) | step 0 1
                  | step 0 (-1) | step (-1) 1 | step (-1) 0 | step (-1) (-1) ]).
  all: right; castle_facts.
  - exists "w", whiteCastleQueensideAvailable, [(1, 0); (2, 0); (3, 0)], (2, 0).
    simpl. repeat split; auto 10.
  - exists "w", whiteCastleKingsideAvailable, [(5, 0); (6, 0)], (6, 0).
    simpl. repeat split; auto 10.
  - exists "b", blackCastleQueensideAvailable, [(1, 7); (2, 7); (3, 7)], (2, 7).
    simpl. repeat split; auto 10.
  - exists "b", blackCastleKingsideAvailable, [(5, 7); (6, 7)], (6, 7).
    simpl. repeat split; auto 10.
Qed.

(** X5: on an 8 by 8 board the king generator returns exactly the adjacent
    squares that do not hold a piece of the king's colour, and the castle
    destinations c1, g1, c8, g8 of the king's colour whose right is still
    available and whose cells between king and rook home squares are empty.
    Neither the square of the king nor an attack on it or on the cells it
    crosses is looked at for a castle. *)
Theorem king_moves_are_steps_and_castles (s : GameState) (square : Square)
  (moves : list Square) (piece : string) (toSquare : Square) :
  wf s ->
  getKingPseudoLegalMoves s square = Ok moves ->
  _getPieceOnSquare s square = Ok (Some piece) ->
  piece <> "ee" ->
  (In toSquare moves <->
   kingStep s square piece toSquare \/ castleOffered s piece toSquare).
Proof.
  intros Hwf H Hpiece Hne. split; [now apply king_sound|].
  pose proof (at_Some_range _ _ _ _ Hwf Hpiece) as [Hf Hr].
  unfold getKingPseudoLegalMoves in H.
  unfold _getPieceOnSquare, pieceAt in Hpiece. rewrite Hpiece in H.
  cbn [bind] in H. apply String.eqb_neq in Hne. cbn [eqv] in H.
  rewrite Hne in H.
  unfold kingOffsets in H. cbn [foldM Z.eqb andb] in H.
  bind_inv H. do 9 bind_inv E. injection E as <-. do 3 bind_inv H.
  match goal with E : Ok _ = Ok _ |- _ => injection E as -> end.
  intros [(df & dr & Hdf & Hdr & Hnz & -> & Hn)
         |(colour & right & between & target & Hc & Hcol & Hright & Hempty & ->)].
  - pose proof (notOwnCell_range _ _ _ Hwf Hn) as [Hf' Hr'].
    cbn [fst snd] in Hf', Hr'.
    assert (Hcases : (df = -1 \/ df = 0 \/ df = 1) /\ (dr = -1 \/ dr = 0 \/ dr = 1))
      by lia.
    destruct Hcases as [[->|[->| ->]] [->|[->| ->]]];
      try (exfalso; apply Hnz; reflexivity);
      find_push ltac:(apply andM_true_iff; split;
                      [f_equal; guard_true
                      |apply notOwnAt_true_iff;
                       eapply notOwnCell_eq; [| |eassumption]; lia]).
  - destruct Hc as [Hc|[Hc|[Hc|[Hc|[]]]]];
      injection Hc as <- <- <- <-;
      repeat match goal with
        | H : Forall _ (_ :: _) |- _ => inversion H; subst; clear H
        end;
      unfold squareOf; cbn [fst snd];
      find_push ltac:(repeat (apply andM_true_iff; split);
                      [apply isColor_true_iff; assumption
                      |f_equal; assumption
                      |apply isEmptyAt_true_iff; assumption ..]).
Qed.

(** After 1. e4 e5 2. Nf3 Nc6 3. Bc4 Bc5 the king on e1 is offered the
    kingside castle to g1. *)
Lemma king_moves_are_steps_and_castles_witness :
  getKingPseudoLegalMoves kingsideCleared "e1" = Ok ["f1"; "e2"; "g1"]
  /\ In "g1" ["f1"; "e2"; "g1"].
Proof.
  split; [vm_compute; reflexivity|].
  apply (proj2 (king_moves_are_steps_and_castles kingsideCleared "e1"
                  ["f1"; "e2"; "g1"] "wk" "g1"
                  ltac:(vm_compute; repeat constructor)
                  ltac:(vm_compute; reflexivity)
                  ltac:(vm_compute; reflexivity)
                  ltac:(discriminate))).
  right.
  exists "w", whiteCastleKingsideAvailable, [(5, 0); (6, 0)], (6, 0).
  split; [simpl; auto|]. split; [reflexivity|]. split; [reflexivity|].
  split; [|reflexivity].
  repeat constructor.
Defined.

(** ** Pawn moves *)

Lemma emptyCell_range (p : Position) (c : Z * Z) :
  wfPosition p -> emptyCell p c -> 0 <= fst c < 8 /\ 0 <= snd c < 8.
Proof.
  intros Hwf H. eapply at_Some_range; eassumption.
Qed.

Lemma enemyCell_range (p : Position) (piece : string) (c : Z * Z) :
  wfPosition p -> enemyCell p piece c -> 0 <= fst c < 8 /\ 0 <= snd c < 8.
Proof.
  intros Hwf (v & H & _). eapply at_Some_range; eassumption.
Qed.

Ltac empty_cell :=
  match goal with
  | H : emptyCell _ _ |- emptyCell _ _ =>
      solve [eapply emptyCell_eq; [| |exact H]; lia]
  end.

Ltac enemy_cell :=
  match goal with
  | H : enemyCell _ _ _ |- enemyCell _ _ _ =>
      solve [eapply enemyCell_eq; [| |exact H]; lia]
  end.

Ltac pawn_case :=
  first
    [ solve [ left; split; [apply square_eq; lia | empty_cell] ]
    | solve [ right; left; split; [apply square_eq; lia|];
              split; [lia|]; split; empty_cell ]
    | solve [ right; right; exists (-1); split; [lia|];
              split; [apply square_eq; lia|]; left; enemy_cell ]
    | solve [ right; right; exists 1; split; [lia|];
              split; [apply square_eq; lia|]; left; enemy_cell ]
    | solve [ right; right; exists (-1); split; [lia|];
              split; [apply square_eq; lia|]; right;
              split; [lia|]; split; [lia|];
              etransitivity; [eassumption | apply square_eq; lia] ]
    | solve [ right; right; exists 1; split; [lia|];
              split; [apply square_eq; lia|]; right;
              split; [lia|]; split; [lia|];
              etransitivity; [eassumption | apply square_eq; lia] ] ].

Lemma pawn_sound (s : GameState) (square : Square) (moves : list Square)
  (piece : string) (toSquare : Square) :
  wf s ->
  getPawnPseudoLegalMoves s square = Ok moves ->
  _getPieceOnSquare s square = Ok (Some piece) ->
  In toSquare moves ->
  pawnMove s square piece toSquare.
Proof.
  intros Hwf H Hpiece Hin.
  pose proof (at_Some_range _ _ _ _ Hwf Hpiece) as [Hf Hr].
  unfold getPawnPseudoLegalMoves in H.
  unfold _getPieceOnSquare, pieceAt in Hpiece. rewrite Hpiece in H.
  cbn [bind prop] in H.
  destruct (Some piece === Some "ee"); [injection H as <-; destruct Hin|].
  unfold pawnMove, pawnDirection, pawnHomeRank, enPassantRank, isWhite.
  destruct (idx piece 0 === Some "w").
  - do 4 bind_inv H.
    destruct (rankFromSquare square =? 4) eqn:E4;
      [bind_inv E1|injection E1 as <-];
      (split_pushes Hin; [destruct Hin| ..]); cond_facts; pawn_case.
  - do 4 bind_inv H.
    destruct (rankFromSquare square =? 3) eqn:E3;
      [bind_inv E1|injection E1 as <-];
      (split_pushes Hin; [destruct Hin| ..]); cond_facts; pawn_case.
Qed.

Ltac pawn_cond :=
  lazymatch goal with
  | |- isEmptyAt _ _ _ = Ok true => apply isEmptyAt_true_iff; empty_cell
  | |- hasEnemyAt _ _ _ _ = Ok true => apply hasEnemyAt_true_iff; enemy_cell
  | |- _ &&& _ = Ok true => apply andM_true_iff; split; pawn_cond
  | |- Ok _ = Ok true =>
      f_equal;
      first
        [ guard_true
        | apply andb_true_intro; split;
          [ guard_true
          | apply String.eqb_eq; etransitivity;
            [eassumption | apply square_eq; lia] ] ]
  end.

(** X6: on an 8 by 8 board, where the pawn generator returns, it returns
    exactly: the cell in front if empty; the second cell in front from the
    home rank (rank 2 for white, rank 7 for the other branch) if both are
    empty; a diagonal cell in front that holds a piece of the other colour;
    and, from the fifth rank of the pawn, the diagonal cell in front beside
    the pawn recorded as the last two-square move, whatever that diagonal
    cell holds. *)
Theorem pawn_moves_are_steps_and_captures (s : GameState) (square : Square)
  (moves : list Square) (piece : string) (toSquare : Square) :
  wf s ->
  getPawnPseudoLegalMoves s square = Ok moves ->
  _getPieceOnSquare s square = Ok (Some piece) ->
  piece <> "ee" ->
  (In toSquare moves <-> pawnMove s square piece toSquare).
Proof.
  intros Hwf H Hpiece Hne. split; [now apply pawn_sound|].
  pose proof (at_Some_range _ _ _ _ Hwf Hpiece) as [Hf Hr].
  unfold getPawnPseudoLegalMoves in H.
  unfold _getPieceOnSquare, pieceAt in Hpiece. rewrite Hpiece in H.
  cbn [bind prop] in H. apply String.eqb_neq in Hne. cbn [eqv] in H.
  rewrite Hne in H.
  unfold pawnMove, pawnDirection, pawnHomeRank, enPassantRank, isWhite.
  destruct (idx piece 0 === Some "w").
  - do 4 bind_inv H.
    intros [[-> He]|[(-> & Hh & He1 & He2)|(df & Hdf & -> & [He|(Hr5 & Hfr & Htwo)])]];
      try (pose proof (emptyCell_range _ _ Hwf He) as [_ Hr']; cbn [snd] in Hr');
      try (pose proof (enemyCell_range _ _ _ Hwf He) as [Hf' Hr']; cbn [fst snd] in Hf', Hr');
      (destruct (rankFromSquare square =? 4) eqn:E4;
       [bind_inv E1|injection E1 as <-; apply Z.eqb_neq in E4]);
      try lia;
      destruct Hdf as [-> | ->] || idtac;
      find_push ltac:(idtac; pawn_cond).
  - do 4 bind_inv H.
    intros [[-> He]|[(-> & Hh & He1 & He2)|(df & Hdf & -> & [He|(Hr5 & Hfr & Htwo)])]];
      try (pose proof (emptyCell_range _ _ Hwf He) as [_ Hr']; cbn [snd] in Hr');
      try (pose proof (enemyCell_range _ _ _ Hwf He) as [Hf' Hr']; cbn [fst snd] in Hf', Hr');
      (destruct (rankFromSquare square =? 3) eqn:E3;
       [bind_inv E1|injection E1 as <-; apply Z.eqb_neq in E3]);
      try lia;
      destruct Hdf as [-> | ->] || idtac;
      find_push ltac:(idtac; pawn_cond).
Qed.

(** After 1. e4 a6 2. e5 d5 the pawn on e5 may go to d6: it stands on its
    fifth rank beside the pawn that just moved two squares. *)
Lemma pawn_moves_are_steps_and_captures_witness :
  getPawnPseudoLegalMoves enPassantReady "e5" = Ok ["e6"; "d6"]
  /\ In "d6" ["e6"; "d6"].
Proof.
  split; [vm_compute; reflexivity|].
  apply (proj2 (pawn_moves_are_steps_and_captures enPassantReady "e5"
                  ["e6"; "d6"] "wp" "d6"
                  ltac:(vm_compute; repeat constructor)
                  ltac:(vm_compute; reflexivity)
                  ltac:(vm_compute; reflexivity)
                  ltac:(discriminate))).
  right. right. exists (-1). split; [lia|]. split; [reflexivity|].
  right. split; [reflexivity|]. split; [vm_compute; intuition discriminate|].
  reflexivity.
Defined.

(** ** Invariants of the reachable states *)

(** Induction over the executed moves that lead to a reachable state. *)
Lemma reachable_invariant (P : GameState -> Prop) :
  P initialState ->
  (forall s fromSquare toSquare s',
      wf s -> P s -> onBoard fromSquare -> onBoard toSquare ->
      executed s fromSquare toSquare s' -> P s') ->
  forall s, reachable s -> P s.
Proof.
  intros Hinit Hstep s (cs & Hvalid & H). revert H Hvalid.
  generalize wf_initialState Hinit. generalize initialState.
  induction cs as [|c cs IH]; cbn [run]; intros s0 Hwf HP H Hvalid.
  - now injection H as <-.
  - bind_inv H. unfold validCalls in Hvalid. cbn [forallb] in Hvalid.
    apply andb_prop in Hvalid as [Hc Hvalid].
    apply andb_prop in Hc as [Hsrc Hdst].
    apply includes_In, onBoard_allSquares in Hsrc, Hdst.
    apply exec_inv in E as [->|E]; [exact (IH s0 Hwf HP H Hvalid)|].
    assert (Hwf' : wf a) by (eapply executed_wf; eassumption).
    assert (HP' : P a) by exact (Hstep _ _ _ _ Hwf HP Hsrc Hdst E).
    exact (IH a Hwf' HP' H Hvalid).
Qed.

(** ** The move counters *)

Lemma exec_accepted (s : GameState) (c : call) (s' : GameState) :
  exec s c = Ok s' ->
  (accepted s c = true /\ executed s (source c) (destination c) s')
  \/ (accepted s c = false /\ s' = s).
Proof.
  destruct c as [f t|f t]; cbn [exec accepted source destination]; intros H.
  - apply playLegalMove_inv in H. destruct H as [[H ->]|[Hl H]].
    + right. now rewrite H.
    + left. rewrite Hl. split; [reflexivity|].
      apply playPseudoLegalMove_inv in H. destruct H as [[H _]|H]; [|exact H].
      apply moveIsLegal_true, legalMove_pseudoLegalMove in Hl.
      apply moveIsPseudoLegal_true in Hl. congruence.
  - apply playPseudoLegalMove_inv in H. destruct H as [[H ->]|H].
    + right. now rewrite H.
    + left. split; [|exact H]. destruct H. now rewrite Hguard.
Qed.

Lemma increment_counts (n : Z) (k : nat) :
  n = Z.min (Z.of_nat k) (2 ^ 53) ->
  increment n = Z.min (Z.of_nat (S k)) (2 ^ 53).
Proof.
  unfold increment. generalize (2 ^ 53). intros m ->.
  destruct (Z.ltb_spec (Z.min (Z.of_nat k) m) m); lia.
Qed.

Lemma increment_monotone (m n : Z) :
  0 <= m <= n -> 0 <= increment m <= increment n.
Proof.
  unfold increment. generalize (2 ^ 53). intros b H.
  destruct (Z.ltb_spec m b), (Z.ltb_spec n b); lia.
Qed.

Lemma even_of_nat (k : nat) : Z.even (Z.of_nat k) = Nat.even k.
Proof.
  induction k as [|k IH]; [reflexivity|].
  now rewrite Nat2Z.inj_succ, Z.even_succ, Nat.even_succ, <- Z.negb_even,
    <- Nat.negb_even, IH.
Qed.

(** What a run of calls does to the counters and to the active colour of a
    state in which [k] moves have been counted. *)
Lemma counters_along_run (cs : list call) :
  forall (s0 : GameState) (k : nat) (s : GameState),
    numberOfFullMoves s0 = Z.min (Z.of_nat k) (2 ^ 53) ->
    0 <= numberOfHalfMoves s0 <= numberOfFullMoves s0 ->
    activeColor s0 = (if Nat.even k then "w" else "b") ->
    run cs s0 = Ok s ->
    numberOfFullMoves s
    = Z.min (Z.of_nat (k + executedMoves cs s0)) (2 ^ 53)
    /\ 0 <= numberOfHalfMoves s <= numberOfFullMoves s
    /\ activeColor s
       = (if Nat.even (k + executedMoves cs s0) then "w" else "b").
Proof.
  induction cs as [|c cs IH]; cbn [run executedMoves]; intros s0 k s Hf Hh Ha H.
  - injection H as <-. rewrite Nat.add_0_r. auto.
  - bind_inv H. rewrite E.
    destruct (exec_accepted _ _ _ E) as [[Hacc Hex]|[Hacc ->]]; rewrite Hacc.
    + replace (k + (1 + executedMoves cs a))%nat
        with (S k + executedMoves cs a)%nat by lia.
      apply IH; [| | |exact H].
      * destruct Hex. rewrite Hfull. now apply increment_counts.
      * destruct Hex. rewrite Hfull, Hhalf.
        pose proof (increment_monotone _ _ Hh).
        destruct (capture || _); lia.
      * destruct Hex. rewrite Hcolor, Ha, Nat.even_succ, <- Nat.negb_even.
        destruct (Nat.even k); reflexivity.
    + cbn [Nat.add]. apply IH; assumption.
Qed.

(** X7: along every run of calls from a fresh [BoardState] the counter
    [numberOfFullMoves] counts the executed moves of both colours, one for
    each call that is accepted, up to 2^53, where the increment of a
    JavaScript number stops changing it.  The half-move clock lies between
    0 and the counter.  White is the active colour exactly when the number
    of executed moves is even, hence, as long as the counter is below 2^53,
    exactly when the counter is even. *)
Theorem counters_follow_the_moves (cs : list call) (s : GameState) :
  run cs initialState = Ok s ->
  numberOfFullMoves s
  = Z.min (Z.of_nat (executedMoves cs initialState)) (2 ^ 53)
  /\ 0 <= numberOfHalfMoves s <= numberOfFullMoves s
  /\ activeColor s
     = (if Nat.even (executedMoves cs initialState) then "w" else "b")
  /\ (numberOfFullMoves s < 2 ^ 53 ->
      numberOfFullMoves s = Z.of_nat (executedMoves cs initialState)
      /\ activeColor s = (if Z.even (numberOfFullMoves s) then "w" else "b")).
Proof.
  intros H.
  destruct (counters_along_run cs initialState 0 s) as (Hf & Hh & Ha);
    [reflexivity | cbn; lia | reflexivity | exact H |].
  cbn [Nat.add] in Hf, Ha.
  split; [exact Hf|]. split; [exact Hh|]. split; [exact Ha|].
  intros Hlt.
  assert (E : numberOfFullMoves s = Z.of_nat (executedMoves cs initialState)).
  { revert Hlt. rewrite Hf. generalize (2 ^ 53). lia. }
  split; [exact E|]. now rewrite E, even_of_nat.
Qed.

(** 1. e4, a call for e2-e5 that is turned down, and 1... e5 executed as a
    pseudo-legal move: two moves are counted, and White is active. *)
Lemma counters_follow_the_moves_witness :
  run [Legal "e2" "e4"; Legal "e2" "e5"; Pseudo "e7" "e5"] initialState
  = Ok afterE4E5
  /\ executedMoves [Legal "e2" "e4"; Legal "e2" "e5"; Pseudo "e7" "e5"]
       initialState = 2%nat
  /\ numberOfFullMoves afterE4E5 = 2
  /\ numberOfHalfMoves afterE4E5 = 0
  /\ activeColor afterE4E5 = "w".
Proof.
  assert (H : run [Legal "e2" "e4"; Legal "e2" "e5"; Pseudo "e7" "e5"]
                initialState = Ok afterE4E5) by (vm_compute; reflexivity).
  destruct (counters_follow_the_moves _ _ H) as (Hf & Hh & Ha & _).
  split; [exact H|]. split; [vm_compute; reflexivity|].
  split; [exact Hf|]. split; [|exact Ha].
  reflexivity.
Defined.

(** ** The record of the last two-square pawn move *)

Lemma pseudo_generator (s : GameState) (square : Square) (moves : list Square)
  (piece : string) :
  _getPieceOnSquare s square = Ok (Some piece) ->
  piece <> "ee" ->
  getPseudoLegalMoves s square = generatorFor (idx piece 1) s square.
Proof.
  intros Hpiece Hne. unfold getPseudoLegalMoves, generatorFor.
  rewrite Hpiece. cbn [bind prop eqv]. apply String.eqb_neq in Hne.
  rewrite Hne.
  repeat match goal with
    | |- context [if ?b then _ else _] => destruct b; [reflexivity|]
    end.
  reflexivity.
Qed.

(** An executed move takes a piece from its source to one of the
    destinations its generator returns. *)
Lemma executed_move (s : GameState) (fromSquare toSquare : Square)
  (s' : GameState) :
  executed s fromSquare toSquare s' ->
  exists piece moves,
    _getPieceOnSquare s fromSquare = Ok (Some piece)
    /\ piece <> "ee"
    /\ generatorFor (idx piece 1) s fromSquare = Ok moves
    /\ In toSquare moves.
Proof.
  intros []. apply moveIsPseudoLegal_true in Hguard as (moves & Hm & Hin).
  exists piece, moves. split; [assumption|].
  assert (Hne : piece <> "ee").
  { intros ->. unfold getPseudoLegalMoves in Hm. rewrite Hfrom in Hm.
    cbn in Hm. injection Hm as <-. destruct Hin. }
  split; [assumption|]. split; [|assumption].
  erewrite <- pseudo_generator; eassumption.
Qed.

Lemma first_char_of_square (square : Square) (rank : Z) :
  0 <= fileFromSquare square < 8 ->
  idx (squareFromFileRank (fileFromSquare square) rank) 0 = idx square 0.
Proof.
  destruct square as [|c rest];
    [unfold fileFromSquare, NaN; cbn; lia|]. intros _.
  unfold fileFromSquare, charCodeAt0, squareFromFileRank, fromCharCode, idx.
  change (String.get 0 (String c rest)) with (Some c). cbv iota beta.
  replace (97 + (Z.of_N (N_of_ascii c) - 97)) with (Z.of_N (N_of_ascii c)) by lia.
  rewrite N2Z.id, ascii_N_embedding. reflexivity.
Qed.

(** Two cells differ in a coordinate. *)
Ltac pair_neq :=
  let Hc := fresh "Hc" in
  intros Hc;
  first [ apply (f_equal fst) in Hc; cbn [fst] in Hc; lia
        | apply (f_equal snd) in Hc; cbn [snd] in Hc; lia ].

(** An executed move leaves in [twoSquarePawnMove] the text - unless it
    took a pawn more than one rank; then the field names the destination,
    the pawn stands there, it came from its home rank on the same file two
    ranks away, and the cell it passed over is empty. *)
Lemma executed_two_square (s : GameState) (fromSquare toSquare : Square)
  (s' : GameState) :
  wf s ->
  executed s fromSquare toSquare s' ->
  (twoSquarePawnMove s' = "-"
   /\ forall piece, _getPieceOnSquare s fromSquare = Ok (Some piece) ->
                    idx piece 1 = Some "p" ->
                    Z.abs (rankFromSquare fromSquare - rankFromSquare toSquare) <= 1)
  \/ (exists piece,
        twoSquarePawnMove s' = toSquare
        /\ _getPieceOnSquare s fromSquare = Ok (Some piece)
        /\ _getPieceOnSquare s' toSquare = Ok (Some piece)
        /\ idx piece 1 = Some "p"
        /\ fileFromSquare toSquare = fileFromSquare fromSquare
        /\ rankFromSquare fromSquare = pawnHomeRank piece
        /\ rankFromSquare toSquare = pawnHomeRank piece + 2 * pawnDirection piece
        /\ emptyCell (position s')
             (fileFromSquare fromSquare,
              pawnHomeRank piece + pawnDirection piece)).
Proof.
  intros Hwf Hex.
  destruct (executed_move _ _ _ _ Hex) as (piece & moves & Hpiece & Hne & Hgen & Hin).
  destruct Hex. rewrite Hfrom in Hpiece. injection Hpiece as <-.
  rewrite Htwo.
  destruct (idx piece0 1 === Some "p") eqn:Ekind; cbn [andb]; cycle 1.
  { left. split; [reflexivity|]. intros q Hq Hk. rewrite Hfrom in Hq.
    injection Hq as <-. rewrite Hk in Ekind. discriminate. }
  apply eqv_true in Ekind.
  destruct (Z.abs _ >? 1) eqn:Efar; cycle 1.
  { left. split; [reflexivity|]. intros _ _ _.
    rewrite Z.gtb_ltb, Z.ltb_ge in Efar. exact Efar. }
  right. exists piece0. rewrite Z.gtb_ltb, Z.ltb_lt in Efar.
  unfold generatorFor in Hgen. rewrite Ekind in Hgen. cbn [eqv String.eqb Ascii.eqb Bool.eqb] in Hgen.
  pose proof (pawn_sound _ _ _ _ _ Hwf Hgen Hfrom Hin) as Hmove.
  pose proof (at_Some_range _ _ _ _ Hwf Hfrom) as [Hf Hr].
  assert (Hd : pawnDirection piece0 = 1 \/ pawnDirection piece0 = -1)
    by (unfold pawnDirection; destruct (isWhite piece0); auto).
  assert (Hfifth : enPassantRank piece0 + pawnDirection piece0 = 5
                   \/ enPassantRank piece0 + pawnDirection piece0 = 2)
    by (unfold pawnDirection, enPassantRank; destruct (isWhite piece0); auto).
  destruct Hmove as [[Hdest He]|[(Hdest & Hh & He1 & He2)|(df & Hdf & Hdest & Hcase)]].
  - exfalso. pose proof (emptyCell_range _ _ Hwf He) as [_ Hr']. cbn [snd] in Hr'.
    destruct (file_rank_of_square _ _ Hf Hr') as [_ E]. rewrite <- Hdest in E. lia.
  - pose proof (emptyCell_range _ _ Hwf He2) as [_ Hr']. cbn [snd] in Hr'.
    destruct (file_rank_of_square _ _ Hf Hr') as [Efile Erank].
    rewrite <- Hdest in Efile, Erank.
    assert (Esame : (idx fromSquare 0 !== idx toSquare 0) = false).
    { rewrite Hdest, first_char_of_square by assumption.
      now rewrite eqv_refl. }
    rewrite Esame in Hp2. cbn [andb] in Hp2. injection Hp2 as <-.
    rewrite Ekind in Hp3, Hp4. cbn in Hp3, Hp4.
    injection Hp3 as <-. injection Hp4 as <-.
    assert (Hcells : cell toSquare <> cell fromSquare).
    { unfold cell. rewrite Erank. pair_neq. }
    bind_inv Hp1.
    split; [reflexivity|]. split; [assumption|].
    split.
    { unfold _getPieceOnSquare. rewrite Hposition.
      rewrite (pieceAt_set_other _ _ _ _ _ Hp1 Hcells).
      now apply (pieceAt_set_same _ _ _ _ _ E). }
    split; [assumption|]. split; [assumption|]. split; [assumption|].
    split; [lia|].
    rewrite Hposition. unfold emptyCell, setPieceOnSquare in *. cbn [fst snd] in *.
    rewrite (at_setEntry_other _ _ _ _ _ _ _ Hp1)
      by pair_neq.
    rewrite (at_setEntry_other _ _ _ _ _ _ _ E)
      by pair_neq.
    rewrite <- Hh. exact He1.
  - exfalso.
    assert (Hrange : 0 <= fileFromSquare fromSquare + df < 8
                     /\ 0 <= rankFromSquare fromSquare + pawnDirection piece0 < 8).
    { destruct Hcase as [He|(Hr5 & Hfr & _)].
      - apply (enemyCell_range _ _ _ Hwf He).
      - split; [assumption|]. lia. }
    destruct Hrange as [Hf' Hr'].
    destruct (file_rank_of_square _ _ Hf' Hr') as [_ E]. rewrite <- Hdest in E. lia.
Qed.

Lemma reachable_recordsPassedPawn (s : GameState) :
  reachable s -> recordsPassedPawn s.
Proof.
  revert s. apply reachable_invariant; [now left|].
  intros s fromSquare toSquare s' Hwf _ _ (file & rank & Hf & Hr & Hsq) Hex.
  destruct (executed_two_square _ _ _ _ Hwf Hex)
    as [[H _]|(piece & H & Hp & Hp' & Hk & Hfile & Hhome & Hrank & He)];
    [now left|].
  right. exists piece, file.
  destruct (file_rank_of_square _ _ Hf Hr) as [Efile Erank].
  rewrite <- Hsq in Efile, Erank.
  split; [assumption|]. split; [congruence|].
  unfold _getPieceOnSquare, pieceAt in Hp'.
  rewrite Efile, Hrank in Hp'. split; [assumption|]. split; [assumption|].
  rewrite <- Hfile, Efile in He. exact He.
Qed.

Lemma cell_of_square (file rank : Z) :
  0 <= file < 8 -> 0 <= rank < 8 ->
  cell (squareFromFileRank file rank) = (file, rank).
Proof.
  intros Hf Hr. unfold cell.
  destruct (file_rank_of_square _ _ Hf Hr) as [-> ->]. reflexivity.
Qed.

Lemma square_inj (file rank file' rank' : Z) :
  0 <= file < 8 -> 0 <= rank < 8 -> 0 <= file' < 8 -> 0 <= rank' < 8 ->
  squareFromFileRank file rank = squareFromFileRank file' rank' ->
  file = file' /\ rank = rank'.
Proof.
  intros Hf Hr Hf' Hr' H. apply (f_equal cell) in H.
  rewrite !cell_of_square in H by assumption. now injection H.
Qed.

(** On a state that records a passed pawn, the cell an en-passant move goes
    to is empty and the cell beside the moving pawn holds a pawn of the
    other branch. *)
Lemma en_passant_cell (s : GameState) (square : Square) (piece : string)
  (df : Z) :
  wf s -> recordsPassedPawn s ->
  _getPieceOnSquare s square = Ok (Some piece) ->
  rankFromSquare square = enPassantRank piece ->
  0 <= fileFromSquare square + df < 8 ->
  twoSquarePawnMove s
  = squareFromFileRank (fileFromSquare square + df) (rankFromSquare square) ->
  emptyCell (position s)
    (fileFromSquare square + df, rankFromSquare square + pawnDirection piece)
  /\ exists pawn,
       at_ (position s) (fileFromSquare square + df) (rankFromSquare square)
       = Ok (Some pawn)
       /\ idx pawn 1 = Some "p"
       /\ isWhite pawn = negb (isWhite piece).
Proof.
  intros Hwf Hrec Hpiece Hrank Hfile Htwo.
  pose proof (at_Some_range _ _ _ _ Hwf Hpiece) as [Hf Hr].
  destruct Hrec as [Hrec|(pawn & file & Hfile' & Hrec & Hpawn & Hkind & Hempty)].
  { exfalso. rewrite Hrec in Htwo. apply (f_equal fileFromSquare) in Htwo.
    destruct (file_rank_of_square _ _ Hfile Hr) as [E _]. rewrite E in Htwo.
    change (fileFromSquare "-") with (-52) in Htwo. lia. }
  rewrite Hrec in Htwo.
  pose proof (at_Some_range _ _ _ _ Hwf Hpawn) as [_ Hr'].
  apply square_inj in Htwo as [-> Er]; [|assumption..].
  rewrite Er in Hpawn.
  unfold enPassantRank, pawnHomeRank, pawnDirection in *.
  destruct (isWhite piece) eqn:Ew, (isWhite pawn) eqn:Ep; try lia;
    (split; [|exists pawn; repeat split; assumption]);
    (eapply emptyCell_eq; [| |exact Hempty]; lia).
Qed.

(** X8: on every reachable state a pawn destination on another file is a
    capture: the destination holds a piece of the other colour, or it is
    empty, the field [twoSquarePawnMove] names the square beside the pawn on
    that file, and a pawn of the other branch stands there. *)
Theorem diagonal_pawn_moves_capture (s : GameState) (square : Square)
  (moves : list Square) (piece : string) (toSquare : Square) :
  reachable s ->
  getPawnPseudoLegalMoves s square = Ok moves ->
  _getPieceOnSquare s square = Ok (Some piece) ->
  In toSquare moves ->
  fileFromSquare toSquare <> fileFromSquare square ->
  enemyCell (position s) piece (cell toSquare)
  \/ (emptyCell (position s) (cell toSquare)
      /\ twoSquarePawnMove s
         = squareFromFileRank (fileFromSquare toSquare) (rankFromSquare square)
      /\ exists pawn,
           at_ (position s) (fileFromSquare toSquare) (rankFromSquare square)
           = Ok (Some pawn)
           /\ idx pawn 1 = Some "p"
           /\ isWhite pawn = negb (isWhite piece)).
Proof.
  intros Hreach Hgen Hpiece Hin Hdiag.
  pose proof (reachable_wf _ Hreach) as Hwf.
  pose proof (reachable_recordsPassedPawn _ Hreach) as Hrec.
  pose proof (at_Some_range _ _ _ _ Hwf Hpiece) as [Hf Hr].
  assert (Hfifth : enPassantRank piece + pawnDirection piece = 5
                   \/ enPassantRank piece + pawnDirection piece = 2)
    by (unfold pawnDirection, enPassantRank; destruct (isWhite piece); auto).
  destruct (pawn_sound _ _ _ _ _ Hwf Hgen Hpiece Hin)
    as [[Hto He]|[(Hto & _ & _ & He)|(df & Hdf & Hto & [He|(Hr5 & Hfr & Htwo)])]].
  - exfalso. apply Hdiag.
    pose proof (emptyCell_range _ _ Hwf He) as [_ Hr']. cbn [snd] in Hr'.
    destruct (file_rank_of_square _ _ Hf Hr') as [E _]. now rewrite <- Hto in E.
  - exfalso. apply Hdiag.
    pose proof (emptyCell_range _ _ Hwf He) as [_ Hr']. cbn [snd] in Hr'.
    destruct (file_rank_of_square _ _ Hf Hr') as [E _]. now rewrite <- Hto in E.
  - left. pose proof (enemyCell_range _ _ _ Hwf He) as [Hf' Hr'].
    cbn [fst snd] in Hf', Hr'.
    rewrite Hto, cell_of_square by assumption. exact He.
  - right.
    destruct (en_passant_cell _ _ _ _ Hwf Hrec Hpiece Hr5 Hfr Htwo)
      as (He & pawn & Hpawn).
    assert (Hc : cell toSquare
                 = (fileFromSquare square + df,
                    rankFromSquare square + pawnDirection piece))
      by (rewrite Hto; apply cell_of_square; lia).
    rewrite Hc. split; [exact He|].
    apply (f_equal fst) in Hc. cbn [cell fst] in Hc. rewrite Hc.
    split; [exact Htwo | exists pawn; exact Hpawn].
Qed.

(** After 1. e4 a6 2. e5 d5 the move e5 to d6 goes to an empty square; d5
    holds the black pawn that has just moved. *)
Lemma diagonal_pawn_moves_capture_witness :
  enemyCell (position enPassantReady) "wp" (cell "d6")
  \/ (emptyCell (position enPassantReady) (cell "d6")
      /\ twoSquarePawnMove enPassantReady
         = squareFromFileRank (fileFromSquare "d6") (rankFromSquare "e5")
      /\ exists pawn,
           at_ (position enPassantReady) (fileFromSquare "d6")
             (rankFromSquare "e5")
           = Ok (Some pawn)
           /\ idx pawn 1 = Some "p"
           /\ isWhite pawn = negb (isWhite "wp")).
Proof.
  apply (diagonal_pawn_moves_capture enPassantReady "e5" ["e6"; "d6"] "wp" "d6").
  - exists [Legal "e2" "e4"; Legal "a7" "a6"; Legal "e4" "e5"; Legal "d7" "d5"].
    split; vm_compute; reflexivity.
  - vm_compute. reflexivity.
  - vm_compute. reflexivity.
  - simpl. auto.
  - vm_compute. discriminate.
Defined.

(** ** Destinations *)

Lemma notOwnCell_free (p : Position) (piece : string) (c : Z * Z) :
  notOwnCell p piece c -> emptyCell p c \/ enemyCell p piece c.
Proof.
  intros (v & Hv & Hne). destruct (string_dec v "ee") as [->|Hee].
  - now left.
  - right. exists v. auto.
Qed.

(** X9: on every reachable state, a destination that [getPseudoLegalMoves]
    returns for a square is empty or holds a piece whose colour character
    differs from that of the piece on the square: no move takes a piece of
    the mover's own colour. *)
Theorem moves_never_take_own_piece (s : GameState) (square : Square)
  (moves : list Square) (piece : string) (toSquare : Square) :
  reachable s ->
  getPseudoLegalMoves s square = Ok moves ->
  _getPieceOnSquare s square = Ok (Some piece) ->
  In toSquare moves ->
  emptyCell (position s) (cell toSquare)
  \/ enemyCell (position s) piece (cell toSquare).
Proof.
  intros Hreach Hgen Hpiece Hin.
  pose proof (reachable_wf _ Hreach) as Hwf.
  pose proof (at_Some_range _ _ _ _ Hwf Hpiece) as [Hf Hr].
  assert (Hne : piece <> "ee").
  { intros ->. unfold getPseudoLegalMoves in Hgen. rewrite Hpiece in Hgen.
    cbn in Hgen. injection Hgen as <-. destruct Hin. }
  rewrite (pseudo_generator _ _ moves _ Hpiece Hne) in Hgen.
  assert (Hfree : forall c, toSquare = squareOf c ->
                            notOwnCell (position s) piece c ->
                            emptyCell (position s) (cell toSquare)
                            \/ enemyCell (position s) piece (cell toSquare)).
  { intros [f r] -> Hn.
    pose proof (notOwnCell_range _ _ _ Hwf Hn) as [Hf' Hr'].
    cbn [fst snd] in Hf', Hr'. unfold squareOf. cbn [fst snd].
    rewrite cell_of_square by assumption. now apply notOwnCell_free. }
  assert (Hray : (exists x df dr k,
                     _getPieceOnSquare s square = Ok (Some x)
                     /\ toSquare = squareOf (rayCell (fileFromSquare square)
                                               (rankFromSquare square) df dr k)
                     /\ notOwnCell (position s) x
                          (rayCell (fileFromSquare square)
                             (rankFromSquare square) df dr k)) ->
                 emptyCell (position s) (cell toSquare)
                 \/ enemyCell (position s) piece (cell toSquare)).
  { intros (x & df & dr & k & Hx & Hto & Hn).
    assert (x = piece) as -> by congruence. eapply Hfree; eassumption. }
  unfold generatorFor in Hgen.
  destruct (idx piece 1 === Some "p").
  { (* pawn *)
    destruct (pawn_sound _ _ _ _ _ Hwf Hgen Hpiece Hin)
      as [[Hto He]|[(Hto & _ & _ & He)|(df & Hdf & Hto & [He|(Hr5 & Hfr & Htwo)])]].
    - left. pose proof (emptyCell_range _ _ Hwf He) as [_ Hr']. cbn [snd] in Hr'.
      rewrite Hto, cell_of_square by assumption. exact He.
    - left. pose proof (emptyCell_range _ _ Hwf He) as [_ Hr']. cbn [snd] in Hr'.
      rewrite Hto, cell_of_square by assumption. exact He.
    - right. pose proof (enemyCell_range _ _ _ Hwf He) as [Hf' Hr'].
      cbn [fst snd] in Hf', Hr'.
      rewrite Hto, cell_of_square by assumption. exact He.
    - left.
      destruct (en_passant_cell _ _ _ _ Hwf (reachable_recordsPassedPawn _ Hreach)
                  Hpiece Hr5 Hfr Htwo) as [He _].
      pose proof (emptyCell_range _ _ Hwf He) as [_ Hr']. cbn [snd] in Hr'.
      rewrite Hto, cell_of_square by assumption. exact He. }
  destruct (idx piece 1 === Some "r").
  { apply Hray. destruct (rook_ray _ _ _ _ Hgen Hin)
      as (x & df & dr & k & Hx & _ & Hto & _ & Hn). eauto 10. }
  destruct (idx piece 1 === Some "n").
  { destruct (knight_sound _ _ _ _ _ Hgen Hpiece Hin) as (df & dr & _ & Hto & Hn).
    eapply Hfree; [|exact Hn]. exact Hto. }
  destruct (idx piece 1 === Some "b").
  { apply Hray. destruct (bishop_ray _ _ _ _ Hgen Hin)
      as (x & df & dr & k & Hx & _ & Hto & _ & Hn). eauto 10. }
  destruct (idx piece 1 === Some "q").
  { unfold getQueenPseudoLegalMoves in Hgen.
    bind_inv Hgen. bind_inv Hgen. injection Hgen as <-.
    apply in_app_or in Hin as [Hin|Hin]; apply Hray.
    - destruct (rook_ray _ _ _ _ E Hin)
        as (x & df & dr & k & Hx & _ & Hto & _ & Hn). eauto 10.
    - destruct (bishop_ray _ _ _ _ E0 Hin)
        as (x & df & dr & k & Hx & _ & Hto & _ & Hn). eauto 10. }
  destruct (idx piece 1 === Some "k").
  { destruct (king_sound _ _ _ _ _ Hgen Hpiece Hin)
      as [(df & dr & _ & _ & _ & Hto & Hn)
         |(colour & right & between & target & Hc & _ & _ & He & Hto)].
    - eapply Hfree; [|exact Hn]. exact Hto.
    - left.
      assert (Ht : emptyCell (position s) target).
      { rewrite Forall_forall in He. apply He.
        destruct Hc as [Hc|[Hc|[Hc|[Hc|[]]]]];
          injection Hc as <- <- <- <-; simpl; auto. }
      pose proof (emptyCell_range _ _ Hwf Ht) as [Hf' Hr'].
      destruct target as [f r]. cbn [fst snd] in Hf', Hr'.
      rewrite Hto. unfold squareOf. cbn [fst snd].
      rewrite cell_of_square by assumption. exact Ht. }
  injection Hgen as <-. destruct Hin.
Qed.

(** In the initial position the knight on g1 may go to f3, an empty
    square. *)
Lemma moves_never_take_own_piece_witness :
  emptyCell (position initialState) (cell "f3")
  \/ enemyCell (position initialState) "wn" (cell "f3").
Proof.
  apply (moves_never_take_own_piece initialState "g1" ["f3"; "h3"] "wn" "f3").
  - exists []. split; reflexivity.
  - vm_compute. reflexivity.
  - vm_compute. reflexivity.
  - simpl. auto.
Defined.

(** ** Legal moves, check, checkmate and stalemate *)

Lemma filterM_In_iff {A : Type} (f : A -> res bool) (l r : list A) (x : A) :
  filterM f l = Ok r -> (In x r <-> In x l /\ f x = Ok true).
Proof.
  intros H. split; [now apply filterM_In|]. revert r H.
  induction l as [|y l IH]; intros r H [Hin Hx]; [destruct Hin|].
  cbn [filterM] in H. bind_inv H. bind_inv H. injection H as <-.
  destruct Hin as [->|Hin].
  - rewrite Hx in E. injection E as <-. now left.
  - specialize (IH _ E0 (conj Hin Hx)). destruct a; [now right | assumption].
Qed.

Lemma anyM_true {A : Type} (f : A -> res bool) (l : list A) (b : bool) :
  anyM f l = Ok b -> (b = true <-> exists x, In x l /\ f x = Ok true).
Proof.
  revert b. induction l as [|y l IH]; cbn [anyM]; intros b H.
  - injection H as <-. split; [discriminate|]. now intros (x & [] & _).
  - bind_inv H. destruct a.
    + injection H as <-. split; [|reflexivity]. intros _. exists y. now split; [left|].
    + rewrite (IH _ H). split.
      * intros (x & Hin & Hx). exists x. now split; [right|].
      * intros (x & [->|Hin] & Hx); [congruence|]. now exists x.
Qed.

Lemma anyM_false {A : Type} (f : A -> res bool) (l : list A) :
  anyM f l = Ok false <-> forall x, In x l -> f x = Ok false.
Proof.
  induction l as [|y l IH]; cbn [anyM].
  - split; [now intros _ x []|reflexivity].
  - split.
    + intros H. bind_inv H. destruct a; [discriminate|].
      intros x [->|Hin]; [assumption|]. now apply IH.
    + intros H. rewrite (H y) by now left. cbn [bind].
      apply IH. intros x Hin. apply H. now right.
Qed.

Lemma In_boardCells (file rank : Z) :
  In (file, rank) boardCells <-> 0 <= file < 8 /\ 0 <= rank < 8.
Proof.
  unfold boardCells. rewrite in_prod_iff.
  change (upFrom 0) with [0; 1; 2; 3; 4; 5; 6; 7]. simpl. lia.
Qed.

(** X10: on an 8 by 8 board the legal moves of a square are exactly its
    pseudo-legal moves whose execution leaves a state in which the king of
    the colour active before the move is not in check, whatever the colour
    of the moved piece. *)
Theorem legal_moves_keep_active_king_safe (s : GameState) (square : Square)
  (legal : list Square) (toSquare : Square) :
  wf s ->
  getLegalMoves s square = Ok legal ->
  (In toSquare legal <->
   pseudoLegalMove s square toSquare
   /\ exists s', playPseudoLegalMove s square toSquare = Ok s'
                 /\ kingIsInCheck s' (activeColor s) = Ok false).
Proof.
  intros Hwf H. unfold getLegalMoves in H. bind_inv H.
  rewrite (filterM_In_iff _ _ _ toSquare H). cbv beta.
  unfold pseudoLegalMove, kingWouldBeInCheck. rewrite (copy_wf _ Hwf). split.
  - intros [Hin Hc]. split; [eauto|].
    bind_inv Hc. bind_inv E0. injection Hc as Hc.
    exists a1. split; [assumption|]. rewrite E0. f_equal.
    now destruct a0.
  - intros [(moves & Hm & Hin) (s' & Hplay & Hcheck)].
    rewrite E in Hm. injection Hm as <-. split; [assumption|].
    rewrite Hplay. cbn [bind]. rewrite Hcheck. reflexivity.
Qed.

(** After 1. e4 the move e7 to e5 is legal: it is pseudo-legal and leaves
    White, the colour active before it, out of check. *)
Lemma legal_moves_keep_active_king_safe_witness :
  getLegalMoves afterE4 "e7" = Ok ["e5"; "e6"]
  /\ pseudoLegalMove afterE4 "e7" "e5"
  /\ exists s', playPseudoLegalMove afterE4 "e7" "e5" = Ok s'
                /\ kingIsInCheck s' (activeColor afterE4) = Ok false.
Proof.
  split; [vm_compute; reflexivity|].
  apply (proj1 (legal_moves_keep_active_king_safe afterE4 "e7" ["e5"; "e6"] "e5"
                  ltac:(vm_compute; repeat constructor)
                  ltac:(vm_compute; reflexivity))).
  simpl. auto.
Defined.

(** X11: where [kingIsInCheck] returns, it returns true exactly when some
    non-empty square of the board whose piece is not of the given colour
    has the cached king square of that colour among its pseudo-legal
    destinations. *)
Theorem check_is_attack_on_cached_king_square (s : GameState) (color : string)
  (b : bool) :
  kingIsInCheck s color = Ok b ->
  (b = true <-> attacksKing s color).
Proof.
  intros H. unfold kingIsInCheck in H. rewrite (anyM_true _ _ _ H).
  fold (kingSquareOf s color). unfold attacksKing. split.
  - intros ([file rank] & Hin & Hx). apply In_boardCells in Hin as [Hf Hr].
    bind_inv Hx. bind_inv Hx. apply prop_defined in E0 as Hd.
    destruct Hd as [piece ->]. cbn [prop] in E0. injection E0 as <-.
    destruct (idx piece 0 === Some color) eqn:Ec; [discriminate|].
    destruct (Some piece === Some "ee") eqn:Ee; [discriminate|].
    cbn [orb] in Hx. bind_inv Hx. injection Hx as Hx.
    exists file, rank, piece, a. repeat split; try assumption; try lia.
    + intros ->. discriminate.
    + now apply eqv_false.
    + now apply includes_In.
  - intros (file & rank & piece & attacked & Hf & Hr & Hp & Hne & Hc & Hm & Hin).
    exists (file, rank). split; [now apply In_boardCells|].
    rewrite Hp. cbn [bind prop].
    destruct (idx piece 0 === Some color) eqn:Ec;
      [apply eqv_true in Ec; contradiction|].
    apply String.eqb_neq in Hne. cbn [eqv orb]. rewrite Hne.
    rewrite Hm. cbn [bind]. f_equal. now apply includes_In.
Qed.

(** After fool's mate the white king is in check: a black piece attacks
    e1. *)
Lemma check_is_attack_on_cached_king_square_witness :
  kingIsInCheck foolsMate "w" = Ok true /\ attacksKing foolsMate "w".
Proof.
  split; [vm_compute; reflexivity|].
  apply (proj1 (check_is_attack_on_cached_king_square foolsMate "w" true
                  ltac:(vm_compute; reflexivity))).
  reflexivity.
Defined.

Lemma no_legal_move_iff (s : GameState) :
  wf s ->
  (playerHasLegalMoves s (activeColor s) = Ok false <-> noLegalMove s).
Proof.
  intros Hwf. unfold playerHasLegalMoves, noLegalMove.
  rewrite anyM_false. split.
  - intros H file rank piece Hf Hr Hp Hc.
    specialize (H (file, rank) (proj2 (In_boardCells _ _) (conj Hf Hr))).
    cbv beta iota in H. rewrite Hp in H. cbn [bind prop] in H.
    rewrite Hc, eqv_refl in H. cbn [negb] in H. bind_inv H.
    injection H as H. destruct a; [assumption|].
    cbn [List.length] in H. apply Z.ltb_ge in H. lia.
  - intros H [file rank] Hin. apply In_boardCells in Hin as [Hf Hr].
    destruct (at_in_range _ _ _ Hwf Hf Hr) as [piece Hp].
    rewrite Hp. cbn [bind prop].
    destruct (idx piece 0 === Some (activeColor s)) eqn:Ec; [|reflexivity].
    apply eqv_true in Ec. cbn [negb].
    rewrite (H _ _ _ Hf Hr Hp Ec). reflexivity.
Qed.

(** X12: on an 8 by 8 board [isCheckmate] returns true exactly when no
    square holding a piece of the active colour has a legal move and
    [kingIsInCheck] returns true for the active colour; [isStalemate]
    returns true exactly when no such square has a legal move and
    [kingIsInCheck] returns false; so never both, and in either case
    [playLegalMove] from a square with a piece of the active colour returns
    the state unchanged. *)
Theorem checkmate_and_stalemate (s : GameState) :
  wf s ->
  (isCheckmate s = Ok true <->
   noLegalMove s /\ kingIsInCheck s (activeColor s) = Ok true)
  /\ (isStalemate s = Ok true <->
      noLegalMove s /\ kingIsInCheck s (activeColor s) = Ok false)
  /\ ~ (isCheckmate s = Ok true /\ isStalemate s = Ok true)
  /\ (noLegalMove s ->
      forall file rank piece toSquare,
        0 <= file < 8 -> 0 <= rank < 8 ->
        at_ (position s) file rank = Ok (Some piece) ->
        idx piece 0 = Some (activeColor s) ->
        playLegalMove s (squareFromFileRank file rank) toSquare = Ok s).
Proof.
  intros Hwf.
  assert (Hmate : isCheckmate s = Ok true <->
                  noLegalMove s /\ kingIsInCheck s (activeColor s) = Ok true).
  { rewrite <- (no_legal_move_iff _ Hwf). unfold isCheckmate. split.
    - intros H. bind_inv H. destruct a; [discriminate|]. now split.
    - intros [-> H]. exact H. }
  assert (Hstale : isStalemate s = Ok true <->
                   noLegalMove s /\ kingIsInCheck s (activeColor s) = Ok false).
  { rewrite <- (no_legal_move_iff _ Hwf). unfold isStalemate. split.
    - intros H. bind_inv H. destruct a; [discriminate|]. cbn [negb] in H.
      bind_inv H. injection H as H. destruct a; [discriminate|]. now split.
    - intros [-> H]. cbn [bind negb]. rewrite H. reflexivity. }
  split; [exact Hmate|]. split; [exact Hstale|]. split.
  - rewrite Hmate, Hstale. intros [[_ H] [_ H']]. congruence.
  - intros H file rank piece toSquare Hf Hr Hp Hc.
    unfold playLegalMove, moveIsLegal. rewrite (H _ _ _ Hf Hr Hp Hc).
    reflexivity.
Qed.

(** Fool's mate is checkmate and no stalemate. *)
Lemma checkmate_and_stalemate_witness :
  isCheckmate foolsMate = Ok true /\ isStalemate foolsMate <> Ok true.
Proof.
  destruct (checkmate_and_stalemate foolsMate ltac:(vm_compute; repeat constructor))
    as (_ & _ & H & _).
  assert (Hm : isCheckmate foolsMate = Ok true) by (vm_compute; reflexivity).
  split; [exact Hm|]. intros Hs. apply H. split; assumption.
Defined.

(** ** The effect of an executed move on the board *)

Lemma notOwnCell_other (p : Position) (piece : string) (c c' : Z * Z) :
  at_ p (fst c') (snd c') = Ok (Some piece) -> notOwnCell p piece c -> c <> c'.
Proof.
  intros Hp (v & Hv & Hne) ->. rewrite Hp in Hv. injection Hv as <-.
  now apply Hne.
Qed.

(** No generator returns the square it is called for. *)
Lemma destination_is_not_source (s : GameState) (square : Square)
  (moves : list Square) (piece : string) (toSquare : Square) :
  wf s ->
  _getPieceOnSquare s square = Ok (Some piece) ->
  piece <> "ee" ->
  generatorFor (idx piece 1) s square = Ok moves ->
  In toSquare moves ->
  cell toSquare <> cell square.
Proof.
  intros Hwf Hpiece Hne Hgen Hin.
  pose proof (at_Some_range _ _ _ _ Hwf Hpiece) as [Hf Hr].
  assert (Hown : forall c, toSquare = squareOf c ->
                           notOwnCell (position s) piece c ->
                           cell toSquare <> cell square).
  { intros [f r] -> Hn.
    pose proof (notOwnCell_range _ _ _ Hwf Hn) as [Hf' Hr'].
    cbn [fst snd] in Hf', Hr'. unfold squareOf. cbn [fst snd].
    rewrite cell_of_square by assumption.
    eapply notOwnCell_other; [|exact Hn]. exact Hpiece. }
  assert (Hempty : forall c, toSquare = squareOf c ->
                             emptyCell (position s) c ->
                             cell toSquare <> cell square).
  { intros [f r] -> He.
    pose proof (emptyCell_range _ _ Hwf He) as [Hf' Hr'].
    cbn [fst snd] in Hf', Hr'. unfold squareOf. cbn [fst snd].
    rewrite cell_of_square by assumption.
    intros Hc. unfold cell in Hc. injection Hc as -> ->.
    unfold emptyCell in He. cbn [fst snd] in He.
    unfold _getPieceOnSquare, pieceAt in Hpiece. congruence. }
  assert (Hray : (exists x df dr k,
                     _getPieceOnSquare s square = Ok (Some x)
                     /\ toSquare = squareOf (rayCell (fileFromSquare square)
                                               (rankFromSquare square) df dr k)
                     /\ notOwnCell (position s) x
                          (rayCell (fileFromSquare square)
                             (rankFromSquare square) df dr k)) ->
                 cell toSquare <> cell square).
  { intros (x & df & dr & k & Hx & Hto & Hn).
    assert (x = piece) as -> by congruence. eapply Hown; eassumption. }
  unfold generatorFor in Hgen.
  destruct (idx piece 1 === Some "p").
  { assert (Hd : pawnDirection piece = 1 \/ pawnDirection piece = -1)
      by (unfold pawnDirection; destruct (isWhite piece); auto).
    destruct (pawn_sound _ _ _ _ _ Hwf Hgen Hpiece Hin)
      as [[Hto He]|[(Hto & _ & _ & He)|(df & Hdf & Hto & [He|(Hr5 & Hfr & Htwo)])]].
    - eapply (Hempty (_, _)); [exact Hto | exact He].
    - eapply (Hempty (_, _)); [exact Hto | exact He].
    - pose proof (enemyCell_range _ _ _ Hwf He) as [Hf' Hr'].
      cbn [fst snd] in Hf', Hr'.
      rewrite Hto, cell_of_square by assumption. unfold cell. pair_neq.
    - assert (Hr' : 0 <= rankFromSquare square + pawnDirection piece < 8).
      { unfold pawnDirection, enPassantRank in *. destruct (isWhite piece); lia. }
      rewrite Hto, cell_of_square by assumption. unfold cell. pair_neq. }
  destruct (idx piece 1 === Some "r").
  { apply Hray. destruct (rook_ray _ _ _ _ Hgen Hin)
      as (x & df & dr & k & Hx & _ & Hto & _ & Hn). eauto 10. }
  destruct (idx piece 1 === Some "n").
  { destruct (knight_sound _ _ _ _ _ Hgen Hpiece Hin) as (df & dr & _ & Hto & Hn).
    eapply (Hown (_, _)); [exact Hto | exact Hn]. }
  destruct (idx piece 1 === Some "b").
  { apply Hray. destruct (bishop_ray _ _ _ _ Hgen Hin)
      as (x & df & dr & k & Hx & _ & Hto & _ & Hn). eauto 10. }
  destruct (idx piece 1 === Some "q").
  { unfold getQueenPseudoLegalMoves in Hgen.
    bind_inv Hgen. bind_inv Hgen. injection Hgen as <-.
    apply in_app_or in Hin as [Hin|Hin]; apply Hray.
    - destruct (rook_ray _ _ _ _ E Hin)
        as (x & df & dr & k & Hx & _ & Hto & _ & Hn). eauto 10.
    - destruct (bishop_ray _ _ _ _ E0 Hin)
        as (x & df & dr & k & Hx & _ & Hto & _ & Hn). eauto 10. }
  destruct (idx piece 1 === Some "k").
  { destruct (king_sound _ _ _ _ _ Hgen Hpiece Hin)
      as [(df & dr & _ & _ & _ & Hto & Hn)
         |(colour & right & between & target & Hc & _ & _ & He & Hto)].
    - eapply (Hown (_, _)); [exact Hto | exact Hn].
    - apply (Hempty target Hto).
      rewrite Forall_forall in He. apply He.
      destruct Hc as [Hc|[Hc|[Hc|[Hc|[]]]]];
        injection Hc as <- <- <- <-; simpl; auto. }
  injection Hgen as <-. destruct Hin.
Qed.

(** A pawn that moves changes rank, and stays on its file unless the
    destination is on a neighbouring file. *)
Lemma pawn_move_cells (s : GameState) (square : Square) (moves : list Square)
  (piece : string) (toSquare : Square) :
  wf s ->
  getPawnPseudoLegalMoves s square = Ok moves ->
  _getPieceOnSquare s square = Ok (Some piece) ->
  In toSquare moves ->
  rankFromSquare toSquare <> rankFromSquare square
  /\ (fileFromSquare toSquare = fileFromSquare square ->
      idx toSquare 0 = idx square 0).
Proof.
  intros Hwf Hgen Hpiece Hin.
  pose proof (at_Some_range _ _ _ _ Hwf Hpiece) as [Hf Hr].
  assert (Hd : pawnDirection piece = 1 \/ pawnDirection piece = -1)
    by (unfold pawnDirection; destruct (isWhite piece); auto).
  assert (Hcell : exists f r, 0 <= f < 8 /\ 0 <= r < 8
                              /\ toSquare = squareFromFileRank f r
                              /\ r <> rankFromSquare square
                              /\ (f = fileFromSquare square
                                  \/ f <> fileFromSquare square)
                              /\ (f = fileFromSquare square ->
                                  toSquare
                                  = squareFromFileRank (fileFromSquare square) r)).
  { destruct (pawn_sound _ _ _ _ _ Hwf Hgen Hpiece Hin)
      as [[Hto He]|[(Hto & _ & _ & He)|(df & Hdf & Hto & [He|(Hr5 & Hfr & Htwo)])]].
    - pose proof (emptyCell_range _ _ Hwf He) as [_ Hr']. cbn [snd] in Hr'.
      exists (fileFromSquare square), (rankFromSquare square + pawnDirection piece).
      repeat split; auto; lia.
    - pose proof (emptyCell_range _ _ Hwf He) as [_ Hr']. cbn [snd] in Hr'.
      exists (fileFromSquare square),
        (rankFromSquare square + 2 * pawnDirection piece).
      repeat split; auto; lia.
    - pose proof (enemyCell_range _ _ _ Hwf He) as [Hf' Hr'].
      cbn [fst snd] in Hf', Hr'.
      exists (fileFromSquare square + df),
        (rankFromSquare square + pawnDirection piece).
      repeat split; auto; try lia. all: intros; exfalso; lia.
    - exists (fileFromSquare square + df),
        (rankFromSquare square + pawnDirection piece).
      assert (Hr' : 0 <= rankFromSquare square + pawnDirection piece < 8).
      { unfold pawnDirection, enPassantRank in *. destruct (isWhite piece); lia. }
      repeat split; auto; try lia. all: intros; exfalso; lia. }
  destruct Hcell as (f & r & Hf' & Hr' & Hto & Hrank & _ & Hsame).
  destruct (file_rank_of_square _ _ Hf' Hr') as [Efile Erank].
  rewrite <- Hto in Efile, Erank. split; [congruence|].
  intros Heq. rewrite Hsame by congruence.
  now apply first_char_of_square.
Qed.

(** The square cleared beside a pawn that changes file. *)
Lemma side_square_cell (fromSquare toSquare : Square) :
  0 <= fileFromSquare toSquare -> 0 <= rankFromSquare fromSquare ->
  cell (text (idx toSquare 0) ++ text (idx fromSquare 1))
  = (fileFromSquare toSquare, rankFromSquare fromSquare).
Proof.
  intros Hf Hr. destruct (first_char_defined _ Hf) as [c Hc].
  unfold cell. rewrite Hc. cbn [text]. f_equal.
  - now apply file_of_first_char.
  - unfold idx in Hc. destruct (String.get 0 toSquare); [|discriminate].
    injection Hc as <-. cbn [append]. now apply rank_of_second_char.
Qed.

(** What the proofs about an executed move start from: the moved piece, the
    cells of source and destination, and the cells of a pawn move. *)
Lemma executed_facts (s : GameState) (fromSquare toSquare : Square)
  (s' : GameState) (piece : string) :
  wf s ->
  executed s fromSquare toSquare s' ->
  _getPieceOnSquare s fromSquare = Ok (Some piece) ->
  cell toSquare <> cell fromSquare
  /\ 0 <= fileFromSquare toSquare
  /\ (idx piece 1 = Some "p" ->
      exists moves,
        getPawnPseudoLegalMoves s fromSquare = Ok moves /\ In toSquare moves).
Proof.
  intros Hwf Hex Hpiece.
  destruct (executed_move _ _ _ _ Hex) as (x & moves & Hx & Hne & Hgen & Hin).
  assert (x = piece) as -> by congruence.
  split; [eapply destination_is_not_source; eassumption|]. split.
  - assert (Hb : Forall onBoard moves).
    { eapply pseudo_moves_onBoard; [exact Hwf|].
      erewrite pseudo_generator; eassumption. }
    rewrite Forall_forall in Hb. apply Hb, onBoard_cell in Hin. lia.
  - intros Hk. unfold generatorFor in Hgen. rewrite Hk in Hgen.
    cbn in Hgen. eauto.
Qed.

(** The moved piece stands on the destination after the move. *)
Lemma moved_piece_lands (s : GameState) (fromSquare toSquare : Square)
  (s' : GameState) (piece : string) :
  wf s ->
  executed s fromSquare toSquare s' ->
  _getPieceOnSquare s fromSquare = Ok (Some piece) ->
  _getPieceOnSquare s' toSquare = Ok (Some piece).
Proof.
  intros Hwf Hex Hpiece.
  destruct (executed_facts _ _ _ _ _ Hwf Hex Hpiece) as (Hcells & Hon & Hpawn).
  pose proof (at_Some_range _ _ _ _ Hwf Hpiece) as [Hf Hr].
  unfold _getPieceOnSquare in *.
  destruct (idx piece 1 === Some "k") eqn:Ek.
  { apply eqv_true in Ek. eapply executed_king_lands; eassumption. }
  destruct Hex.
  assert (piece0 = piece) as -> by (unfold _getPieceOnSquare in *; congruence).
  rewrite Hposition. rewrite Ek in Hp3, Hp4. cbn [andb] in Hp3, Hp4.
  injection Hp3 as <-. injection Hp4 as <-. bind_inv Hp1.
  assert (H1 : pieceAt p1 toSquare = Ok (Some piece)).
  { rewrite (pieceAt_set_other _ _ _ _ _ Hp1 Hcells).
    eapply pieceAt_set_same; [eassumption | reflexivity]. }
  destruct ((idx piece 1 === Some "p") && _) eqn:Ep in Hp2;
    [|now injection Hp2 as <-].
  apply andb_prop in Ep as [Ep _]. apply eqv_true in Ep.
  rewrite (pieceAt_set_other _ _ _ _ _ Hp2); [exact H1|].
  rewrite side_square_cell by lia. unfold cell.
  destruct (Hpawn Ep) as (moves & Hgen & Hin).
  destruct (pawn_move_cells _ _ _ _ _ Hwf Hgen Hfrom Hin) as [Hrank _].
  pair_neq.
Qed.

(** X13: an executed move puts the moved piece on the destination.  If the
    piece is no king the source is empty afterwards, and if it is moreover
    no pawn, or a pawn that stays on its file, no other square changes. *)
Theorem move_effect (s : GameState) (fromSquare toSquare : Square)
  (s' : GameState) (piece : string) :
  wf s ->
  executed s fromSquare toSquare s' ->
  _getPieceOnSquare s fromSquare = Ok (Some piece) ->
  _getPieceOnSquare s' toSquare = Ok (Some piece)
  /\ (idx piece 1 <> Some "k" ->
      _getPieceOnSquare s' fromSquare = Ok (Some "ee"))
  /\ (idx piece 1 <> Some "k" ->
      (idx piece 1 = Some "p" ->
       fileFromSquare toSquare = fileFromSquare fromSquare) ->
      forall square,
        cell square <> cell fromSquare -> cell square <> cell toSquare ->
        _getPieceOnSquare s' square = _getPieceOnSquare s square).
Proof.
  intros Hwf Hex Hpiece.
  split; [eapply moved_piece_lands; eassumption|].
  destruct (executed_facts _ _ _ _ _ Hwf Hex Hpiece) as (Hcells & Hon & Hpawn).
  unfold _getPieceOnSquare in *. split.
  - intros Hk. destruct Hex.
    assert (piece0 = piece) as -> by (unfold _getPieceOnSquare in *; congruence).
    rewrite Hposition.
    assert (Ek : (idx piece 1 === Some "k") = false).
    { destruct (idx piece 1 === Some "k") eqn:Ek; [|reflexivity].
      apply eqv_true in Ek. contradiction. }
    rewrite Ek in Hp3, Hp4. cbn [andb] in Hp3, Hp4.
    injection Hp3 as <-. injection Hp4 as <-. bind_inv Hp1.
    assert (H1 : pieceAt p1 fromSquare = Ok (Some "ee"))
      by (eapply pieceAt_set_same; [eassumption | reflexivity]).
    destruct ((idx piece 1 === Some "p") && _) in Hp2;
      [|now injection Hp2 as <-].
    destruct (sameCell fromSquare
                (text (idx toSquare 0) ++ text (idx fromSquare 1))) eqn:Es.
    + apply cell_eq in Es. eapply pieceAt_set_same; eassumption.
    + apply cell_neq in Es. now rewrite (pieceAt_set_other _ _ _ _ _ Hp2 Es).
  - intros Hk Hfile square Hsf Hst.
    apply (executed_frame _ _ _ _ _ Hex Hsf).
    unfold overwritten, _getPieceOnSquare. rewrite Hpiece.
    assert (Ek : (idx piece 1 === Some "k") = false).
    { destruct (idx piece 1 === Some "k") eqn:Ek; [|reflexivity].
      apply eqv_true in Ek. contradiction. }
    rewrite Ek. cbn [andb app].
    assert (Ep : (idx piece 1 === Some "p")
                 && (idx fromSquare 0 !== idx toSquare 0) = false).
    { destruct (idx piece 1 === Some "p") eqn:Ep; [|reflexivity].
      apply eqv_true in Ep. destruct (Hpawn Ep) as (moves & Hgen & Hin).
      destruct (pawn_move_cells _ _ _ _ _ Hwf Hgen Hpiece Hin) as [_ Hsame].
      rewrite (Hsame (Hfile Ep)), eqv_refl. reflexivity. }
    rewrite Ep. cbn [app]. intros w [<-|[]]. exact Hst.
Qed.

(** 1. e4: the pawn stands on e4, e2 is empty and a1 still holds the
    rook. *)
Lemma move_effect_witness :
  _getPieceOnSquare afterE4 "e4" = Ok (Some "wp")
  /\ _getPieceOnSquare afterE4 "e2" = Ok (Some "ee")
  /\ _getPieceOnSquare afterE4 "a1" = _getPieceOnSquare initialState "a1".
Proof.
  assert (Hex : executed initialState "e2" "e4" afterE4).
  { apply executed_of_play; [|discriminate]. left. vm_compute. reflexivity. }
  destruct (move_effect initialState "e2" "e4" afterE4 "wp"
              wf_initialState Hex ltac:(vm_compute; reflexivity))
    as (Hland & Hsrc & Hframe).
  split; [exact Hland|]. split; [apply Hsrc; discriminate|].
  apply Hframe; [discriminate | reflexivity | discriminate | discriminate].
Defined.

(** ** The click handlers *)

Lemma active_piece (s : GameState) (square : Square) :
  squareHasPieceOfActivePlayer s square = Ok true ->
  exists piece,
    _getPieceOnSquare s square = Ok (Some piece)
    /\ idx piece 0 = Some (activeColor s).
Proof.
  unfold squareHasPieceOfActivePlayer. intros H. bind_inv H. bind_inv H.
  apply prop_defined in E0 as Hd. destruct Hd as [piece ->].
  cbn [prop] in E0. injection E0 as <-. injection H as H.
  apply eqv_true in H. eauto.
Qed.

Lemma selected_move (s : GameState) (selected square : Square)
  (moves : list Square) :
  wf s ->
  getLegalMoves s selected = Ok moves ->
  includes moves square = true ->
  legalMove s selected square
  /\ playLegalMove s selected square = playPseudoLegalMove s selected square
  /\ exists s', playPseudoLegalMove s selected square = Ok s'
                /\ executed s selected square s'.
Proof.
  intros Hwf Hm Hin.
  assert (Hlegal : legalMove s selected square).
  { exists moves. split; [assumption|]. now apply includes_In. }
  split; [assumption|]. split.
  - unfold playLegalMove, moveIsLegal. rewrite Hm. cbn [bind].
    rewrite Hin. reflexivity.
  - apply playPseudoLegalMove_total; [assumption|].
    now apply legalMove_pseudoLegalMove.
Qed.

Lemma mapM_total {A B : Type} (f : A -> res B) (l : list A) :
  (forall x, In x l -> exists y, f x = Ok y) -> exists r, mapM f l = Ok r.
Proof.
  induction l as [|x l IH]; intros H; [now exists []|].
  destruct (H x (or_introl eq_refl)) as [y Hy].
  destruct IH as [r Hr]; [intros z Hz; apply H; now right|].
  exists (y :: r). cbn [mapM]. rewrite Hy. cbn [bind]. now rewrite Hr.
Qed.

Lemma updatePieces_total (s : GameState) :
  wf s -> exists shown, updatePieces s = Ok shown.
Proof.
  intros Hwf. apply mapM_total. intros square Hin.
  change updatePiecesSquares with allSquares in Hin.
  apply onBoard_allSquares, onBoard_cell in Hin as [Hf Hr].
  destruct (at_in_range _ _ _ Hwf Hf Hr) as [piece Hp].
  unfold getPieceOnSquare, _getPieceOnSquare, pieceAt. rewrite Hp.
  cbn [bind]. destruct (Some piece === Some "ee"); cbn [bind]; eauto.
Qed.

(** A click handled by [src/app/app.js]: the engine is unchanged, or the
    handler has executed the clicked move of the selected piece. *)
Lemma click_cases (g : ChessGame) (square : Square) (g' : ChessGame)
  (o : outcome) :
  wf (boardState g) -> selectionOk g ->
  App.handleSquareClick g square = (g', o) ->
  wf (boardState g') /\ selectionOk g'
  /\ (selectedSquare g' = None \/ selectedSquare g' = Some square
      \/ selectedSquare g' = selectedSquare g)
  /\ (boardState g' = boardState g
      \/ exists selected piece,
           selectedSquare g = Some selected
           /\ _getPieceOnSquare (boardState g) selected = Ok (Some piece)
           /\ idx piece 0 = Some (activeColor (boardState g))
           /\ legalMove (boardState g) selected square
           /\ playLegalMove (boardState g) selected square
              = Ok (boardState g')
           /\ executed (boardState g) selected square (boardState g')).
Proof.
  intros Hwf Hsel H. unfold App.handleSquareClick in H.
  destruct (squareHasPieceOfActivePlayer (boardState g) square)
    as [[|]|e] eqn:Eactive.
  - assert (Hg : g' = {| boardState := boardState g;
                         selectedSquare := Some square |})
      by (destruct (getLegalMoves _ square); now injection H).
    subst g'. cbn. split; [assumption|]. split; [assumption|]. auto.
  - destruct (selectedSquare g) as [selected|] eqn:Es; cycle 1.
    { injection H as <- _. cbn. split; [assumption|]. split; [exact I|]. auto. }
    destruct (getLegalMoves (boardState g) selected) as [moves|e] eqn:Em; cycle 1.
    { injection H as <- _. split; [assumption|]. split; [assumption|]. auto. }
    destruct (includes moves square) eqn:Ein; cycle 1.
    { injection H as <- _. cbn. split; [assumption|]. split; [exact I|]. auto. }
    destruct (selected_move _ _ _ _ Hwf Em Ein)
      as (Hlegal & Hsame & s' & Hplay & Hex).
    rewrite Hplay in H.
    pose proof (executed_wf _ _ _ _ Hwf Hex) as Hwf'.
    destruct (updatePieces_total _ Hwf') as [shown Hshown].
    rewrite Hshown in H. injection H as <- _. cbn.
    split; [assumption|]. split; [exact I|]. split; [auto|]. right.
    unfold selectionOk in Hsel. rewrite Es in Hsel.
    destruct (active_piece _ _ Hsel) as (piece & Hp & Hc).
    exists selected, piece. rewrite Hsame. auto 10.
  - injection H as <- _. split; [assumption|]. split; [assumption|]. auto.
Qed.

(** A click handled by either handler. *)
Lemma either_click_cases (g : ChessGame) (square : Square) (g' : ChessGame)
  (o : outcome) :
  wf (boardState g) -> selectionOk g ->
  App.handleSquareClick g square = (g', o)
  \/ Standard.handleSquareClick g square = (g', o) ->
  wf (boardState g') /\ selectionOk g'
  /\ (selectedSquare g' = None \/ selectedSquare g' = Some square
      \/ selectedSquare g' = selectedSquare g)
  /\ (boardState g' = boardState g
      \/ exists selected piece,
           selectedSquare g = Some selected
           /\ _getPieceOnSquare (boardState g) selected = Ok (Some piece)
           /\ idx piece 0 = Some (activeColor (boardState g))
           /\ legalMove (boardState g) selected square
           /\ playLegalMove (boardState g) selected square
              = Ok (boardState g')
           /\ executed (boardState g) selected square (boardState g')).
Proof.
  intros Hwf Hsel [H|H]; [eapply click_cases; eassumption|].
  destruct (isCheckmate (boardState g)) as [mate|e] eqn:Emate; cycle 1.
  { unfold Standard.handleSquareClick in H. rewrite Emate in H.
    injection H as <- _. split; [assumption|]. split; [assumption|]. auto. }
  destruct (isStalemate (boardState g)) as [stale|e] eqn:Estale; cycle 1.
  { unfold Standard.handleSquareClick in H. rewrite Emate, Estale in H.
    injection H as <- _. split; [assumption|]. split; [assumption|]. auto. }
  assert (Hagree : Standard.handleSquareClick g square
                   = App.handleSquareClick g square).
  { unfold Standard.handleSquareClick, App.handleSquareClick.
    rewrite Emate, Estale.
    destruct (squareHasPieceOfActivePlayer (boardState g) square)
      as [[|]|e]; try reflexivity.
    destruct (selectedSquare g) as [selected|]; [|reflexivity].
    destruct (getLegalMoves (boardState g) selected) as [moves|e] eqn:Em;
      [|reflexivity].
    destruct (includes moves square) eqn:Ein; [|reflexivity].
    destruct (selected_move _ _ _ _ Hwf Em Ein) as (_ & -> & _). reflexivity. }
  rewrite Hagree in H. eapply click_cases; eassumption.
Qed.

(** X15: the two click handlers give the same game and the same outcome on
    an 8 by 8 board whenever the questions for checkmate and stalemate that
    the second one asks first return: executing the clicked move with
    [playPseudoLegalMove] or with [playLegalMove] makes no difference after
    the handler has found it among the legal moves. *)
Theorem click_handlers_agree (g : ChessGame) (square : Square)
  (mate stale : bool) :
  wf (boardState g) ->
  isCheckmate (boardState g) = Ok mate ->
  isStalemate (boardState g) = Ok stale ->
  Standard.handleSquareClick g square = App.handleSquareClick g square.
Proof.
  intros Hwf Hmate Hstale.
  unfold Standard.handleSquareClick, App.handleSquareClick.
  rewrite Hmate, Hstale.
  destruct (squareHasPieceOfActivePlayer (boardState g) square)
    as [[|]|e]; try reflexivity.
  destruct (selectedSquare g) as [selected|]; [|reflexivity].
  destruct (getLegalMoves (boardState g) selected) as [moves|e] eqn:Em;
    [|reflexivity].
  destruct (includes moves square) eqn:Ein; [|reflexivity].
  destruct (selected_move _ _ _ _ Hwf Em Ein) as (_ & -> & _). reflexivity.
Qed.

(** In the initial position with e2 selected, a click on e4 plays the move
    in both handlers. *)
Lemma click_handlers_agree_witness :
  Standard.handleSquareClick
    {| boardState := initialState; selectedSquare := Some "e2" |} "e4"
  = App.handleSquareClick
      {| boardState := initialState; selectedSquare := Some "e2" |} "e4"
  /\ App.handleSquareClick
       {| boardState := initialState; selectedSquare := Some "e2" |} "e4"
     = ({| boardState := afterE4; selectedSquare := None |}, Returned).
Proof.
  split; [|vm_compute; reflexivity].
  apply (click_handlers_agree
           {| boardState := initialState; selectedSquare := Some "e2" |}
           "e4" false false wf_initialState);
    vm_compute; reflexivity.
Defined.

(** X14: a click changes the engine only by executing a legal move of a
    piece of the active colour: on an 8 by 8 board with a selection that
    holds a piece of the active colour, either handler leaves such a game,
    and the engine is unchanged or has executed the move from the selected
    square to the clicked one, which was legal and took a piece of the
    colour active before the click. *)
Theorem clicks_play_legal_moves_of_the_active_colour (g : ChessGame)
  (square : Square) (g' : ChessGame) (o : outcome) :
  wf (boardState g) -> selectionOk g ->
  App.handleSquareClick g square = (g', o)
  \/ Standard.handleSquareClick g square = (g', o) ->
  wf (boardState g') /\ selectionOk g' /\ clickEffect g square g'.
Proof.
  intros Hwf Hsel H.
  destruct (either_click_cases _ _ _ _ Hwf Hsel H)
    as (Hwf' & Hsel' & _ & [Hsame|(selected & piece & Hs & Hp & Hc & Hl & _ & Hex)]).
  - split; [assumption|]. split; [assumption|]. now left.
  - split; [assumption|]. split; [assumption|]. right.
    exists selected, piece. auto.
Qed.

(** In the initial position with e2 selected, a click on e4 executes the
    pawn move. *)
Lemma clicks_play_legal_moves_of_the_active_colour_witness :
  clickEffect {| boardState := initialState; selectedSquare := Some "e2" |}
    "e4" {| boardState := afterE4; selectedSquare := None |}.
Proof.
  apply (clicks_play_legal_moves_of_the_active_colour
           {| boardState := initialState; selectedSquare := Some "e2" |}
           "e4" {| boardState := afterE4; selectedSquare := None |} Returned
           wf_initialState).
  - vm_compute. reflexivity.
  - right. vm_compute. reflexivity.
Defined.

(** ** Square names outside the engine *)

Ltac cases9 x :=
  let H := fresh "H" in
  assert (H : x = 0 \/ x = 1 \/ x = 2 \/ x = 3 \/ x = 4 \/ x = 5 \/ x = 6
              \/ x = 7 \/ x = 8)
    by lia;
  destruct H as [->|[->|[->|[->|[->|[->|[->|[->| ->]]]]]]]].

(** X16: the square names used outside the engine are the engine's.  A
    click in the board, its right and lower border included, names the
    square of file [min column 7] and of rank [7 - min row 7], so the upper
    left corner is a8; the trainer draws the engine's name of the two
    indices; the loops of [updatePieces] visit the engine's sixty-four
    squares in the order of [boardCells]; and the engine's names are
    pairwise distinct and are given back by [squareFromFileRank] from the
    file and the rank read off them. *)
Theorem square_names_agree :
  (forall column row,
      0 <= column <= 8 -> 0 <= row <= 8 ->
      BoardWidget.handleClick column row
      = squareFromFileRank (Z.min column 7) (7 - Z.min row 7))
  /\ (forall fileIndex rankIndex,
         0 <= fileIndex < 8 -> 0 <= rankIndex < 8 ->
         SquaresTrainer.getRandomSquare fileIndex rankIndex
         = squareFromFileRank fileIndex rankIndex)
  /\ updatePiecesSquares = allSquares
  /\ NoDup allSquares
  /\ (forall square,
         onBoard square ->
         squareFromFileRank (fileFromSquare square) (rankFromSquare square)
         = square).
Proof.
  split; [|split; [|split; [|split]]].
  - intros column row Hc Hr. cases9 column; cases9 row; reflexivity.
  - intros fileIndex rankIndex Hf Hr. cases8 fileIndex; cases8 rankIndex; reflexivity.
  - reflexivity.
  - assert (H : forall l : list string,
               (fix distinct (l : list string) : bool :=
                  match l with
                  | [] => true
                  | x :: t => negb (includes t x) && distinct t
                  end) l = true -> NoDup l).
    { induction l as [|x l IH]; intros H; constructor.
      - apply andb_prop in H as [H _]. apply negb_true_iff in H.
        now apply includes_not_In.
      - apply andb_prop in H as [_ H]. now apply IH. }
    apply H. vm_compute. reflexivity.
  - intros square (file & rank & Hf & Hr & ->).
    destruct (file_rank_of_square _ _ Hf Hr) as [-> ->]. reflexivity.
Qed.

(** A click on the lower right corner names h1; the indices 4 and 3 give
    e4. *)
Lemma square_names_agree_witness :
  BoardWidget.handleClick 8 8 = "h1"
  /\ SquaresTrainer.getRandomSquare 4 3 = "e4".
Proof.
  destruct square_names_agree as (Hclick & Hrandom & _).
  split.
  - rewrite (Hclick 8 8) by lia. reflexivity.
  - rewrite (Hrandom 4 3) by lia. reflexivity.
Defined.

(** X17: the background of the board is a chessboard: the element created
    for the square of file [file] and rank [rank] is dark exactly when
    [file + rank] is even, so a1 is dark and h1 is light, and there is one
    element for each of the sixty-four squares. *)
Theorem background_is_a_chessboard :
  BoardWidget.initializeBackgroundElements
  = map (fun '(file, rank) =>
           ("square-" ++ squareFromFileRank file rank,
            if Z.even (file + rank) then "square-dark" else "square-light"))
        boardCells.
Proof. vm_compute. reflexivity. Qed.

(** ** Where the generators raise *)

Lemma In_upFrom (x y : Z) : In y (upFrom x) -> x <= y < 8.
Proof.
  unfold upFrom. rewrite in_map_iff. intros (i & <- & Hi).
  apply in_seq in Hi. lia.
Qed.

Lemma In_downFrom (x y : Z) : In y (downFrom x) -> 0 <= y <= x.
Proof.
  unfold downFrom. rewrite in_map_iff. intros (i & <- & Hi).
  apply in_seq in Hi. lia.
Qed.

Lemma walk_total (p : Position) (piece : string) (cells : list (Z * Z)) :
  wfPosition p ->
  (forall c, In c cells -> 0 <= fst c < 8 /\ 0 <= snd c < 8) ->
  exists moves, walk p (Some piece) cells = Ok moves.
Proof.
  intros Hwf. induction cells as [|[f r] cells IH]; intros Hc; [now exists []|].
  destruct (Hc (f, r) (or_introl eq_refl)) as [Hf Hr]. cbn [fst snd] in Hf, Hr.
  destruct (at_in_range _ _ _ Hwf Hf Hr) as [v Hv].
  destruct IH as [moves Hm]; [intros c Hin; apply Hc; now right|].
  cbn [walk]. rewrite Hv, Hm. cbn [bind prop].
  destruct (idx v 0 === idx piece 0); [eauto|].
  destruct (Some v !== Some "ee"); eauto.
Qed.

(** Settles the reads of a condition that stay on the board. *)
Ltac cond_total Hwf :=
  unfold hasEnemyAt, notOwnAt, isEmptyAt, andM; cbn [bind prop];
  repeat (match goal with
          | |- context [at_ ?p ?f ?r] =>
              let v := fresh "v" in
              destruct (at_in_range p f r Hwf ltac:(lia) ltac:(lia)) as [v ->]
          | |- context [if ?b then _ else _] =>
              let G := fresh "G" in
              destruct b eqn:G;
              [repeat match goal with
                 | H : _ && _ = true |- _ => apply andb_prop in H; destruct H
                 end;
               rewrite ?Z.gtb_ltb, ?Z.ltb_lt, ?Z.leb_le, ?Z.eqb_eq in *|]
          end; cbn [bind prop]);
  eexists; reflexivity.

(** Replaces the conditions of the pushes by their values. *)
Ltac settle_pushes Hwf :=
  repeat match goal with
    | |- context [pushIf ?c _ _] =>
        lazymatch c with
        | Ok _ => fail
        | _ => idtac
        end;
        let b := fresh "b" in
        let Hb := fresh "Hb" in
        assert (exists b, c = Ok b) as [b Hb] by cond_total Hwf;
        rewrite Hb; clear Hb
    end;
  cbn [pushIf bind]; eexists; reflexivity.

Lemma knight_total (s : GameState) (square : Square) :
  wf s ->
  0 <= fileFromSquare square < 8 -> 0 <= rankFromSquare square < 8 ->
  exists moves, getKnightPseudoLegalMoves s square = Ok moves.
Proof.
  intros Hwf Hf Hr. unfold getKnightPseudoLegalMoves.
  destruct (at_in_range _ _ _ Hwf Hf Hr) as [piece ->]. cbn [bind].
  destruct (Some piece === Some "ee"); [eauto|].
  settle_pushes Hwf.
Qed.

Lemma king_total (s : GameState) (square : Square) :
  wf s ->
  0 <= fileFromSquare square < 8 -> 0 <= rankFromSquare square < 8 ->
  exists moves, getKingPseudoLegalMoves s square = Ok moves.
Proof.
  intros Hwf Hf Hr. unfold getKingPseudoLegalMoves.
  destruct (at_in_range _ _ _ Hwf Hf Hr) as [piece ->]. cbn [bind].
  destruct (Some piece === Some "ee"); [eauto|].
  unfold kingOffsets. cbn [foldM Z.eqb andb].
  settle_pushes Hwf.
Qed.

Lemma rook_total (s : GameState) (square : Square) :
  wf s ->
  0 <= fileFromSquare square < 8 -> 0 <= rankFromSquare square < 8 ->
  exists moves, getRookPseudoLegalMoves s square = Ok moves.
Proof.
  intros Hwf Hf Hr. unfold getRookPseudoLegalMoves.
  destruct (at_in_range _ _ _ Hwf Hf Hr) as [piece ->]. cbn [bind].
  destruct (Some piece === Some "ee"); [eauto|].
  repeat match goal with
    | |- context [walk ?p (Some piece) ?cells] =>
        let m := fresh "m" in
        destruct (walk_total p piece cells Hwf) as [m ->];
        [intros [f r] Hin; apply in_map_iff in Hin as (x & Hx & Hin);
         injection Hx as <- <-; cbn [fst snd];
         first [apply In_upFrom in Hin | apply In_downFrom in Hin]; lia
        |cbn [bind]]
    end.
  eauto.
Qed.

Lemma bishop_total (s : GameState) (square : Square) :
  wf s ->
  0 <= fileFromSquare square < 8 -> 0 <= rankFromSquare square < 8 ->
  exists moves, getBishopPseudoLegalMoves s square = Ok moves.
Proof.
  intros Hwf Hf Hr. unfold getBishopPseudoLegalMoves.
  destruct (at_in_range _ _ _ Hwf Hf Hr) as [piece ->]. cbn [bind].
  destruct (Some piece === Some "ee"); [eauto|].
  repeat match goal with
    | |- context [walk ?p (Some piece) ?cells] =>
        let m := fresh "m" in
        destruct (walk_total p piece cells Hwf) as [m ->];
        [intros [f r] Hin;
         pose proof (in_combine_l _ _ _ _ Hin) as Hl;
         pose proof (in_combine_r _ _ _ _ Hin) as Hl';
         cbn [fst snd];
         first [apply In_upFrom in Hl | apply In_downFrom in Hl];
         first [apply In_upFrom in Hl' | apply In_downFrom in Hl']; lia
        |cbn [bind]]
    end.
  eauto.
Qed.

Lemma queen_total (s : GameState) (square : Square) :
  wf s ->
  0 <= fileFromSquare square < 8 -> 0 <= rankFromSquare square < 8 ->
  exists moves, getQueenPseudoLegalMoves s square = Ok moves.
Proof.
  intros Hwf Hf Hr. unfold getQueenPseudoLegalMoves.
  destruct (rook_total _ _ Hwf Hf Hr) as [rook ->].
  destruct (bishop_total _ _ Hwf Hf Hr) as [bishop ->]. cbn [bind]. eauto.
Qed.

Lemma pawn_total (s : GameState) (square : Square) (piece : string) :
  wf s ->
  _getPieceOnSquare s square = Ok (Some piece) ->
  rankFromSquare square <> pawnLastRank piece ->
  exists moves, getPawnPseudoLegalMoves s square = Ok moves.
Proof.
  intros Hwf Hpiece Hlast.
  pose proof (at_Some_range _ _ _ _ Hwf Hpiece) as [Hf Hr].
  unfold getPawnPseudoLegalMoves.
  unfold _getPieceOnSquare, pieceAt in Hpiece. rewrite Hpiece. cbn [bind prop].
  destruct (Some piece === Some "ee"); [eauto|].
  unfold pawnLastRank, isWhite in Hlast.
  destruct (idx piece 0 === Some "w").
  - destruct (rankFromSquare square =? 4); settle_pushes Hwf.
  - destruct (rankFromSquare square =? 3); settle_pushes Hwf.
Qed.

Lemma pawn_raises (s : GameState) (square : Square) (piece : string) :
  wf s ->
  _getPieceOnSquare s square = Ok (Some piece) ->
  piece <> "ee" ->
  rankFromSquare square = pawnLastRank piece ->
  getPawnPseudoLegalMoves s square = Throw TypeError.
Proof.
  intros Hwf Hpiece Hne Hlast.
  pose proof (at_Some_range _ _ _ _ Hwf Hpiece) as [Hf Hr].
  unfold pawnLastRank, isWhite in Hlast.
  destruct (idx piece 0 === Some "w") eqn:Ew.
  { apply eqv_true in Ew.
    now apply (white_pawn_on_last_rank_raises _ _ piece). }
  unfold _getPieceOnSquare, pieceAt in Hpiece.
  unfold getPawnPseudoLegalMoves. rewrite Hpiece. cbn [bind].
  apply String.eqb_neq in Hne. cbn [eqv]. rewrite Hne.
  cbn [prop bind]. fold (idx piece 0 === Some "w"). rewrite Ew.
  rewrite Hlast. cbn [Z.eqb Z.gtb Z.compare andM bind pushIf].
  unfold hasEnemyAt, notOwnAt.
  destruct (Z.gtb_spec (fileFromSquare square) 0) as [Hpos|Hzero].
  - rewrite at_off_rank by (try assumption; lia). reflexivity.
  - cbn [andM bind pushIf].
    assert (E : (fileFromSquare square <? 7) = true) by (apply Z.ltb_lt; lia).
    rewrite E. rewrite at_off_rank by (try assumption; lia). reflexivity.
Qed.

Lemma pseudo_total (s : GameState) (square : Square) :
  wf s ->
  0 <= fileFromSquare square < 8 -> 0 <= rankFromSquare square < 8 ->
  ~ pawnOnLastRankAt s square ->
  exists moves, getPseudoLegalMoves s square = Ok moves.
Proof.
  intros Hwf Hf Hr Hlast.
  destruct (at_in_range _ _ _ Hwf Hf Hr) as [piece Hp].
  destruct (string_dec piece "ee") as [->|Hne].
  { unfold getPseudoLegalMoves, _getPieceOnSquare, pieceAt. rewrite Hp.
    cbn. eauto. }
  rewrite (pseudo_generator _ _ [] _ Hp Hne). unfold generatorFor.
  destruct (idx piece 1 === Some "p") eqn:Ek.
  { apply eqv_true in Ek. apply (pawn_total _ _ piece Hwf Hp).
    intros Hrank. apply Hlast. exists piece. auto. }
  destruct (idx piece 1 === Some "r"); [now apply rook_total|].
  destruct (idx piece 1 === Some "n"); [now apply knight_total|].
  destruct (idx piece 1 === Some "b"); [now apply bishop_total|].
  destruct (idx piece 1 === Some "q"); [now apply queen_total|].
  destruct (idx piece 1 === Some "k"); [now apply king_total|].
  eauto.
Qed.

(** X18: on an 8 by 8 board and for a square of the board,
    [getPseudoLegalMoves] raises [TypeError] when the square holds a pawn on
    the last rank of its branch (rank 8 for a first character w, rank 1 for
    the others) and returns in every other case: the reads of all six
    generators stay on the board except those of a pawn that has no rank in
    front of it. *)
Theorem generators_raise_only_for_a_pawn_on_its_last_rank (s : GameState)
  (square : Square) :
  wf s ->
  0 <= fileFromSquare square < 8 -> 0 <= rankFromSquare square < 8 ->
  (pawnOnLastRankAt s square ->
   getPseudoLegalMoves s square = Throw TypeError)
  /\ (~ pawnOnLastRankAt s square ->
      exists moves, getPseudoLegalMoves s square = Ok moves).
Proof.
  intros Hwf Hf Hr. split; [|now apply pseudo_total].
  intros (piece & Hp & Hk & Hrank).
  assert (Hne : piece <> "ee") by (intros ->; discriminate).
  rewrite (pseudo_generator _ _ [] _ Hp Hne). unfold generatorFor.
  rewrite Hk. cbn [eqv String.eqb Ascii.eqb Bool.eqb].
  now apply (pawn_raises _ _ piece).
Qed.

(** In the initial position the pawn on e2 is not on its last rank and its
    moves are returned. *)
Lemma generators_raise_only_for_a_pawn_on_its_last_rank_witness :
  exists moves, getPseudoLegalMoves initialState "e2" = Ok moves.
Proof.
  apply (generators_raise_only_for_a_pawn_on_its_last_rank initialState "e2"
           wf_initialState ltac:(vm_compute; intuition discriminate)
           ltac:(vm_compute; intuition discriminate)).
  intros (piece & Hp & _ & Hrank).
  vm_compute in Hp. injection Hp as <-. vm_compute in Hrank. discriminate.
Defined.

Lemma anyM_total {A : Type} (f : A -> res bool) (l : list A) :
  (forall x, In x l -> exists b, f x = Ok b) -> exists b, anyM f l = Ok b.
Proof.
  induction l as [|x l IH]; intros H; [now exists false|].
  destruct (H x (or_introl eq_refl)) as [b Hb]. cbn [anyM]. rewrite Hb.
  cbn [bind]. destruct b; [eauto|]. apply IH. intros y Hy. apply H. now right.
Qed.

(** X19: on an 8 by 8 board on which no pawn stands on the last rank of its
    branch, [kingIsInCheck] returns for every colour. *)
Theorem check_test_returns_without_last_rank_pawns (s : GameState)
  (color : string) :
  wf s ->
  (forall file rank, 0 <= file < 8 -> 0 <= rank < 8 ->
                     ~ pawnOnLastRankAt s (squareFromFileRank file rank)) ->
  exists b, kingIsInCheck s color = Ok b.
Proof.
  intros Hwf Hlast. unfold kingIsInCheck. apply anyM_total.
  intros [file rank] Hin. apply In_boardCells in Hin as [Hf Hr].
  destruct (at_in_range _ _ _ Hwf Hf Hr) as [piece ->]. cbn [bind prop].
  destruct ((idx piece 0 === Some color) || (Some piece === Some "ee"));
    [eauto|].
  destruct (file_rank_of_square _ _ Hf Hr) as [Efile Erank].
  destruct (pseudo_total s (squareFromFileRank file rank) Hwf) as [moves ->];
    [lia | lia | now apply Hlast |].
  cbn [bind]. eauto.
Qed.

(** In the initial position no pawn stands on a last rank, and the test for
    White returns. *)
Lemma check_test_returns_without_last_rank_pawns_witness :
  exists b, kingIsInCheck initialState "w" = Ok b.
Proof.
  apply (check_test_returns_without_last_rank_pawns initialState "w"
           wf_initialState).
  intros file rank Hf Hr (piece & Hp & Hk & Hrank).
  cases8 file; cases8 rank;
    vm_compute in Hp; injection Hp as <-;
    vm_compute in Hk; try discriminate Hk;
    vm_compute in Hrank; discriminate Hrank.
Defined.

(** ** Reading the serialization back *)

(** X20: the castling field of the serialization tells the four rights
    apart: each of the letters K, Q, k, q occurs in it exactly when its
    right is available, the field is the text - exactly when none is, and
    it is never empty. *)
Theorem castling_field_reads_back (s : GameState) :
  mentions "K" (getFENCastling s) = whiteCastleKingsideAvailable s
  /\ mentions "Q" (getFENCastling s) = whiteCastleQueensideAvailable s
  /\ mentions "k" (getFENCastling s) = blackCastleKingsideAvailable s
  /\ mentions "q" (getFENCastling s) = blackCastleQueensideAvailable s
  /\ (getFENCastling s = "-" <->
      whiteCastleKingsideAvailable s = false
      /\ whiteCastleQueensideAvailable s = false
      /\ blackCastleKingsideAvailable s = false
      /\ blackCastleQueensideAvailable s = false)
  /\ getFENCastling s <> "".
Proof.
  unfold getFENCastling.
  destruct (whiteCastleKingsideAvailable s), (whiteCastleQueensideAvailable s),
    (blackCastleKingsideAvailable s), (blackCastleQueensideAvailable s);
    vm_compute; intuition discriminate.
Qed.

Lemma list_ascii_app (a b : string) :
  list_ascii_of_string (a ++ b)
  = (list_ascii_of_string a ++ list_ascii_of_string b)%list.
Proof.
  induction a as [|c a IH]; [reflexivity|]. cbn. now rewrite IH.
Qed.

Lemma parseState_app (a b : string) :
  parseState (a ++ b) = fold_left fenStep (list_ascii_of_string b) (parseState a).
Proof.
  unfold parseState. now rewrite list_ascii_app, fold_left_app.
Qed.

Lemma parse_counter (result : string) (counter : Z)
  (done : list (list string)) (current : list string) :
  0 < counter <= 8 ->
  parseState result = (done, current) ->
  parseState (result ++ numberText counter)
  = (done, (current ++ repeat "ee" (Z.to_nat counter))%list).
Proof.
  intros Hc H. rewrite parseState_app, H.
  assert (Hcases : counter = 1 \/ counter = 2 \/ counter = 3 \/ counter = 4
                   \/ counter = 5 \/ counter = 6 \/ counter = 7 \/ counter = 8)
    by lia.
  destruct Hcases as [->|[->|[->|[->|[->|[->|[->| ->]]]]]]]; reflexivity.
Qed.

Lemma parse_letter (result x : string) (done : list (list string))
  (current : list string) :
  In x pieceNames ->
  parseState result = (done, current) ->
  parseState (result ++ fenLetter x) = (done, (current ++ [x])%list).
Proof.
  intros Hx H. rewrite parseState_app, H.
  unfold pieceNames in Hx. cbn [In] in Hx.
  repeat (destruct Hx as [<-|Hx]; [reflexivity|]). destruct Hx.
Qed.

Lemma fenSquare_step (p : Position) (rank file : Z) (result : string)
  (counter : Z) (x : string) (done : list (list string))
  (current : list string) :
  at_ p file rank = Ok (Some x) ->
  x = "ee" \/ In x pieceNames ->
  0 <= counter <= 8 ->
  parseState result = (done, current) ->
  exists result' counter' current',
    fenSquare p rank file (result, counter) = Ok (result', counter')
    /\ parseState result' = (done, current')
    /\ 0 <= counter' <= counter + 1
    /\ (current' ++ repeat "ee" (Z.to_nat counter')
        = current ++ repeat "ee" (Z.to_nat counter) ++ [x])%list.
Proof.
  intros Hx Hknown Hc Hparse. unfold fenSquare. rewrite Hx. cbn [bind].
  destruct Hknown as [->|Hknown].
  - cbn [eqv String.eqb Ascii.eqb Bool.eqb negb andb].
    exists result, (counter + 1), current.
    split; [reflexivity|]. split; [assumption|]. split; [lia|].
    replace (Z.to_nat (counter + 1)) with (S (Z.to_nat counter)) by lia.
    cbn [repeat]. now rewrite repeat_cons.
  - assert (Hne : (x =? "ee")%string = false).
    { unfold pieceNames in Hknown. cbn [In] in Hknown.
      repeat (destruct Hknown as [<-|Hknown]; [reflexivity|]).
      destruct Hknown. }
    cbn [eqv]. rewrite Hne. cbn [negb andb].
    destruct (counter >? 0) eqn:Epos.
    + exists ((result ++ numberText counter) ++ fenLetter x)%string, 0,
        ((current ++ repeat "ee" (Z.to_nat counter)) ++ [x])%list.
      split; [reflexivity|]. split.
      * apply parse_letter; [assumption|]. apply parse_counter; [|assumption].
        rewrite Z.gtb_ltb, Z.ltb_lt in Epos. lia.
      * split; [lia|]. cbn [Z.to_nat repeat].
        now rewrite app_nil_r, app_assoc.
    + exists (result ++ fenLetter x)%string, counter, (current ++ [x])%list.
      split; [reflexivity|]. split; [now apply parse_letter|].
      split; [lia|].
      rewrite Z.gtb_ltb, Z.ltb_ge in Epos.
      replace counter with 0 by lia. cbn [Z.to_nat repeat].
      now rewrite app_nil_r.
Qed.

Lemma fenFiles_step (p : Position) (rank : Z) (files : list Z) :
  wfPosition p -> knownPosition p -> 0 <= rank < 8 ->
  (forall file, In file files -> 0 <= file < 8) ->
  forall (result : string) (counter : Z) (done : list (list string))
         (current : list string),
    0 <= counter -> counter + Z.of_nat (List.length files) <= 8 ->
    parseState result = (done, current) ->
    exists result' counter' current',
      fenFiles p rank files (result, counter) = Ok (result', counter')
      /\ parseState result' = (done, current')
      /\ 0 <= counter' <= 8
      /\ (current' ++ repeat "ee" (Z.to_nat counter')
          = current ++ repeat "ee" (Z.to_nat counter)
            ++ map (fun file => match at_ p file rank with
                                | Ok (Some x) => x
                                | _ => ""
                                end) files)%list.
Proof.
  intros Hwf Hknown Hr. induction files as [|file files IH];
    intros Hfiles result counter done current Hc Hlen Hparse.
  - exists result, counter, current. cbn [fenFiles map].
    rewrite app_nil_r. repeat split; auto; lia.
  - cbn [List.length] in Hlen.
    destruct (at_in_range _ _ _ Hwf (Hfiles file (or_introl eq_refl)) Hr)
      as [x Hx].
    assert (Hc' : 0 <= counter <= 8) by lia.
    destruct (fenSquare_step _ _ _ _ _ _ _ _ Hx (Hknown _ _ _ Hx) Hc' Hparse)
      as (result1 & counter1 & current1 & Hstep & Hparse1 & Hc1 & Hcur1).
    assert (Hpos : 0 <= counter1) by lia.
    assert (Hlen1 : counter1 + Z.of_nat (List.length files) <= 8) by lia.
    destruct (IH (fun f Hf => Hfiles f (or_intror Hf))
                result1 counter1 done current1 Hpos Hlen1 Hparse1)
      as (result2 & counter2 & current2 & Hrest & Hparse2 & Hc2 & Hcur2).
    exists result2, counter2, current2. cbn [fenFiles map].
    rewrite Hstep. cbn [bind]. split; [assumption|]. split; [assumption|].
    split; [assumption|].
    rewrite Hcur2, Hx, app_assoc, Hcur1, <- !app_assoc. reflexivity.
Qed.

Lemma fenRank_step (p : Position) (rank : Z) (result : string)
  (done : list (list string)) :
  wfPosition p -> knownPosition p -> 0 <= rank < 8 ->
  parseState result = (done, []) ->
  exists result',
    fenRank p rank result = Ok result'
    /\ parseState result'
       = if rank >? 0 then ((done ++ [rankEntries p rank])%list, [])
         else (done, rankEntries p rank).
Proof.
  intros Hwf Hknown Hr Hparse. unfold fenRank.
  destruct (fenFiles_step p rank (upFrom 0) Hwf Hknown Hr
              ltac:(intros file Hin; apply In_upFrom in Hin; lia)
              result 0 done [] ltac:(lia) ltac:(vm_compute; discriminate)
              Hparse)
    as (result1 & counter1 & current1 & Hfiles & Hparse1 & Hc1 & Hcur1).
  rewrite Hfiles. cbn [bind]. cbn [Z.to_nat repeat app] in Hcur1.
  fold (rankEntries p rank) in Hcur1.
  assert (Hflush : parseState (if counter1 >? 0
                               then (result1 ++ numberText counter1)%string
                               else result1)
                   = (done, rankEntries p rank)).
  { destruct (counter1 >? 0) eqn:Epos.
    - rewrite Z.gtb_ltb, Z.ltb_lt in Epos.
      rewrite (parse_counter _ _ done current1) by (assumption || lia).
      now rewrite Hcur1.
    - rewrite Z.gtb_ltb, Z.ltb_ge in Epos.
      replace counter1 with 0 in Hcur1 by lia.
      cbn [Z.to_nat repeat] in Hcur1. rewrite app_nil_r in Hcur1.
      now rewrite <- Hcur1. }
  eexists. split; [reflexivity|].
  destruct (rank >? 0); [|exact Hflush].
  rewrite parseState_app, Hflush. reflexivity.
Qed.

(** The loop over the ranks: the text it returns, read from left to right,
    leaves the ranks 8 to 2 complete and rank 1 being read. *)
Lemma piece_field_state (s : GameState) :
  wf s -> knownPosition (position s) ->
  exists text,
    getFENPieces s = Ok text
    /\ parseState text
       = (map (rankEntries (position s)) [7; 6; 5; 4; 3; 2; 1],
          rankEntries (position s) 0).
Proof.
  intros Hwf Hknown. unfold getFENPieces.
  change (downFrom 7) with [7; 6; 5; 4; 3; 2; 1; 0]. cbn [fenRanks map].
  assert (H0 : parseState "" = ([], [])) by reflexivity.
  destruct (fenRank_step _ 7 _ _ Hwf Hknown ltac:(lia) H0) as (r7 & -> & H7).
  cbn [bind Z.gtb Z.compare] in *.
  destruct (fenRank_step _ 6 _ _ Hwf Hknown ltac:(lia) H7) as (r6 & -> & H6).
  cbn [bind Z.gtb Z.compare] in *.
  destruct (fenRank_step _ 5 _ _ Hwf Hknown ltac:(lia) H6) as (r5 & -> & H5).
  cbn [bind Z.gtb Z.compare] in *.
  destruct (fenRank_step _ 4 _ _ Hwf Hknown ltac:(lia) H5) as (r4 & -> & H4).
  cbn [bind Z.gtb Z.compare] in *.
  destruct (fenRank_step _ 3 _ _ Hwf Hknown ltac:(lia) H4) as (r3 & -> & H3).
  cbn [bind Z.gtb Z.compare] in *.
  destruct (fenRank_step _ 2 _ _ Hwf Hknown ltac:(lia) H3) as (r2 & -> & H2).
  cbn [bind Z.gtb Z.compare] in *.
  destruct (fenRank_step _ 1 _ _ Hwf Hknown ltac:(lia) H2) as (r1 & -> & H1).
  cbn [bind Z.gtb Z.compare] in *.
  destruct (fenRank_step _ 0 _ _ Hwf Hknown ltac:(lia) H1) as (r0 & -> & H).
  cbn [bind Z.gtb Z.compare] in *.
  exists r0. split; [reflexivity|]. exact H.
Qed.

(** X21: on an 8 by 8 board that holds only the empty marker and the twelve
    piece strings, [getFENPieces] returns a text that reads back to the
    board: read from left to right, a letter as its piece, a digit as that
    many empty squares and a slash as the end of a rank, it gives the eight
    ranks from rank 8 down to rank 1, each from file a to file h. *)
Theorem piece_field_reads_back (s : GameState) :
  wf s -> knownPosition (position s) ->
  exists text,
    getFENPieces s = Ok text
    /\ parseFENPieces text = ranksFromTop (position s).
Proof.
  intros Hwf Hknown.
  destruct (piece_field_state _ Hwf Hknown) as (text & Htext & Hstate).
  exists text. split; [assumption|].
  unfold parseFENPieces. rewrite Hstate. reflexivity.
Qed.

(** The piece field of the initial position reads back to its board. *)
Lemma piece_field_reads_back_witness :
  exists text,
    getFENPieces initialState = Ok text
    /\ parseFENPieces text = ranksFromTop (position initialState).
Proof.
  apply (piece_field_reads_back initialState wf_initialState).
  intros file rank x Hx.
  assert (Hrange : 0 <= file < 8 /\ 0 <= rank < 8)
    by (eapply at_Some_range; [exact wf_initialState | exact Hx]).
  destruct Hrange as [Hf Hr].
  cases8 file; cases8 rank; vm_compute in Hx; injection Hx as <-;
    vm_compute; tauto.
Defined.

(** ** Pieces on the board *)

Lemma weight_update {A : Type} (w : A -> nat) (a : list A) (n : nat)
  (x old : A) :
  nth_error a n = Some old ->
  (list_sum (map w (update a n x)) + w old = list_sum (map w a) + w x)%nat.
Proof.
  unfold list_sum.
  revert n. induction a as [|y a IH]; intros [|n] H; try discriminate.
  - injection H as ->. cbn [update map fold_right]. lia.
  - cbn [update map fold_right nth_error] in *. specialize (IH _ H). lia.
Qed.

Lemma weight_setZ {A : Type} (w : A -> nat) (a : list A) (i : Z) (x old : A) :
  nthZ a i = Some old ->
  (list_sum (map w (setZ a i x)) + w old = list_sum (map w a) + w x)%nat.
Proof.
  unfold nthZ, setZ. destruct (i <? 0); [discriminate|]. apply weight_update.
Qed.

Lemma setEntry_weight (w : string -> nat) (p p' : Position) (f r : Z)
  (x : string) :
  setEntry p f r x = Ok p' ->
  exists old,
    at_ p f r = Ok (Some old)
    /\ (weightOf w p' + w old = weightOf w p + w x)%nat.
Proof.
  unfold setEntry, at_.
  destruct (nthZ p f) as [column|] eqn:Ec; [|discriminate].
  destruct (nthZ column r) as [old|] eqn:Er; [|discriminate].
  intros H. injection H as <-. exists old. split; [reflexivity|].
  unfold weightOf.
  pose proof (weight_setZ (fun column => list_sum (map w column))
                p f (setZ column r x) column Ec) as Hp.
  pose proof (weight_setZ w column r x old Er) as Hc.
  cbv beta in Hp. lia.
Qed.

Lemma setEntry_known (p p' : Position) (f r : Z) (x : string) :
  knownPosition p -> x = "ee" \/ In x pieceNames ->
  setEntry p f r x = Ok p' -> knownPosition p'.
Proof.
  intros Hknown Hx Hset f' r' y Hy.
  destruct (Z.eq_dec f' f) as [->|Hf].
  - destruct (Z.eq_dec r' r) as [->|Hr].
    + rewrite (at_setEntry_same _ _ _ _ _ Hset) in Hy. now injection Hy as <-.
    + rewrite (at_setEntry_other _ _ _ _ _ _ _ Hset) in Hy by congruence.
      eauto.
  - rewrite (at_setEntry_other _ _ _ _ _ _ _ Hset) in Hy by congruence. eauto.
Qed.

(** Moving an entry from one cell to another and clearing the first, as a
    move or a rook relocation does, removes what the second cell held. *)
Lemma move_entry_weight (w : string -> nat) (p p1 p2 : Position)
  (a d : Square) (x : string) :
  w "ee" = 0%nat ->
  cell a <> cell d ->
  pieceAt p a = Ok (Some x) ->
  setPieceOnSquare p d x = Ok p1 ->
  setPieceOnSquare p1 a "ee" = Ok p2 ->
  (weightOf w p2 <= weightOf w p)%nat.
Proof.
  intros Hw Hcells Hx H1 H2.
  destruct (setEntry_weight w _ _ _ _ _ H1) as (old & _ & Hc1).
  destruct (setEntry_weight w _ _ _ _ _ H2) as (old' & Hold' & Hc2).
  fold (pieceAt p1 a) in Hold'.
  rewrite (pieceAt_set_other _ _ _ _ _ H1 Hcells), Hx in Hold'.
  injection Hold' as <-. lia.
Qed.

Lemma move_entry_known (p p1 p2 : Position) (a d : Square) (x : string) :
  knownPosition p ->
  pieceAt p a = Ok (Some x) ->
  setPieceOnSquare p d x = Ok p1 ->
  setPieceOnSquare p1 a "ee" = Ok p2 ->
  knownPosition p2.
Proof.
  intros Hknown Hx H1 H2.
  eapply setEntry_known; [|now left|exact H2].
  eapply setEntry_known; [exact Hknown| |exact H1]. eapply Hknown, Hx.
Qed.

Lemma relocateRook_weight (w : string -> nat) (p p' : Position)
  (a d : string) (r : value) :
  w "ee" = 0%nat ->
  fileFromSquare (d ++ text r) <> fileFromSquare (a ++ text r) ->
  relocateRook p a d r = Ok p' ->
  (weightOf w p' <= weightOf w p)%nat.
Proof.
  intros Hw Hfiles H. unfold relocateRook in H. bind_inv H.
  destruct a0 as [rook|]; [|discriminate]. bind_inv H.
  eapply (move_entry_weight w p a0 p' (a ++ text r) (d ++ text r));
    try eassumption.
  unfold cell. intros Hc. injection Hc as Hc _. congruence.
Qed.

Lemma relocateRook_known (p p' : Position) (a d : string) (r : value) :
  knownPosition p -> relocateRook p a d r = Ok p' -> knownPosition p'.
Proof.
  intros Hknown H. unfold relocateRook in H. bind_inv H.
  destruct a0 as [rook|]; [|discriminate]. bind_inv H.
  eapply move_entry_known; eassumption.
Qed.

(** No executed move adds to a weight that gives the empty marker 0, and
    none writes an entry that is not known. *)
Lemma executed_weight_known (w : string -> nat) (s : GameState)
  (fromSquare toSquare : Square) (s' : GameState) :
  w "ee" = 0%nat ->
  wf s -> executed s fromSquare toSquare s' ->
  (weightOf w (position s') <= weightOf w (position s))%nat
  /\ (knownPosition (position s) -> knownPosition (position s')).
Proof.
  intros Hw Hwf Hex.
  destruct (executed_move _ _ _ _ Hex) as (x & moves & Hx & Hne & Hgen & Hin).
  pose proof (destination_is_not_source _ _ _ _ _ Hwf Hx Hne Hgen Hin) as Hcells.
  destruct Hex. rewrite Hposition. bind_inv Hp1.
  assert (x = piece) as -> by congruence.
  assert (H1 : (weightOf w p1 <= weightOf w (position s))%nat
               /\ (knownPosition (position s) -> knownPosition p1)).
  { split.
    - eapply (move_entry_weight w _ a p1 fromSquare toSquare); try eassumption.
      intros Hc. apply Hcells. now symmetry.
    - intros Hknown. eapply move_entry_known; eassumption. }
  assert (H2 : (weightOf w p2 <= weightOf w p1)%nat
               /\ (knownPosition p1 -> knownPosition p2)).
  { destruct (_ && _) in Hp2; [|injection Hp2 as <-; auto].
    split.
    - destruct (setEntry_weight w _ _ _ _ _ Hp2) as (old & _ & Hc). lia.
    - intros Hknown. eapply setEntry_known; [exact Hknown|now left|exact Hp2]. }
  assert (H3 : (weightOf w p3 <= weightOf w p2)%nat
               /\ (knownPosition p2 -> knownPosition p3)).
  { destruct (_ && _) in Hp3; [|injection Hp3 as <-; auto].
    split.
    - eapply relocateRook_weight; [exact Hw| |exact Hp3]. cbn. discriminate.
    - intros Hknown. eapply relocateRook_known; eassumption. }
  assert (H4 : (weightOf w p4 <= weightOf w p3)%nat
               /\ (knownPosition p3 -> knownPosition p4)).
  { destruct (_ && _) in Hp4; [|injection Hp4 as <-; auto].
    split.
    - eapply relocateRook_weight; [exact Hw| |exact Hp4]. cbn. discriminate.
    - intros Hknown. eapply relocateRook_known; eassumption. }
  split; [lia | tauto].
Qed.

(** X22: every reachable state has an 8 by 8 board whose entries are the
    empty marker or one of the twelve piece strings, with at most
    thirty-two pieces on it: no executed move adds a piece or writes
    anything but an entry it has read or the empty marker.  So on every
    reachable state the piece field of the serialization is returned. *)
Theorem reachable_boards_hold_known_pieces (s : GameState) :
  reachable s ->
  wf s
  /\ knownPosition (position s)
  /\ (pieceCount (position s) <= 32)%nat
  /\ exists text, getFENPieces s = Ok text.
Proof.
  intros Hreach.
  assert (H : wf s /\ knownPosition (position s)
              /\ (pieceCount (position s) <= 32)%nat).
  { revert s Hreach. apply reachable_invariant.
    - split; [exact wf_initialState|]. split; [|vm_compute; lia].
      intros file rank x Hx.
      assert (Hrange : 0 <= file < 8 /\ 0 <= rank < 8)
        by (eapply at_Some_range; [exact wf_initialState | exact Hx]).
      destruct Hrange as [Hf Hr].
      cases8 file; cases8 rank; vm_compute in Hx; injection Hx as <-;
        vm_compute; tauto.
    - intros s fromSquare toSquare s' Hwf (_ & Hknown & Hcount) _ _ Hex.
      destruct (executed_weight_known occupied _ _ _ _ eq_refl Hwf Hex)
        as [Hc Hk].
      split; [eapply executed_wf; eassumption|].
      split; [auto | unfold pieceCount in *; lia]. }
  destruct H as (Hwf & Hknown & Hcount).
  split; [assumption|]. split; [assumption|]. split; [assumption|].
  destruct (piece_field_state _ Hwf Hknown) as (text & Htext & _). eauto.
Qed.

(** The state after 1. e4. *)
Lemma reachable_boards_hold_known_pieces_witness :
  wf afterE4
  /\ knownPosition (position afterE4)
  /\ (pieceCount (position afterE4) <= 32)%nat
  /\ exists text, getFENPieces afterE4 = Ok text.
Proof.
  apply (reachable_boards_hold_known_pieces afterE4).
  exists [Legal "e2" "e4"]. split; vm_compute; reflexivity.
Defined.

(** ** En passant *)

(** X23: on a reachable state, an executed pawn move to an empty square of
    another file takes en passant: the field [twoSquarePawnMove] names the
    square beside the source on the destination's file, that square holds a
    pawn of the other branch, and after the move it is empty and the moving
    pawn stands on the destination. *)
Theorem en_passant_removes_the_passed_pawn (s : GameState)
  (fromSquare toSquare : Square) (s' : GameState) (piece : string) :
  reachable s ->
  executed s fromSquare toSquare s' ->
  _getPieceOnSquare s fromSquare = Ok (Some piece) ->
  idx piece 1 = Some "p" ->
  fileFromSquare toSquare <> fileFromSquare fromSquare ->
  emptyCell (position s) (cell toSquare) ->
  twoSquarePawnMove s
  = squareFromFileRank (fileFromSquare toSquare) (rankFromSquare fromSquare)
  /\ (exists pawn,
         at_ (position s) (fileFromSquare toSquare) (rankFromSquare fromSquare)
         = Ok (Some pawn)
         /\ idx pawn 1 = Some "p"
         /\ isWhite pawn = negb (isWhite piece))
  /\ at_ (position s') (fileFromSquare toSquare) (rankFromSquare fromSquare)
     = Ok (Some "ee")
  /\ _getPieceOnSquare s' toSquare = Ok (Some piece).
Proof.
  intros Hreach Hex Hpiece Hk Hdiag Hempty.
  pose proof (reachable_wf _ Hreach) as Hwf.
  pose proof (reachable_recordsPassedPawn _ Hreach) as Hrec.
  pose proof (at_Some_range _ _ _ _ Hwf Hpiece) as [Hf Hr].
  destruct (executed_facts _ _ _ _ _ Hwf Hex Hpiece) as (Hcells & Hon & Hpawn).
  destruct (Hpawn Hk) as (moves & Hgen & Hin).
  assert (Hfifth : enPassantRank piece + pawnDirection piece = 5
                   \/ enPassantRank piece + pawnDirection piece = 2)
    by (unfold pawnDirection, enPassantRank; destruct (isWhite piece); auto).
  assert (Hpassed : twoSquarePawnMove s
                    = squareFromFileRank (fileFromSquare toSquare)
                        (rankFromSquare fromSquare)
                    /\ exists pawn,
                         at_ (position s) (fileFromSquare toSquare)
                           (rankFromSquare fromSquare)
                         = Ok (Some pawn)
                         /\ idx pawn 1 = Some "p"
                         /\ isWhite pawn = negb (isWhite piece)).
  { destruct (pawn_sound _ _ _ _ _ Hwf Hgen Hpiece Hin)
      as [[Hto He]|[(Hto & _ & _ & He)|(df & Hdf & Hto & [He|(Hr5 & Hfr & Htwo)])]].
    - exfalso. apply Hdiag.
      pose proof (emptyCell_range _ _ Hwf He) as [_ Hr']. cbn [snd] in Hr'.
      destruct (file_rank_of_square _ _ Hf Hr') as [E _]. now rewrite <- Hto in E.
    - exfalso. apply Hdiag.
      pose proof (emptyCell_range _ _ Hwf He) as [_ Hr']. cbn [snd] in Hr'.
      destruct (file_rank_of_square _ _ Hf Hr') as [E _]. now rewrite <- Hto in E.
    - exfalso. pose proof (enemyCell_range _ _ _ Hwf He) as [Hf' Hr'].
      cbn [fst snd] in Hf', Hr'.
      rewrite Hto, cell_of_square in Hempty by assumption.
      destruct He as (v & Hv & Hne & _). unfold emptyCell in Hempty.
      rewrite Hv in Hempty. injection Hempty as ->. now apply Hne.
    - destruct (en_passant_cell _ _ _ _ Hwf Hrec Hpiece Hr5 Hfr Htwo)
        as (_ & pawn & Hp).
      assert (Hc : cell toSquare
                   = (fileFromSquare fromSquare + df,
                      rankFromSquare fromSquare + pawnDirection piece))
        by (rewrite Hto; apply cell_of_square; lia).
      apply (f_equal fst) in Hc. cbn [cell fst] in Hc. rewrite Hc.
      split; [exact Htwo | exists pawn; exact Hp]. }
  destruct Hpassed as [Htwo Hpassed].
  split; [exact Htwo|]. split; [exact Hpassed|].
  split; [|eapply moved_piece_lands; eassumption].
  assert (Hne : idx fromSquare 0 <> idx toSquare 0).
  { intros Heq. apply Hdiag.
    destruct (first_char_defined _ Hon) as [c Hc].
    rewrite <- (file_of_first_char toSquare "" c Hc).
    rewrite <- Heq in Hc. now rewrite <- (file_of_first_char fromSquare "" c Hc). }
  pose proof (pawn_file_change_clears_side_square _ _ _ _ _ Hex Hpiece Hk Hne)
    as Hclear.
  unfold pieceAt in Hclear.
  pose proof (side_square_cell fromSquare toSquare Hon ltac:(lia)) as Hside.
  unfold cell in Hside. injection Hside as Hfile Hrank.
  now rewrite Hfile, Hrank in Hclear.
Qed.

(** 1. e4 a6 2. e5 d5 3. exd6: d5 is empty after the move and the white
    pawn stands on d6. *)
Lemma en_passant_removes_the_passed_pawn_witness :
  at_ (position afterEnPassant) 3 4 = Ok (Some "ee")
  /\ _getPieceOnSquare afterEnPassant "d6" = Ok (Some "wp").
Proof.
  assert (Hex : executed enPassantReady "e5" "d6" afterEnPassant).
  { apply executed_of_play; [|discriminate]. left. vm_compute. reflexivity. }
  assert (Hreach : reachable enPassantReady).
  { exists [Legal "e2" "e4"; Legal "a7" "a6"; Legal "e4" "e5"; Legal "d7" "d5"].
    split; vm_compute; reflexivity. }
  destruct (en_passant_removes_the_passed_pawn enPassantReady "e5" "d6"
              afterEnPassant "wp" Hreach Hex
              ltac:(vm_compute; reflexivity) ltac:(reflexivity)
              ltac:(vm_compute; discriminate) ltac:(vm_compute; reflexivity))
    as (_ & _ & Hclear & Hland).
  split; [exact Hclear | exact Hland].
Defined.

(** ** What the widget is given to draw *)

Lemma mapM_spec {A B : Type} (f : A -> res B) (l : list A) (r : list B) :
  mapM f l = Ok r -> Forall2 (fun x y => f x = Ok y) l r.
Proof.
  revert r. induction l as [|x l IH]; cbn [mapM]; intros r H.
  - injection H as <-. constructor.
  - bind_inv H. bind_inv H. injection H as <-. constructor; auto.
Qed.

Lemma Forall2_impl_In {A B : Type} (R Q : A -> B -> Prop) (l : list A)
  (r : list B) :
  (forall x y, In x l -> R x y -> Q x y) -> Forall2 R l r -> Forall2 Q l r.
Proof.
  intros H HR. induction HR as [|x y l r Hxy _ IH]; constructor.
  - apply H; [now left | assumption].
  - apply IH. intros x' y' Hin. apply H. now right.
Qed.

(** X24: on an 8 by 8 board [updatePieces] returns and passes the widget
    one pair for each of the sixty-four squares, in the order of the
    engine's squares: the square with [null] where the engine holds the
    empty marker, and with the engine's piece elsewhere. *)
Theorem updatePieces_shows_the_board (s : GameState) :
  wf s ->
  exists shown,
    updatePieces s = Ok shown
    /\ map fst shown = allSquares
    /\ forall square piece,
         In (square, piece) shown ->
         (piece = None /\ _getPieceOnSquare s square = Ok (Some "ee"))
         \/ (exists x, piece = Some (Some x) /\ x <> "ee"
                       /\ _getPieceOnSquare s square = Ok (Some x)).
Proof.
  intros Hwf. destruct (updatePieces_total _ Hwf) as [shown Hshown].
  exists shown. split; [assumption|].
  apply mapM_spec in Hshown. change updatePiecesSquares with allSquares in Hshown.
  assert (Hall : Forall2 (fun square y =>
                            fst y = square
                            /\ ((snd y = None
                                 /\ _getPieceOnSquare s square = Ok (Some "ee"))
                                \/ exists x, snd y = Some (Some x) /\ x <> "ee"
                                             /\ _getPieceOnSquare s square
                                                = Ok (Some x)))
                         allSquares shown).
  { eapply Forall2_impl_In; [|exact Hshown]. cbv beta.
    intros square [square' piece] Hin H.
    apply onBoard_allSquares, onBoard_cell in Hin as [Hf Hr].
    destruct (at_in_range _ _ _ Hwf Hf Hr) as [held Hheld].
    unfold getPieceOnSquare in H.
    bind_inv H. bind_inv E. injection H as <- <-. cbn [fst snd].
    split; [reflexivity|].
    destruct (a0 === Some "ee") eqn:Ee; injection E as <-.
    - apply eqv_true in Ee. subst a0. left. auto.
    - right. unfold _getPieceOnSquare, pieceAt in E0.
      rewrite Hheld in E0. injection E0 as <-.
      exists held. split; [reflexivity|]. split; [|assumption].
      intros ->. discriminate. }
  clear Hshown. revert Hall. generalize allSquares. intros squares Hall.
  split.
  - induction Hall as [|square y l r [Hy _] _ IH]; [reflexivity|].
    change (fst y :: map fst r = square :: l).
    f_equal; [exact Hy | exact IH].
  - intros square piece Hin.
    induction Hall as [|square' y l r [Hy Hcase] _ IH]; [destruct Hin|].
    destruct Hin as [->|Hin]; [|auto].
    cbn [fst snd] in Hy, Hcase. now subst square'.
Qed.

(** What the widget is given for the initial position. *)
Lemma updatePieces_shows_the_board_witness :
  exists shown,
    updatePieces initialState = Ok shown /\ map fst shown = allSquares.
Proof.
  destruct (updatePieces_shows_the_board initialState wf_initialState)
    as (shown & H & Hsquares & _).
  exists shown. split; assumption.
Defined.

(** ** Games played by clicks *)

Lemma handleClick_onBoard (column row : Z) :
  0 <= column <= 8 -> 0 <= row <= 8 ->
  onBoard (BoardWidget.handleClick column row).
Proof.
  intros Hc Hr. apply onBoard_allSquares, includes_In.
  cases9 column; cases9 row; vm_compute; reflexivity.
Qed.

Lemma run_app (cs : list call) (c : call) (s0 : GameState) :
  run (cs ++ [c]) s0 = (s <- run cs s0 ;; exec s c).
Proof.
  revert s0. induction cs as [|c' cs IH]; intros s0; cbn [run app].
  - cbn [bind]. destruct (exec s0 c); reflexivity.
  - destruct (exec s0 c'); cbn [bind]; [apply IH | reflexivity].
Qed.

Lemma reachable_call (s : GameState) (c : call) (s' : GameState) :
  reachable s ->
  onBoard (source c) -> onBoard (destination c) ->
  exec s c = Ok s' ->
  reachable s'.
Proof.
  intros (cs & Hvalid & Hrun) Hsrc Hdst Hexec. exists (cs ++ [c])%list. split.
  - unfold validCalls in *. rewrite forallb_app, Hvalid. cbn [forallb andb].
    apply onBoard_allSquares, includes_In in Hsrc, Hdst.
    now rewrite Hsrc, Hdst.
  - rewrite run_app, Hrun. exact Hexec.
Qed.

(** X25: every game played by clicks in the board holds a reachable state
    of the engine, and its selected square is null or a square of the board
    with a piece of the active colour.  So the invariants of the reachable
    states hold in every game a page shows. *)
Theorem games_by_clicks_are_reachable (g : ChessGame) :
  played g ->
  reachable (boardState g)
  /\ selectionOk g
  /\ (forall selected, selectedSquare g = Some selected -> onBoard selected).
Proof.
  induction 1 as [|g column row g' o _ (Hreach & Hsel & Hon) Hc Hr Hclick].
  - split; [exists []; split; reflexivity|]. split; [exact I|].
    intros selected Hs. discriminate.
  - pose proof (handleClick_onBoard _ _ Hc Hr) as Hsquare.
    destruct (either_click_cases _ _ _ _ (reachable_wf _ Hreach) Hsel Hclick)
      as (_ & Hsel' & Hnew & Heffect).
    split; [|split; [assumption|]].
    + destruct Heffect
        as [->|(selected & piece & Hs & _ & _ & _ & Hplay & _)];
        [assumption|].
      apply (reachable_call _ (Legal selected (BoardWidget.handleClick column row))
               _ Hreach); [apply Hon, Hs | exact Hsquare | exact Hplay].
    + intros selected Hs.
      destruct Hnew as [Hn|[Hn|Hn]]; rewrite Hn in Hs.
      * discriminate.
      * now injection Hs as <-.
      * now apply Hon.
Qed.

(** A click on e2 (column 4, row 6) and one on e4 (column 4, row 4) play
    1. e4. *)
Lemma games_by_clicks_are_reachable_witness :
  reachable afterE4.
Proof.
  assert (H : played {| boardState := afterE4; selectedSquare := None |}).
  { apply (played_click
             {| boardState := initialState; selectedSquare := Some "e2" |}
             4 4 _ Returned); [|lia|lia|left; vm_compute; reflexivity].
    apply (played_click
             {| boardState := initialState; selectedSquare := None |}
             4 6 _ Returned); [|lia|lia|left; vm_compute; reflexivity].
    exact played_start. }
  exact (proj1 (games_by_clicks_are_reachable _ H)).
Defined.

(** ** Kings and castling rights *)

Lemma weight_two (w : string -> nat) (p : Position) (f r f' r' : Z)
  (x y : string) :
  w "ee" = 0%nat ->
  wfPosition p ->
  at_ p f r = Ok (Some x) -> at_ p f' r' = Ok (Some y) ->
  (f', r') <> (f, r) ->
  (w x + w y <= weightOf w p)%nat.
Proof.
  intros Hw Hwf Hx Hy Hne.
  destruct (at_Some_range _ _ _ _ Hwf Hx) as [Hf Hr].
  destruct (at_Some_range _ _ _ _ Hwf Hy) as [Hf' Hr'].
  destruct (setEntry_in_range p f r "ee" Hwf Hf Hr) as [p1 H1].
  pose proof (setEntry_wf _ _ _ _ _ Hwf H1) as Hwf1.
  destruct (setEntry_in_range p1 f' r' "ee" Hwf1 Hf' Hr') as [p2 H2].
  destruct (setEntry_weight w _ _ _ _ _ H1) as (old & Hold & Hc1).
  destruct (setEntry_weight w _ _ _ _ _ H2) as (old' & Hold' & Hc2).
  rewrite Hx in Hold. injection Hold as <-.
  rewrite (at_setEntry_other _ _ _ _ _ _ _ H1 Hne), Hy in Hold'.
  injection Hold' as <-. lia.
Qed.

Lemma pawn_move_rank (s : GameState) (square : Square) (moves : list Square)
  (piece : string) (toSquare : Square) :
  wf s ->
  getPawnPseudoLegalMoves s square = Ok moves ->
  _getPieceOnSquare s square = Ok (Some piece) ->
  In toSquare moves ->
  rankFromSquare toSquare = rankFromSquare square + pawnDirection piece
  \/ rankFromSquare toSquare = rankFromSquare square + 2 * pawnDirection piece.
Proof.
  intros Hwf Hgen Hpiece Hin.
  pose proof (at_Some_range _ _ _ _ Hwf Hpiece) as [Hf Hr].
  destruct (pawn_sound _ _ _ _ _ Hwf Hgen Hpiece Hin)
    as [[Hto He]|[(Hto & _ & _ & He)|(df & Hdf & Hto & [He|(Hr5 & Hfr & Htwo)])]].
  - left. pose proof (emptyCell_range _ _ Hwf He) as [_ Hr']. cbn [snd] in Hr'.
    destruct (file_rank_of_square _ _ Hf Hr') as [_ E]. now rewrite <- Hto in E.
  - right. pose proof (emptyCell_range _ _ Hwf He) as [_ Hr']. cbn [snd] in Hr'.
    destruct (file_rank_of_square _ _ Hf Hr') as [_ E]. now rewrite <- Hto in E.
  - left. pose proof (enemyCell_range _ _ _ Hwf He) as [Hf' Hr'].
    cbn [fst snd] in Hf', Hr'.
    destruct (file_rank_of_square _ _ Hf' Hr') as [_ E]. now rewrite <- Hto in E.
  - left.
    assert (Hr' : 0 <= rankFromSquare square + pawnDirection piece < 8).
    { unfold pawnDirection, enPassantRank in *. destruct (isWhite piece); lia. }
    destruct (file_rank_of_square _ _ Hfr Hr') as [_ E]. now rewrite <- Hto in E.
Qed.

Lemma setEntry_pawnsOff (p p' : Position) (f r : Z) (x : string) :
  pawnsOffFirstRank p ->
  setEntry p f r x = Ok p' ->
  ~ (x = "wp" /\ r = 0) -> ~ (x = "bp" /\ r = 7) ->
  pawnsOffFirstRank p'.
Proof.
  intros Hoff Hset Hw Hb file.
  assert (Hcell : forall rank y,
             at_ p' file rank = Ok (Some y) ->
             (file = f /\ rank = r /\ y = x) \/ at_ p file rank = Ok (Some y)).
  { intros rank y Hy. destruct (Z.eq_dec file f) as [->|Hf].
    - destruct (Z.eq_dec rank r) as [->|Hr].
      + rewrite (at_setEntry_same _ _ _ _ _ Hset) in Hy.
        injection Hy as <-. auto.
      + rewrite (at_setEntry_other _ _ _ _ _ _ _ Hset) in Hy by congruence.
        auto.
    - rewrite (at_setEntry_other _ _ _ _ _ _ _ Hset) in Hy by congruence.
      auto. }
  destruct (Hoff file) as [H0 H7]. split; intros Hy.
  - destruct (Hcell _ _ Hy) as [(_ & <- & <-)|Hold]; [now apply Hw | now apply H0].
  - destruct (Hcell _ _ Hy) as [(_ & <- & <-)|Hold]; [now apply Hb | now apply H7].
Qed.

Lemma relocateRook_pawnsOff (p p' : Position) (a d : string) (r : value) :
  pawnsOffFirstRank p ->
  rankFromSquare (d ++ text r) = rankFromSquare (a ++ text r) ->
  relocateRook p a d r = Ok p' ->
  pawnsOffFirstRank p'.
Proof.
  intros Hoff Hrank H. unfold relocateRook in H. bind_inv H.
  destruct a0 as [rook|]; [|discriminate]. bind_inv H.
  unfold setPieceOnSquare in *.
  eapply setEntry_pawnsOff; [| exact H | intros [? _]; discriminate
                            | intros [? _]; discriminate].
  eapply setEntry_pawnsOff; [exact Hoff | exact E0 | |].
  - intros [-> H0]. rewrite Hrank in H0. unfold pieceAt in E. rewrite H0 in E.
    exact (proj1 (Hoff (fileFromSquare (a ++ text r))) E).
  - intros [-> H7]. rewrite Hrank in H7. unfold pieceAt in E. rewrite H7 in E.
    exact (proj2 (Hoff (fileFromSquare (a ++ text r))) E).
Qed.

Lemma executed_pawnsOff (s : GameState) (fromSquare toSquare : Square)
  (s' : GameState) :
  wf s -> onBoard toSquare ->
  executed s fromSquare toSquare s' ->
  pawnsOffFirstRank (position s) -> pawnsOffFirstRank (position s').
Proof.
  intros Hwf Hon Hex Hoff.
  destruct (executed_move _ _ _ _ Hex) as (x & moves & Hx & Hne & Hgen & Hin).
  destruct (executed_facts _ _ _ _ _ Hwf Hex Hx) as (_ & _ & Hpawn).
  pose proof (at_Some_range _ _ _ _ Hwf Hx) as [Hf Hr].
  apply onBoard_cell in Hon as [_ Hrto].
  destruct Hex. assert (x = piece) as -> by congruence.
  rewrite Hposition. bind_inv Hp1. unfold setPieceOnSquare in *.
  assert (H1 : pawnsOffFirstRank p1).
  { eapply setEntry_pawnsOff; [| exact Hp1 | intros [? _]; discriminate
                              | intros [? _]; discriminate].
    eapply setEntry_pawnsOff; [exact Hoff | exact E | |].
    - intros [-> H0]. destruct (Hpawn eq_refl) as (ms & Hg & Hi).
      destruct (pawn_move_rank _ _ _ _ _ Hwf Hg Hfrom Hi) as [Hk|Hk];
        change (pawnDirection "wp") with 1 in Hk; lia.
    - intros [-> H7]. destruct (Hpawn eq_refl) as (ms & Hg & Hi).
      destruct (pawn_move_rank _ _ _ _ _ Hwf Hg Hfrom Hi) as [Hk|Hk];
        change (pawnDirection "bp") with (-1) in Hk; lia. }
  assert (H2 : pawnsOffFirstRank p2).
  { destruct (_ && _) in Hp2; [|now injection Hp2 as <-].
    eapply setEntry_pawnsOff; [exact H1 | exact Hp2 | intros [? _]; discriminate
                              | intros [? _]; discriminate]. }
  assert (H3 : pawnsOffFirstRank p3).
  { destruct (_ && _) in Hp3; [|now injection Hp3 as <-].
    eapply relocateRook_pawnsOff; [exact H2 | | exact Hp3]. reflexivity. }
  destruct (_ && _) in Hp4; [|now injection Hp4 as <-].
  eapply relocateRook_pawnsOff; [exact H3 | | exact Hp4]. reflexivity.
Qed.

(** The square e1 or e8 keeps its entry through an executed move that does
    not name it. *)
Lemma home_square_unchanged (s : GameState) (fromSquare toSquare : Square)
  (s' : GameState) (home : Square) :
  home = "e1" \/ home = "e8" ->
  wf s -> knownPosition (position s) -> pawnsOffFirstRank (position s) ->
  onBoard fromSquare -> onBoard toSquare ->
  executed s fromSquare toSquare s' ->
  fromSquare <> home -> toSquare <> home ->
  pieceAt (position s') home = pieceAt (position s) home.
Proof.
  intros Hhome Hwf Hknown Hoff Hfrom Hto Hex Hnf Hnt.
  destruct (executed_move _ _ _ _ Hex) as (piece & moves & Hp & Hne & Hgen & Hin).
  destruct (executed_facts _ _ _ _ _ Hwf Hex Hp) as (_ & _ & Hpawn).
  assert (Hname : forall square, onBoard square -> square <> home ->
                                 cell home <> cell square).
  { intros square (f & r & Hf & Hr & ->) Hn Hc. apply Hn.
    rewrite cell_of_square in Hc by assumption.
    destruct Hhome as [-> | ->];
      [change (cell "e1") with (4, 0) in Hc
      |change (cell "e8") with (4, 7) in Hc];
      injection Hc as <- <-; reflexivity. }
  apply (executed_frame _ _ _ _ _ Hex); [now apply Hname|].
  intros w Hw. unfold overwritten in Hw. rewrite Hp in Hw.
  apply in_app_or in Hw as [[<-|[]]|Hw]; [now apply Hname|].
  apply in_app_or in Hw as [Hw|Hw].
  { destruct ((idx piece 1 === Some "p") && _) eqn:Ep in Hw; [|destruct Hw].
    destruct Hw as [<-|[]]. apply andb_prop in Ep as [Ep _].
    apply eqv_true in Ep.
    pose proof (onBoard_cell _ Hfrom) as [Hff Hfr].
    pose proof (onBoard_cell _ Hto) as [Htf Htr].
    rewrite side_square_cell by lia. intros Hc.
    destruct (Hpawn Ep) as (ms & Hg & Hi).
    pose proof (pawn_move_rank _ _ _ _ _ Hwf Hg Hp Hi) as Hrank.
    assert (Hpiece : piece = "wp" \/ piece = "bp").
    { destruct (Hknown _ _ _ Hp) as [->|Hk]; [discriminate Ep|].
      unfold pieceNames in Hk. cbn [In] in Hk.
      repeat (destruct Hk as [<-|Hk]; [first [now left | now right
                                                | discriminate Ep]|]).
      destruct Hk. }
    unfold _getPieceOnSquare, pieceAt in Hp.
    destruct Hhome as [-> | ->];
      [change (cell "e1") with (4, 0) in Hc
      |change (cell "e8") with (4, 7) in Hc];
      injection Hc as Hfile Hr0; rewrite <- Hr0 in Hp;
      destruct Hpiece as [-> | ->];
      try (change (pawnDirection "wp") with 1 in Hrank);
      try (change (pawnDirection "bp") with (-1) in Hrank);
      try lia;
      first [exact (proj1 (Hoff _) Hp) | exact (proj2 (Hoff _) Hp)]. }
  assert (Hrook : forall (a : ascii) (rest : string),
             Z.of_N (N_of_ascii a) - 97 <> 4 ->
             cell home <> cell (String a rest)).
  { intros a rest Ha Hc. apply Ha.
    unfold cell, fileFromSquare, charCodeAt0 in Hc.
    change (String.get 0 (String a rest)) with (Some a) in Hc.
    destruct Hhome as [-> | ->];
      change (String.get 0 "e1") with (Some "e"%char) in Hc ||
      change (String.get 0 "e8") with (Some "e"%char) in Hc;
      injection Hc as Hc _; symmetry; exact Hc. }
  apply in_app_or in Hw as [Hw|Hw].
  - destruct (_ && _) in Hw; [|destruct Hw].
    destruct Hw as [<-|[<-|[]]]; apply Hrook; vm_compute; lia.
  - destruct (_ && _) in Hw; [|destruct Hw].
    destruct Hw as [<-|[<-|[]]]; apply Hrook; vm_compute; lia.
Qed.

Lemma initial_known : knownPosition (position initialState).
Proof.
  intros file rank x Hx.
  assert (Hrange : 0 <= file < 8 /\ 0 <= rank < 8)
    by (eapply at_Some_range; [exact wf_initialState | exact Hx]).
  destruct Hrange as [Hf Hr].
  cases8 file; cases8 rank; vm_compute in Hx; injection Hx as <-;
    vm_compute; tauto.
Qed.

Lemma initial_pawnsOff : pawnsOffFirstRank (position initialState).
Proof.
  intros file. split; intros Hx;
    pose proof (at_Some_range _ _ _ _ wf_initialState Hx) as [Hrange _];
    cases8 file; vm_compute in Hx; discriminate Hx.
Qed.

Lemma executed_kingsAtHome (s : GameState) (fromSquare toSquare : Square)
  (s' : GameState) :
  wf s -> knownPosition (position s) -> pawnsOffFirstRank (position s) ->
  onBoard fromSquare -> onBoard toSquare ->
  executed s fromSquare toSquare s' ->
  kingsAtHome s -> kingsAtHome s'.
Proof.
  intros Hwf Hknown Hoff Hfrom Hto Hex [Hw Hb].
  pose proof (home_square_unchanged _ _ _ _ "e1" (or_introl eq_refl)
                Hwf Hknown Hoff Hfrom Hto Hex) as H1.
  pose proof (home_square_unchanged _ _ _ _ "e8" (or_intror eq_refl)
                Hwf Hknown Hoff Hfrom Hto Hex) as H8.
  change (pieceAt (position s') "e1") with (at_ (position s') 4 0) in H1.
  change (pieceAt (position s) "e1") with (at_ (position s) 4 0) in H1.
  change (pieceAt (position s') "e8") with (at_ (position s') 4 7) in H8.
  change (pieceAt (position s) "e8") with (at_ (position s) 4 7) in H8.
  destruct Hex. split.
  - rewrite Hwk, Hwq. intros Hright.
    destruct (fromSquare =? "e1")%string eqn:Ef;
      [rewrite !orb_true_r in Hright; cbn in Hright;
       destruct Hright; discriminate|].
    destruct (toSquare =? "e1")%string eqn:Et;
      [rewrite !orb_true_r in Hright; cbn in Hright;
       destruct Hright; discriminate|].
    apply String.eqb_neq in Ef, Et. rewrite (H1 Ef Et). apply Hw.
    cbn [orb] in Hright. rewrite !orb_false_r in Hright.
    destruct Hright as [Hright|Hright];
      [left|right];
      destruct (_ || _) in Hright; (discriminate || assumption).
  - rewrite Hbk, Hbq. intros Hright.
    destruct (fromSquare =? "e8")%string eqn:Ef;
      [rewrite !orb_true_r in Hright; cbn in Hright;
       destruct Hright; discriminate|].
    destruct (toSquare =? "e8")%string eqn:Et;
      [rewrite !orb_true_r in Hright; cbn in Hright;
       destruct Hright; discriminate|].
    apply String.eqb_neq in Ef, Et. rewrite (H8 Ef Et). apply Hb.
    cbn [orb] in Hright. rewrite !orb_false_r in Hright.
    destruct Hright as [Hright|Hright];
      [left|right];
      destruct (_ || _) in Hright; (discriminate || assumption).
Qed.

Lemma reachable_kings (s : GameState) :
  reachable s ->
  knownPosition (position s)
  /\ pawnsOffFirstRank (position s)
  /\ kingsAtHome s
  /\ (weightOf (isPiece "wk") (position s) <= 1)%nat
  /\ (weightOf (isPiece "bk") (position s) <= 1)%nat.
Proof.
  revert s. apply reachable_invariant.
  - split; [exact initial_known|]. split; [exact initial_pawnsOff|].
    split; [split; intros _; reflexivity|]. split; vm_compute; lia.
  - intros s fromSquare toSquare s' Hwf (Hknown & Hoff & Hhome & Hw & Hb)
      Hfrom Hto Hex.
    destruct (executed_weight_known (isPiece "wk") _ _ _ _ eq_refl Hwf Hex)
      as [Hw' Hknown'].
    destruct (executed_weight_known (isPiece "bk") _ _ _ _ eq_refl Hwf Hex)
      as [Hb' _].
    split; [auto|].
    split; [exact (executed_pawnsOff _ _ _ _ Hwf Hto Hex Hoff)|].
    split; [exact (executed_kingsAtHome _ _ _ _ Hwf Hknown Hoff Hfrom Hto
                     Hex Hhome)|].
    lia.
Qed.

(** X26: on every reachable state a colour that still has a castling right
    has its king on its home square, e1 or e8, and a castle is offered only
    to that king there: the castle destinations c1 and g1 are offered from
    e1 only, and c8 and g8 from e8 only.  The rook squares are not part of
    the statement. *)
Theorem castles_start_from_the_home_square (s : GameState) :
  reachable s ->
  kingsAtHome s
  /\ forall square piece toSquare,
       _getPieceOnSquare s square = Ok (Some piece) ->
       idx piece 1 = Some "k" ->
       castleOffered s piece toSquare ->
       (piece = "wk" /\ cell square = (4, 0)
        /\ (toSquare = "c1" \/ toSquare = "g1"))
       \/ (piece = "bk" /\ cell square = (4, 7)
           /\ (toSquare = "c8" \/ toSquare = "g8")).
Proof.
  intros Hreach. pose proof (reachable_wf _ Hreach) as Hwf.
  destruct (reachable_kings _ Hreach) as (Hknown & _ & Hhome & Hw & Hb).
  split; [exact Hhome|].
  intros square piece toSquare Hp Hk
    (colour & right & between & target & Hc & Hcol & Hright & _ & ->).
  assert (Hking : piece = "wk" \/ piece = "bk").
  { destruct (Hknown _ _ _ Hp) as [->|Hn]; [discriminate Hk|].
    unfold pieceNames in Hn. cbn [In] in Hn.
    repeat (destruct Hn as [<-|Hn]; [first [now left | now right
                                              | discriminate Hk]|]).
    destruct Hn. }
  assert (Hcell : forall name r0,
             piece = name -> isPiece name name = 1%nat ->
             isPiece name "ee" = 0%nat ->
             at_ (position s) 4 r0 = Ok (Some name) ->
             (weightOf (isPiece name) (position s) <= 1)%nat ->
             cell square = (4, r0)).
  { intros name r0 -> Hone Hzero Hat Hweight. unfold cell.
    destruct (Z.eq_dec (fileFromSquare square) 4) as [Ef|Ef];
      [destruct (Z.eq_dec (rankFromSquare square) r0) as [Er|Er];
       [congruence|]|];
      exfalso;
      (assert (Hne : (fileFromSquare square, rankFromSquare square) <> (4, r0))
        by congruence);
      pose proof (weight_two (isPiece name) _ _ _ _ _ _ _ Hzero Hwf
                    Hat Hp Hne) as H2;
      lia. }
  destruct Hhome as [Hhw Hhb].
  destruct Hc as [Hc|[Hc|[Hc|[Hc|[]]]]]; injection Hc as <- <- <- <-;
    destruct Hking as [-> | ->]; try discriminate Hcol.
  - left. split; [reflexivity|]. split; [|now left].
    apply (Hcell "wk" 0 eq_refl eq_refl eq_refl); [apply Hhw; now right | exact Hw].
  - left. split; [reflexivity|]. split; [|now right].
    apply (Hcell "wk" 0 eq_refl eq_refl eq_refl); [apply Hhw; now left | exact Hw].
  - right. split; [reflexivity|]. split; [|now left].
    apply (Hcell "bk" 7 eq_refl eq_refl eq_refl); [apply Hhb; now right | exact Hb].
  - right. split; [reflexivity|]. split; [|now right].
    apply (Hcell "bk" 7 eq_refl eq_refl eq_refl); [apply Hhb; now left | exact Hb].
Qed.

(** After 1. e4 e5 2. Nf3 Nc6 3. Bc4 Bc5 White still has both rights and
    the king stands on e1. *)
Lemma castles_start_from_the_home_square_witness :
  kingsAtHome kingsideCleared
  /\ at_ (position kingsideCleared) 4 0 = Ok (Some "wk").
Proof.
  assert (Hreach : reachable kingsideCleared).
  { exists [Legal "e2" "e4"; Legal "e7" "e5"; Legal "g1" "f3";
            Legal "b8" "c6"; Legal "f1" "c4"; Legal "f8" "c5"].
    split; vm_compute; reflexivity. }
  destruct (castles_start_from_the_home_square kingsideCleared Hreach)
    as [Hhome _].
  split; [exact Hhome|]. apply Hhome. now left.
Defined.

(** ** The serialization of the reachable states *)

Lemma reachable_active_color (s : GameState) :
  reachable s -> activeColor s = "w" \/ activeColor s = "b".
Proof.
  revert s. apply reachable_invariant; [now left|].
  intros s fromSquare toSquare s' _ _ _ _ []. rewrite Hcolor.
  destruct (activeColor s =? "w")%string; auto.
Qed.

(** X27: on every reachable state [getFEN] returns.  Its text is six
    fields with one space between them: the piece field, which reads back
    to the board; the active colour, w or b; the castling field; the field
    [twoSquarePawnMove], which is - or the square a pawn has just reached
    by a two-square move, with the cell it passed over empty; and the two
    counters. *)
Theorem serialization_of_reachable_states (s : GameState) :
  reachable s ->
  exists pieces,
    getFEN s
    = Ok (pieces ++ " " ++ activeColor s ++ " " ++ getFENCastling s ++ " "
            ++ twoSquarePawnMove s ++ " "
            ++ numberText (numberOfHalfMoves s) ++ " "
            ++ numberText (numberOfFullMoves s))
    /\ parseFENPieces pieces = ranksFromTop (position s)
    /\ (activeColor s = "w" \/ activeColor s = "b")
    /\ recordsPassedPawn s.
Proof.
  intros Hreach.
  destruct (reachable_kings _ Hreach) as (Hknown & _).
  destruct (piece_field_state _ (reachable_wf _ Hreach) Hknown)
    as (pieces & Hpieces & Hstate).
  exists pieces. split; [|split; [|split]].
  - unfold getFEN. rewrite Hpieces. reflexivity.
  - unfold parseFENPieces. rewrite Hstate. reflexivity.
  - now apply reachable_active_color.
  - now apply reachable_recordsPassedPawn.
Qed.

(** After 1. e4 the fourth field is e4, the square of the pawn. *)
Lemma serialization_of_reachable_states_witness :
  exists pieces, getFEN afterE4 = Ok (pieces ++ " b KQkq e4 0 1").
Proof.
  assert (Hreach : reachable afterE4)
    by (exists [Legal "e2" "e4"]; split; vm_compute; reflexivity).
  destruct (serialization_of_reachable_states afterE4 Hreach)
    as (pieces & Hfen & _).
  exists pieces. rewrite Hfen. do 2 f_equal.
Defined.

(** ** The cached king squares *)

Lemma holdsKing_cell (p : Position) (king : string) (a w : Square) :
  king = "wk" \/ king = "bk" ->
  pieceAt p a = Ok (Some king) -> holdsKing p w = false -> cell a <> cell w.
Proof.
  intros Hk Ha Hw E. unfold holdsKing in Hw.
  rewrite <- (pieceAt_cell _ _ _ E), Ha in Hw.
  destruct Hk as [-> | ->]; discriminate.
Qed.

Lemma sparesKings_spec (s : GameState) (fromSquare toSquare w : Square) :
  sparesKings s fromSquare toSquare = true ->
  In w (overwritten s fromSquare toSquare) ->
  cell w = cell fromSquare \/ holdsKing (position s) w = false.
Proof.
  unfold sparesKings. rewrite forallb_forall. intros Hs Hin.
  apply Hs in Hin. apply orb_prop in Hin. destruct Hin as [H|H].
  - left. now apply cell_eq.
  - right. now destruct (holdsKing (position s) w).
Qed.

(** An executed move that spares the kings keeps both cached squares
    right: a king that moves lands on its destination, which is not its
    source, and a king that stays is on none of the squares assigned. *)
Lemma executed_keeps_kings (s : GameState) (fromSquare toSquare : Square)
  (s' : GameState) :
  wf s ->
  executed s fromSquare toSquare s' ->
  sparesKings s fromSquare toSquare = true ->
  kingsCached s -> kingsCached s'.
Proof.
  intros Hwf He Hs [Hw Hb].
  pose proof He as [].
  destruct (executed_facts _ _ _ _ _ Hwf He Hfrom) as (Hne & _).
  assert (Hmoved : forall king,
             king = "wk" \/ king = "bk" -> piece = king ->
             pieceAt (position s') toSquare = Ok (Some king)).
  { intros king Hk ->. eapply executed_king_lands; try eassumption.
    destruct Hk as [-> | ->]; reflexivity. }
  assert (Hkept : forall king square,
             king = "wk" \/ king = "bk" -> piece <> king ->
             pieceAt (position s) square = Ok (Some king) ->
             pieceAt (position s') square = Ok (Some king)).
  { intros king square Hk Hpiece Hsq.
    assert (Hsource : cell square <> cell fromSquare).
    { intros E. rewrite (pieceAt_cell _ _ _ E) in Hsq.
      unfold _getPieceOnSquare in Hfrom. congruence. }
    rewrite <- Hsq. eapply executed_frame; [eassumption|exact Hsource|].
    intros w Hin.
    destruct (sparesKings_spec _ _ _ _ Hs Hin) as [E|Hking].
    - now rewrite E.
    - eapply holdsKing_cell; eauto. }
  split.
  - rewrite Hwks. destruct (String.eqb_spec piece "wk") as [E|E].
    + apply Hmoved; auto.
    + apply Hkept; auto.
  - rewrite Hbks. destruct (String.eqb_spec piece "bk") as [E|E].
    + apply Hmoved; auto.
    + apply Hkept; auto.
Qed.

Lemma reachableSparingKings_wf (s : GameState) :
  reachableSparingKings s -> wf s.
Proof.
  induction 1 as [|s c s' _ IH Hc _]; [exact wf_initialState|].
  apply exec_inv in Hc. destruct Hc as [->|Hc]; [assumption|].
  eapply executed_wf; eassumption.
Qed.

Lemma sparingRun_reachable (cs : list call) :
  forall s0 s : GameState,
    reachableSparingKings s0 -> sparingRun cs s0 = true ->
    run cs s0 = Ok s -> reachableSparingKings s.
Proof.
  induction cs as [|c cs IH]; cbn [sparingRun run]; intros s0 s H0 Hs H.
  - now injection H as <-.
  - bind_inv H. rewrite E in Hs. apply andb_prop in Hs as [Hc Hs].
    apply (IH a); [|assumption..].
    eapply sparing_call; [eassumption..|]. now right.
Qed.

(** C5, as the code has it: in every state reached from the initial one by
    calls of the two move-execution operations none of which executes a move
    that assigns, besides the source of the move, a square that holds a king
    (no king is taken, and none stands on a square the move clears or covers
    on the side), the cached king square of each colour holds the king of
    that colour.  The moves of the kings themselves are among these: a king
    that steps from d1 to c1 or from f1 to g1 starts on a square the rook
    relocation writes, its own source. *)
Theorem cached_king_squares_hold_kings (s : GameState) :
  reachableSparingKings s -> kingsCached s.
Proof.
  induction 1 as [|s c s' Hs IH Hc [->|Hspares]]; [|assumption|].
  - split; reflexivity.
  - apply exec_inv in Hc. destruct Hc as [->|Hc]; [assumption|].
    apply reachableSparingKings_wf in Hs.
    eapply executed_keeps_kings; eassumption.
Qed.

(** After 1. d4 a6 2. Be3 a5 3. Qd2 a4 4. Kd1 a3 the step 5. Kc1 spares the
    kings, although the rook relocation writes d1; the cached square of the
    white king is then c1, and it holds the white king. *)
Lemma cached_king_squares_hold_kings_witness :
  sparesKings beforeKingStep "d1" "c1" = true
  /\ reachableSparingKings afterKingStep
  /\ whiteKingSquare afterKingStep = "c1"
  /\ kingsCached afterKingStep.
Proof.
  assert (H : reachableSparingKings afterKingStep).
  { apply (sparingRun_reachable
             (beforeKingStepMoves ++ [Legal "d1" "c1"]) initialState).
    - apply sparing_initial.
    - vm_compute. reflexivity.
    - vm_compute. reflexivity. }
  split; [vm_compute; reflexivity|]. split; [exact H|].
  split; [reflexivity|].
  apply cached_king_squares_hold_kings. exact H.
Defined.

(** The claim as written fails.  In 1. e4 f5 2. Qh5+ a6 3. Qxe8 every move
    is made by the active colour; Black's reply to the check is executed by
    [playPseudoLegalMove], which does not look at checks, and the queen then
    takes the king: the cached square of the black king holds the white
    queen.  Legal executions alone do it too: after fool's mate the engine
    accepts h4-e1 for the black queen, White being the active colour, and
    the cached square of the white king holds that queen.  And so do legal
    moves made in turn: in 1. e4 d6 2. e5 Kd7 3. a3 Ke6 4. a4 Kd5 5. exd6
    the execution of the capture clears d5, beside the pawn's source, where
    the black king stands; the cached square d5 is then empty. *)
Lemma cached_king_square_counterexample :
  (run blackKingTakenMoves initialState = Ok blackKingTaken
   /\ reachable blackKingTaken
   /\ blackKingSquare blackKingTaken = "e8"
   /\ pieceAt (position blackKingTaken) "e8" = Ok (Some "wq")
   /\ ~ kingsCached blackKingTaken)
  /\ (run whiteKingTakenMoves initialState = Ok whiteKingTaken
      /\ reachable whiteKingTaken
      /\ whiteKingSquare whiteKingTaken = "e1"
      /\ pieceAt (position whiteKingTaken) "e1" = Ok (Some "bq")
      /\ ~ kingsCached whiteKingTaken)
  /\ (run blackKingErasedMoves initialState = Ok blackKingErased
      /\ inTurn blackKingErasedMoves initialState = true
      /\ reachable blackKingErased
      /\ blackKingSquare blackKingErased = "d5"
      /\ pieceAt (position blackKingErased) "d5" = Ok (Some "ee")
      /\ ~ kingsCached blackKingErased).
Proof.
  split; [|split].
  - split; [vm_compute; reflexivity|].
    split; [exists blackKingTakenMoves; split; vm_compute; reflexivity|].
    split; [reflexivity|]. split; [vm_compute; reflexivity|].
    intros [_ H]. vm_compute in H. discriminate H.
  - split; [vm_compute; reflexivity|].
    split; [exists whiteKingTakenMoves; split; vm_compute; reflexivity|].
    split; [reflexivity|]. split; [vm_compute; reflexivity|].
    intros [H _]. vm_compute in H. discriminate H.
  - split; [vm_compute; reflexivity|]. split; [vm_compute; reflexivity|].
    split; [exists blackKingErasedMoves; split; vm_compute; reflexivity|].
    split; [reflexivity|]. split; [vm_compute; reflexivity|].
    intros [_ H]. vm_compute in H. discriminate H.
Qed.

(** ** The en-passant window *)

Lemma forMoves_spec (s : GameState) (k : Square -> Square -> bool)
  (fromSquare toSquare : Square) :
  forMoves s k = true -> onBoard fromSquare ->
  legalMove s fromSquare toSquare -> k fromSquare toSquare = true.
Proof.
  unfold forMoves. rewrite forallb_forall. intros H Hon (moves & Hm & Hin).
  apply onBoard_allSquares in Hon. specialize (H _ Hon). rewrite Hm in H.
  rewrite forallb_forall in H. auto.
Qed.

(** The first move of a game that [playAll] carries out is legal, and the
    rest is played from the state [playPseudoLegalMove] gives. *)
Lemma playAll_first (s : GameState) (fromSquare toSquare : Square)
  (rest : list (Square * Square)) (s' : GameState) :
  playAll ((fromSquare, toSquare) :: rest) s = Some s' ->
  legalMove s fromSquare toSquare
  /\ match playPseudoLegalMove s fromSquare toSquare with
     | Ok s1 => playAll rest s1
     | Throw _ => None
     end = Some s'.
Proof.
  cbn [playAll]. unfold playLegalMove.
  destruct (moveIsLegal s fromSquare toSquare) as [[|]|] eqn:E;
    try discriminate.
  cbn [bind negb]. intros H. split; [now apply moveIsLegal_true | exact H].
Qed.

Lemma playAll_cons (s : GameState) (fromSquare toSquare : Square)
  (rest : list (Square * Square)) (s' : GameState) :
  moveIsLegal s fromSquare toSquare = Ok true ->
  playLegalMove s fromSquare toSquare = Ok s' ->
  playAll ((fromSquare, toSquare) :: rest) s = playAll rest s'.
Proof.
  intros H1 H2. cbn [playAll]. now rewrite H1, H2.
Qed.

(** A move that either operation executes is one that
    [playPseudoLegalMove] executes, with the same result. *)
Lemma executed_by_pseudo (s : GameState) (fromSquare toSquare : Square)
  (s' : GameState) :
  playLegalMove s fromSquare toSquare = Ok s'
  \/ playPseudoLegalMove s fromSquare toSquare = Ok s' ->
  s' <> s ->
  playPseudoLegalMove s fromSquare toSquare = Ok s'
  /\ pseudoLegalMove s fromSquare toSquare.
Proof.
  intros H Hne.
  pose proof (executed_of_play _ _ _ _ H Hne) as [].
  split; [|now apply moveIsPseudoLegal_true].
  destruct H as [H|H]; [|exact H].
  apply playLegalMove_inv in H. destruct H as [[_ ->]|[_ H]]; [congruence|].
  exact H.
Qed.

Lemma windowClosed_spec (s : GameState) (fromSquare toSquare : Square)
  (s' : GameState) :
  windowClosed s = true ->
  onBoard fromSquare ->
  squareHasPieceOfActivePlayer s fromSquare = Ok true ->
  playLegalMove s fromSquare toSquare = Ok s'
  \/ playPseudoLegalMove s fromSquare toSquare = Ok s' ->
  s' <> s ->
  (fromSquare, toSquare) <> ("e5", "d6") ->
  twoSquarePawnMove s' <> "d5"
  /\ exists moves, getLegalMoves s' "e5" = Ok moves /\ ~ In "d6" moves.
Proof.
  unfold windowClosed. rewrite forallb_forall.
  intros Hclosed Hon Hactive Hplay Hne Hother.
  apply onBoard_allSquares in Hon. specialize (Hclosed _ Hon).
  rewrite Hactive in Hclosed.
  destruct (executed_by_pseudo _ _ _ _ Hplay Hne) as (Hs' & moves & Hm & Hin).
  rewrite Hm in Hclosed. rewrite forallb_forall in Hclosed.
  specialize (Hclosed _ Hin). cbv beta in Hclosed. rewrite Hs' in Hclosed.
  destruct ((fromSquare =? "e5")%string && (toSquare =? "d6")%string)
    eqn:Ecapture.
  - apply andb_prop in Ecapture. destruct Ecapture as [Ef Et].
    apply String.eqb_eq in Ef. apply String.eqb_eq in Et. subst.
    now contradiction Hother.
  - apply andb_prop in Hclosed. destruct Hclosed as [Htwo Hd6]. split.
    + intros E. rewrite E in Htwo. discriminate.
    + destruct (getLegalMoves s' "e5") as [moves'|]; [|discriminate].
      exists moves'. split; [reflexivity|]. intros Hd.
      apply includes_In in Hd. rewrite Hd in Hd6. discriminate.
Qed.

Lemma windowAfterReply_all : forMoves afterE4 windowAfterReply = true.
Proof. vm_compute. reflexivity. Qed.

(** C8: after 1. e4, any legal reply, and then e4-e5 and d7-d5, where the
    engine executes them (after each of Black's twenty replies but e7-e5,
    d7-d6 and d7-d5), White is the active colour, d6 is in the legal set of
    the pawn on e5, an empty square, and the en-passant target is d5, where
    the black pawn stands.  If the active colour
    makes any move other than that capture next, executed by either
    operation, then afterwards d6 is not in the legal set of e5 and the
    target is not d5.  In general, on an 8 by 8 board, every executed move
    sets the en-passant target: to its destination when it took a pawn two
    ranks, which is then a pawn that went from its home rank along its file
    over an empty square, and to "-" when it did not. *)
Theorem en_passant_window :
  (forall (replyFrom replyTo : Square) (s : GameState),
      onBoard replyFrom ->
      playAll [("e2", "e4"); (replyFrom, replyTo); ("e4", "e5"); ("d7", "d5")]
        initialState = Some s ->
      activeColor s = "w"
      /\ legalMove s "e5" "d6"
      /\ twoSquarePawnMove s = "d5"
      /\ pieceAt (position s) "d5" = Ok (Some "bp")
      /\ pieceAt (position s) "d6" = Ok (Some "ee")
      /\ forall (fromSquare toSquare : Square) (s' : GameState),
           onBoard fromSquare ->
           squareHasPieceOfActivePlayer s fromSquare = Ok true ->
           playLegalMove s fromSquare toSquare = Ok s'
           \/ playPseudoLegalMove s fromSquare toSquare = Ok s' ->
           s' <> s ->
           (fromSquare, toSquare) <> ("e5", "d6") ->
           twoSquarePawnMove s' <> "d5"
           /\ exists moves,
                getLegalMoves s' "e5" = Ok moves /\ ~ In "d6" moves)
  /\ (forall (s : GameState) (fromSquare toSquare : Square) (s' : GameState),
         wf s ->
         playLegalMove s fromSquare toSquare = Ok s'
         \/ playPseudoLegalMove s fromSquare toSquare = Ok s' ->
         s' <> s ->
         (twoSquarePawnMove s' = "-"
          /\ forall piece,
               _getPieceOnSquare s fromSquare = Ok (Some piece) ->
               idx piece 1 = Some "p" ->
               Z.abs (rankFromSquare fromSquare - rankFromSquare toSquare) <= 1)
         \/ (exists piece,
               twoSquarePawnMove s' = toSquare
               /\ _getPieceOnSquare s fromSquare = Ok (Some piece)
               /\ _getPieceOnSquare s' toSquare = Ok (Some piece)
               /\ idx piece 1 = Some "p"
               /\ fileFromSquare toSquare = fileFromSquare fromSquare
               /\ rankFromSquare fromSquare = pawnHomeRank piece
               /\ rankFromSquare toSquare
                  = pawnHomeRank piece + 2 * pawnDirection piece
               /\ emptyCell (position s')
                    (fileFromSquare fromSquare,
                     pawnHomeRank piece + pawnDirection piece))).
Proof.
  split.
  - intros replyFrom replyTo s Hon H2.
    rewrite (playAll_cons _ _ _ _ afterE4) in H2 by (vm_compute; reflexivity).
    apply playAll_first in H2. destruct H2 as [Hreply H2].
    pose proof (forMoves_spec _ _ _ _ windowAfterReply_all Hon Hreply) as Hw.
    unfold windowAfterReply in Hw. rewrite H2 in Hw.
    destruct (moveIsLegal s "e5" "d6") as [[|]|] eqn:Hd6; try discriminate.
    apply andb_prop in Hw. destruct Hw as [Hw Hclosed].
    apply andb_prop in Hw. destruct Hw as [Hw Hpieces].
    apply andb_prop in Hw. destruct Hw as [Htwo Hwhite].
    split; [now apply String.eqb_eq|].
    split; [now apply moveIsLegal_true|].
    split; [now apply String.eqb_eq|].
    destruct (pieceAt (position s) "d5") as [[pawn|]|]; try discriminate.
    destruct (pieceAt (position s) "d6") as [[target|]|]; try discriminate.
    apply andb_prop in Hpieces. destruct Hpieces as [Hpawn Htarget].
    apply String.eqb_eq in Hpawn. apply String.eqb_eq in Htarget. subst.
    split; [reflexivity|]. split; [reflexivity|].
    intros f t s' Hf Hactive Hplay Hne Hother.
    exact (windowClosed_spec _ _ _ _ Hclosed Hf Hactive Hplay Hne Hother).
  - intros s f t s' Hwf Hplay Hne.
    apply executed_two_square; [exact Hwf|].
    now apply executed_of_play.
Qed.

Lemma onBoard_a7_g1 : onBoard "a7" /\ onBoard "g1".
Proof.
  split; [exists 0, 6 | exists 6, 0]; repeat split; try lia.
Qed.

(** In the game 1. e4 a6 2. e5 d5 White is to move, the capture e5xd6 is
    legal and the target is d5; after 3. Nf3 the capture is not legal, and
    the target is "-". *)
Lemma en_passant_window_witness :
  activeColor enPassantReady = "w"
  /\ legalMove enPassantReady "e5" "d6"
  /\ twoSquarePawnMove enPassantReady = "d5"
  /\ twoSquarePawnMove knightOnF3 = "-"
  /\ ~ legalMove knightOnF3 "e5" "d6".
Proof.
  destruct en_passant_window as [Hscenario _].
  destruct (Hscenario "a7" "a6" enPassantReady (proj1 onBoard_a7_g1))
    as (H0 & H1 & H2 & _ & _ & H3); [vm_compute; reflexivity|].
  split; [exact H0|]. split; [exact H1|]. split; [exact H2|].
  split; [reflexivity|].
  destruct (H3 "g1" "f3" knightOnF3 (proj2 onBoard_a7_g1))
    as (_ & moves & Hmoves & Hd6).
  - vm_compute. reflexivity.
  - left. vm_compute. reflexivity.
  - discriminate.
  - discriminate.
  - intros (moves' & Hmoves' & Hin). rewrite Hmoves in Hmoves'.
    injection Hmoves' as <-. contradiction.
Defined.

(** Black has twenty legal replies to 1. e4; after all of them but d7-d5,
    d7-d6 and e7-e5 the engine executes 2. e5 and 2... d5. *)
Lemma black_replies_after_e4 :
  List.length blackReplies = 20%nat
  /\ filter (fun reply => negb (letsPawnsAdvance reply)) blackReplies
     = [("d7", "d5"); ("d7", "d6"); ("e7", "e5")].
Proof.
  split; vm_compute; reflexivity.
Qed.
